(** * Screen-region OCR tool: capture chain, recognition dispatch,
      result normalisation

    A shallow embedding of the capture and recognition pipeline
    ([capture.py], [overlay.py], [popup.py], [paddle_client.py],
    [ocr_engine.py]) together with the properties of its specification.

    Conventions of the embedding.
    - Python [int] is [Z]; Python [str] is a list of Unicode code points.
    - A Python [float] is a binary64 value.  [Binary64] writes out the
      rounding of its arithmetic on rationals (to nearest, ties to even,
      with overflow and the subnormal range), and [PaddleFloat] is the
      result normaliser with that arithmetic: what the mean confidence
      is, is settled there.  [Paddle] is the same normaliser with the
      confidences as rationals ([Q]), added and divided without
      rounding; it serves the properties that the rounding does not
      bear on.
    - External services (the MSS, dxcam and Qt grabbers, the PaddleOCR
      engine) are oracles that see the history of the calls made so far;
      every function that reaches one threads that history, which doubles
      as the observable trace of the run.
    - A Python exception is the outcome [Raised]; every [try]/[except] of
      the source is written out where it stands. *)

From Stdlib Require Import String Ascii.
From Stdlib Require Import List ZArith NArith QArith Qabs Qpower Bool Lia Lqa Sorted.
From Stdlib Require PrimFloat SpecFloat FloatOps.
Import ListNotations.

Set Implicit Arguments.
Set Warnings "-register-all".

(* ===================================================================== *)
(** ** Exceptions and traced effects *)
(* ===================================================================== *)

(** The outcome of an expression that may raise. *)
Inductive exc (A : Type) : Type :=
| Ok (a : A)
| Raised.
Arguments Ok {A} a.
Arguments Raised {A}.

Definition exc_bind {A B} (c : exc A) (k : A -> exc B) : exc B :=
  match c with
  | Ok a => k a
  | Raised => Raised
  end.

(** [try: c except: d] *)
Definition catch {A} (c : exc A) (d : A) : A :=
  match c with
  | Ok a => a
  | Raised => d
  end.

Definition of_option {A} (o : option A) : exc A :=
  match o with
  | Some a => Ok a
  | None => Raised
  end.

(** A computation that talks to the outside world: it receives the events
    that happened so far and returns its value with the extended history. *)
Definition traced (E A : Type) : Type := list E -> A * list E.

Definition ret {E A} (a : A) : traced E A := fun t => (a, t).

Definition bind {E A B} (c : traced E A) (k : A -> traced E B) : traced E B :=
  fun t => let (a, t') := c t in k a t'.

(** Record one event at the end of the history. *)
Definition emit {E} (e : E) : traced E unit := fun t => (tt, t ++ [e]).

(** Look at the history (what an oracle is allowed to depend on). *)
Definition history {E} : traced E (list E) := fun t => (t, t).

(** Run a computation from the empty history. *)
Definition run {E A} (c : traced E A) : A * list E := c [].

Declare Scope exc_scope.
Delimit Scope exc_scope with exc.
Notation "x <-! c ; k" := (exc_bind c (fun x => k))
  (at level 100, c at next level, right associativity) : exc_scope.

Declare Scope traced_scope.
Delimit Scope traced_scope with traced.
Notation "x <- c ;; k" := (bind c (fun x => k))
  (at level 100, c at next level, right associativity) : traced_scope.
Notation "c ;; k" := (bind c (fun _ => k))
  (at level 100, right associativity) : traced_scope.

(* ===================================================================== *)
(** ** Python strings and values *)
(* ===================================================================== *)

Module Py.

(** A [str] is a sequence of code points. *)
Definition char := N.
Definition str := list char.

(** String literals of the source. *)
Definition lit (s : string) : str :=
  map N_of_ascii (list_ascii_of_string s).

Definition newline : str := [10%N].

Fixpoint str_eqb (a b : str) : bool :=
  match a, b with
  | [], [] => true
  | x :: a', y :: b' => N.eqb x y && str_eqb a' b'
  | _, _ => false
  end.

(** [c.isspace()]: the code points that [str.strip()] removes. *)
Definition is_space (c : char) : bool :=
  ((9 <=? c) && (c <=? 13) || (28 <=? c) && (c <=? 32)
   || (c =? 133) || (c =? 160) || (c =? 5760)
   || (8192 <=? c) && (c <=? 8202)
   || (c =? 8232) || (c =? 8233) || (c =? 8239) || (c =? 8287)
   || (c =? 12288))%N.

Fixpoint lstrip (s : str) : str :=
  match s with
  | [] => []
  | c :: r => if is_space c then lstrip r else s
  end.

Definition rstrip (s : str) : str := rev (lstrip (rev s)).

(** [s.strip()] *)
Definition strip (s : str) : str := rstrip (lstrip s).

(** Truth value of a string: non-empty. *)
Definition str_truthy (s : str) : bool :=
  match s with
  | [] => false
  | _ :: _ => true
  end.

(** [sep.join(parts)] *)
Fixpoint join (sep : str) (parts : list str) : str :=
  match parts with
  | [] => []
  | [p] => p
  | p :: rest => p ++ sep ++ join sep rest
  end.

(** [s.lower()] on the ASCII letters.  The code points outside ASCII
    whose lower case is an ASCII letter (the Kelvin sign) lower to a
    letter that occurs in none of the keys [lower] is used with. *)
Definition lower_char (c : char) : char :=
  if ((65 <=? c) && (c <=? 90))%N then (c + 32)%N else c.

Definition lower (s : str) : str := map lower_char s.

(** The values a recogniser result is made of.  Dictionaries are keyed by
    strings (the only keys the source looks up).  [VObj] is any other
    object (a numpy scalar or array, a result object): duck typing sees
    it only through the operations the source applies, so it carries
    the outcome of [bool(o)] ([None] when that raises), of [o[0]], of
    [float(o)] and of [str(o)]. *)
Inductive value : Type :=
| VNone
| VBool (b : bool)
| VInt (z : Z)
| VFloat (q : Q)
| VStr (s : str)
| VList (items : list value)
| VTuple (items : list value)
| VDict (entries : list (str * value))
| VObj (truth : option bool) (first : option value)
       (as_float : option Q) (as_str : str).

(** What the interpreter supplies: [str(v)] for the built-in values that
    are not strings, and [float(s)] for a string. *)
Record Builtins : Type := {
  str_of : value -> str;
  float_of_text : str -> option Q
}.

(** [bool(v)] *)
Definition truthy (v : value) : exc bool :=
  match v with
  | VNone => Ok false
  | VBool b => Ok b
  | VInt z => Ok (negb (z =? 0)%Z)
  | VFloat q => Ok (negb (Qeq_bool q 0))
  | VStr s => Ok (str_truthy s)
  | VList l | VTuple l => Ok (negb (Nat.eqb (length l) 0))
  | VDict d => Ok (negb (Nat.eqb (length d) 0))
  | VObj t _ _ _ => of_option t
  end.

(** [v[0]]; a dictionary, keyed by strings, has no entry 0. *)
Definition getitem0 (v : value) : exc value :=
  match v with
  | VList l | VTuple l => of_option (nth_error l 0)
  | VStr s => match s with
              | [] => Raised
              | c :: _ => Ok (VStr [c])
              end
  | VObj _ f _ _ => of_option f
  | VDict _ => Raised
  | VNone | VBool _ | VInt _ | VFloat _ => Raised
  end.

(** [str(v)] *)
Definition py_str (b : Builtins) (v : value) : str :=
  match v with
  | VStr s => s
  | VObj _ _ _ s => s
  | _ => str_of b v
  end.

(** [float(v)] *)
Definition py_float (b : Builtins) (v : value) : exc Q :=
  match v with
  | VFloat q => Ok q
  | VInt z => Ok (inject_Z z)
  | VBool t => Ok (if t then 1 else 0)
  | VStr s => of_option (float_of_text b s)
  | VObj _ _ f _ => of_option f
  | VNone | VList _ | VTuple _ | VDict _ => Raised
  end.

(** [key in d] and [d[key]] *)
Fixpoint dict_get (key : str) (d : list (str * value)) : option value :=
  match d with
  | [] => None
  | (k, v) :: rest => if str_eqb key k then Some v else dict_get key rest
  end.

Definition is_dict (v : value) : bool :=
  match v with VDict _ => true | _ => false end.

(** [isinstance(v, (list, tuple))] *)
Definition is_seq (v : value) : bool :=
  match v with VList _ | VTuple _ => true | _ => false end.

End Py.

(* ===================================================================== *)
(** ** Toolkit types: PIL images, Qt points, rectangles and screens *)
(* ===================================================================== *)

Module PIL.

(** A decoded RGB image: its size and its pixel data.  The pipeline
    hands images on and never looks inside. *)
Record Image : Type := {
  img_size : Z * Z;
  img_rgb : list Z
}.

(** [Image.frombytes("RGB", size, data)] *)
Definition frombytes (size : Z * Z) (data : list Z) : Image :=
  {| img_size := size; img_rgb := data |}.

End PIL.

Module Qt.
Local Open Scope Z_scope.

Record QPoint : Type := { px : Z; py : Z }.

(** A [QRect] keeps its two corners; both are inside the rectangle. *)
Record QRect : Type := { x1 : Z; y1 : Z; x2 : Z; y2 : Z }.

(** [QRect(topLeft, bottomRight)] *)
Definition rect_of_points (p q : QPoint) : QRect :=
  {| x1 := px p; y1 := py p; x2 := px q; y2 := py q |}.

(** [QRect(x, y, width, height)] *)
Definition rect_of_size (x y w h : Z) : QRect :=
  {| x1 := x; y1 := y; x2 := x + w - 1; y2 := y + h - 1 |}.

Definition rect_x (r : QRect) : Z := x1 r.
Definition rect_y (r : QRect) : Z := y1 r.
Definition rect_width (r : QRect) : Z := x2 r - x1 r + 1.
Definition rect_height (r : QRect) : Z := y2 r - y1 r + 1.

(** [QRect::normalized()] of Qt 6: corners in the wrong order are
    exchanged so that width and height are not negative. *)
Definition normalized (r : QRect) : QRect :=
  let (xa, xb) := if x2 r <? x1 r then (x2 r + 1, x1 r - 1) else (x1 r, x2 r) in
  let (ya, yb) := if y2 r <? y1 r then (y2 r + 1, y1 r - 1) else (y1 r, y2 r) in
  {| x1 := xa; y1 := ya; x2 := xb; y2 := yb |}.

(** [QRect::center()]; C++ integer division truncates. *)
Definition center (r : QRect) : QPoint :=
  {| px := Z.quot (x1 r + x2 r) 2; py := Z.quot (y1 r + y2 r) 2 |}.

(** A [QScreen]: its logical geometry and device pixel ratio. *)
Record QScreen : Type := {
  geometry : QRect;
  devicePixelRatio : Q
}.

End Qt.

(** [int(q)]: truncation towards zero. *)
Definition py_int (q : Q) : Z := Z.quot (Qnum q) (Zpos (Qden q)).

(* ===================================================================== *)
(** ** Python floats: IEEE 754 binary64 *)
(* ===================================================================== *)

Module Binary64.
Local Open Scope Z_scope.

(** A Python float is a binary64 value: a finite one, held as the
    rational it denotes ([m * 2^e] with [|m| < 2^53] and
    [-1074 <= e <= 971], in lowest terms), an infinity or a NaN.  The
    sign of a zero is not kept. *)
Inductive float : Type :=
| Finite (q : Q)
| Inf (negative : bool)
| NaN.

(** [floor (log2 (n / d))] *)
Definition floor_log2 (n d : positive) : Z :=
  let k := Z.log2 (Zpos n) - Z.log2 (Zpos d) in
  if (if 0 <=? k then Zpos d * 2 ^ k <=? Zpos n
      else Zpos d <=? Zpos n * 2 ^ (- k))
  then k else k - 1.

(** The integer nearest to [n / d], the even one of the two when [n / d]
    lies half-way between them. *)
Definition nearest_even (n d : Z) : Z :=
  let q := n / d in
  match 2 * (n mod d) ?= d with
  | Lt => q
  | Gt => q + 1
  | Eq => if Z.even q then q else q + 1
  end.

(** The exponent of the last place of [n / d]: 53 significant bits, and
    no exponent below -1074 (the subnormal range). *)
Definition quantum (n d : positive) : Z := Z.max (floor_log2 n d - 52) (-1074).

(** [2^e] *)
Definition pow2 (e : Z) : Q :=
  if 0 <=? e then inject_Z (2 ^ e) else 1 # Z.to_pos (2 ^ (- e)).

(** [n / d] rounded to the nearest multiple of its last place. *)
Definition round_pos (n d : positive) : Q :=
  let e := quantum n d in
  let m := nearest_even (Zpos n * 2 ^ Z.max 0 (- e)) (Zpos d * 2 ^ Z.max 0 e) in
  Qred (inject_Z m * pow2 e).

(** The largest finite value is [(2^53 - 1) * 2^971]; what rounds to
    [2^1024] or beyond overflows. *)
Definition overflows (r : Q) : bool := Qle_bool (inject_Z (2 ^ 1024)) r.

(** The binary64 values among the rationals. *)
Definition is_float (q : Q) : Prop :=
  exists m e,
    Z.abs m < 2 ^ 53 /\ -1074 <= e <= 971 /\ (q == inject_Z m * pow2 e)%Q.

(** The float a real result is rounded to: to nearest, ties to even,
    the mode every float operation of the interpreter uses. *)
Definition round (q : Q) : float :=
  match Qred q with
  | Qmake Z0 _ => Finite 0
  | Qmake (Zpos n) d =>
      let r := round_pos n d in
      if overflows r then Inf false else Finite r
  | Qmake (Zneg n) d =>
      let r := round_pos n d in
      if overflows r then Inf true else Finite (- r)
  end.

(** A float of the proof assistant's own binary64 arithmetic, as the
    value it denotes. *)
Definition of_machine (f : PrimFloat.float) : float :=
  match FloatOps.Prim2SF f with
  | SpecFloat.S754_zero _ => Finite 0
  | SpecFloat.S754_infinity s => Inf s
  | SpecFloat.S754_nan => NaN
  | SpecFloat.S754_finite s m e =>
      Finite (Qred (inject_Z (if s then Zneg m else Zpos m) * pow2 e))
  end.

(** [a + b] *)
Definition add (a b : float) : float :=
  match a, b with
  | Finite x, Finite y => round (x + y)
  | Inf s, Inf s' => if Bool.eqb s s' then Inf s else NaN
  | Inf s, Finite _ | Finite _, Inf s => Inf s
  | NaN, _ | _, NaN => NaN
  end.

(** [- a] *)
Definition opp (a : float) : float :=
  match a with
  | Finite x => Finite (- x)
  | Inf s => Inf (negb s)
  | NaN => NaN
  end.

(** [a - b] *)
Definition sub (a b : float) : float := add a (opp b).

Definition is_zero (a : float) : bool :=
  match a with
  | Finite x => Qeq_bool x 0
  | _ => false
  end.

Definition is_finite (a : float) : bool :=
  match a with
  | Finite _ => true
  | _ => false
  end.

Definition negative (q : Q) : bool := Qnum q <? 0.

(** The quotient of the machine, a zero divisor taken as [+0]. *)
Definition div (a b : float) : float :=
  match a, b with
  | Finite x, Finite y =>
      if Qeq_bool y 0
      then (if Qeq_bool x 0 then NaN else Inf (negative x))
      else round (x / y)
  | Inf s, Finite y => Inf (xorb s (negative y))
  | Finite _, Inf _ => Finite 0
  | Inf _, Inf _ => NaN
  | NaN, _ | _, NaN => NaN
  end.

(** [a / b] on floats: a zero divisor raises [ZeroDivisionError]. *)
Definition truediv (a b : float) : exc float :=
  if is_zero b then Raised else Ok (div a b).

(** An [int] converted for float arithmetic: correctly rounded, and
    [OverflowError] when it is too large for a float. *)
Definition of_int (z : Z) : exc float :=
  match round (inject_Z z) with
  | Finite r => Ok (Finite r)
  | _ => Raised
  end.

(** [fabs(a) >= fabs(b)] *)
Definition fabs_ge (a b : float) : bool :=
  match a, b with
  | NaN, _ | _, NaN => false
  | Inf _, _ => true
  | Finite _, Inf _ => false
  | Finite x, Finite y => Qle_bool (Qabs y) (Qabs x)
  end.

(** How the built-in [sum] adds floats.  Up to CPython 3.11 it adds them
    one by one from the left; from 3.12 on it keeps a running
    compensation for the low-order bits lost at each addition
    (Neumaier's summation) and adds it in at the end. *)
Inductive Summation : Type :=
| LeftToRight
| Compensated.

(** One step of the compensated loop: [total] is the running sum and the
    running compensation. *)
Definition cs_add (total : float * float) (x : float) : float * float :=
  let (hi, lo) := total in
  let t := add hi x in
  (t, add lo (if fabs_ge hi x then add (sub hi t) x else add (sub x t) hi)).

(** The end of the compensated loop: the compensation is added unless
    it is zero or not finite. *)
Definition cs_to_double (total : float * float) : float :=
  let (hi, lo) := total in
  if negb (is_zero lo) && is_finite lo then add hi lo else hi.

(** [sum(l)] for a list of floats.  The start value is the integer 0,
    to which the first float is added as it is; the float loop takes
    over from there.  (Of an empty list the sum is the integer 0
    itself.) *)
Definition py_sum (alg : Summation) (l : list float) : float :=
  match alg with
  | LeftToRight => fold_left add l (Finite 0)
  | Compensated =>
      match l with
      | [] => Finite 0
      | x :: rest =>
          cs_to_double (fold_left cs_add rest (add (Finite 0) x, Finite 0))
      end
  end.

End Binary64.

(* ===================================================================== *)
(** ** paddle_client.py: the recogniser client and the result normaliser *)
(* ===================================================================== *)

Module Paddle.
Import Py PIL.
Local Open Scope exc_scope.

(** [PaddleOCRClient.get_instance]: the key under which the instance for
    [lang] is cached. *)
Definition instance_key (lang : str) : str :=
  if existsb (str_eqb lang) [lit "hin"; lit "hindi"; lit "hi"] then lit "hindi"
  else if existsb (str_eqb lang)
            [lit "eng+hin"; lit "hin+eng"; lit "bilingual"; lit "multilingual"]
       then lit "multilingual"
  else if existsb (str_eqb lang) [lit "eng"; lit "en"] then lit "en"
  else lang.

(** The recogniser as an external service.  [ocr_call past key img] is
    what [get_instance(lang)] followed by [ocr.ocr(img_array)] produces
    for the instance cached under [key], given the keys of the calls made
    earlier; [Raised] stands for an exception anywhere between the two
    (initialisation, image conversion, inference). *)
Record Engine : Type := {
  builtins : Builtins;
  ocr_call : list str -> str -> Image -> exc value
}.

(** The two accumulators of the parser, [text_lines] and [confidences]. *)
Definition acc : Type := (list str * list Q)%type.

Definition acc_empty : acc := ([], []).

Definition acc_push (a : acc) (text : str) (conf : Q) : acc :=
  (fst a ++ [text], snd a ++ [conf]).

(** Keyed-mapping shape, one element of the list under the key
    (lines 158-164). *)
Definition dict_item (b : Builtins) (a : acc) (item : value) : exc acc :=
  match item with
  | VStr s => Ok (acc_push a s 1)
  | VList l | VTuple l =>
      if (2 <=? length l)%nat then
        let text := py_str b (nth 0 l VNone) in
        conf <-! py_float b (nth 1 l VNone);
        Ok (acc_push a text conf)
      else Ok a
  | _ => Ok a
  end.

Fixpoint dict_items (b : Builtins) (a : acc) (data : list value) : exc acc :=
  match data with
  | [] => Ok a
  | item :: rest => a' <-! dict_item b a item; dict_items b a' rest
  end.

Definition possible_keys : list str :=
  [lit "text"; lit "texts"; lit "rec_text"; lit "rec_texts"; lit "results"].

(** Keyed-mapping shape: the first known key present decides
    (lines 152-168, the loop ends at [break]). *)
Fixpoint parse_dict (b : Builtins) (keys : list str) (d : list (str * value))
  : exc acc :=
  match keys with
  | [] => Ok acc_empty
  | possible_key :: keys' =>
      match dict_get possible_key d with
      | Some data =>
          match data with
          | VList items => dict_items b acc_empty items
          | VStr s => Ok (acc_push acc_empty s 1)
          | _ => Ok acc_empty
          end
      | None => parse_dict b keys' d
      end
  end.

(** [if text and text.strip()] *)
Definition accepted (text : str) : bool :=
  str_truthy text && str_truthy (strip text).

(** List shape, the body of the [try] for one line (lines 178-202):
    [Ok (Some (text, conf))] when the line is appended, [Ok None] when it
    is passed over, [Raised] when the body raises. *)
Definition parse_line (b : Builtins) (line : value) : exc (option (str * Q)) :=
  t <-! truthy line;
  if negb t then Ok None
  else
    match line with
    | VList l | VTuple l =>
        if (2 <=? length l)%nat then
          match nth 1 l VNone with
          | VList td | VTuple td =>
              if (2 <=? length td)%nat then
                let text := py_str b (nth 0 td VNone) in
                conf <-! py_float b (nth 1 td VNone);
                Ok (if accepted text then Some (text, conf) else None)
              else Ok None
          | VStr text =>
              Ok (if accepted text then Some (text, 1) else None)
          | _ => Ok None
          end
        else Ok None
    | _ => Ok None
    end.

(** List shape, the loop (lines 174-206): a line whose body raises is
    logged and skipped. *)
Fixpoint parse_lines (b : Builtins) (a : acc) (lines : list value) : acc :=
  match lines with
  | [] => a
  | line :: rest =>
      match catch (parse_line b line) None with
      | Some (text, conf) => parse_lines b (acc_push a text conf) rest
      | None => parse_lines b a rest
      end
  end.

(** [sum(confidences)], without rounding. *)
Definition py_sum (l : list Q) : Q := fold_left Qplus l 0.

(** Lines 212-223, the mean taken without rounding; [PaddleFloat.finish]
    takes it in binary64. *)
Definition finish (a : acc) : str * Q :=
  let (text_lines, confidences) := a in
  match text_lines with
  | [] => ([], 0)
  | _ :: _ =>
      (join newline text_lines,
       match confidences with
       | [] => 0
       | _ :: _ => py_sum confidences / inject_Z (Z.of_nat (length confidences))
       end)
  end.

(** The normaliser: lines 132-223 of [run_paddle_ocr], from the
    recogniser's raw result to [(text, confidence)], before the
    enclosing [except].  The logging block of lines 96-130 only reads the
    result, inside a [try] of its own, and is left out. *)
Definition parse_result (b : Builtins) (result : value) : exc (str * Q) :=
  t <-! truthy result;
  if negb t then Ok ([], 0)
  else
    first_item <-! getitem0 result;
    t0 <-! truthy first_item;
    if negb t0 then Ok ([], 0)
    else
      match first_item with
      | VDict d => a <-! parse_dict b possible_keys d; Ok (finish a)
      | VList lines | VTuple lines => Ok (finish (parse_lines b acc_empty lines))
      | _ => Ok ([], 0)
      end.

(** The normaliser with the enclosing [except Exception] (line 225). *)
Definition normalize (b : Builtins) (result : value) : str * Q :=
  catch (parse_result b result) ([], 0).

Local Open Scope traced_scope.

(** [run_paddle_ocr(pil_image, lang)] *)
Definition run_paddle_ocr (e : Engine) (pil_image : option Image) (lang : str)
  : traced str (str * Q) :=
  match pil_image with
  | None => ret ([], 0)
  | Some img =>
      let key := instance_key lang in
      past <- history ;;
      emit key ;;
      ret (catch (result <-! ocr_call e past key img;
                  parse_result (builtins e) result)%exc
                 ([], 0))
  end.

(** [conf > best_conf] *)
Definition Qgtb (a b : Q) : bool := negb (Qle_bool a b).

(** The loop of [run_paddle_ocr_multi_lang] (lines 238-249). *)
Fixpoint multi_lang_loop (e : Engine) (pil_image : option Image)
         (langs : list str) (best : str * Q) : traced str (str * Q) :=
  match langs with
  | [] => ret best
  | lang :: rest =>
      r <- run_paddle_ocr e pil_image lang ;;
      let (text, conf) := r in
      multi_lang_loop e pil_image rest
        (if Qgtb conf (snd best) && str_truthy (strip text)
         then (text, conf) else best)
  end.

Definition default_langs : list str :=
  [lit "hindi"; lit "multilingual"; lit "en"].

(** [run_paddle_ocr_multi_lang(pil_image, langs=None)] *)
Definition run_paddle_ocr_multi_lang (e : Engine) (pil_image : option Image)
           (langs : option (list str)) : traced str (str * Q) :=
  multi_lang_loop e pil_image
    (match langs with
     | None => default_langs
     | Some l => l
     end)
    ([], 0).

End Paddle.

(* ===================================================================== *)
(** ** paddle_client.py: the result normaliser, confidences in binary64 *)
(* ===================================================================== *)

(** [Paddle] above keeps each confidence as the number it denotes and
    adds and divides without rounding.  Here the same lines are read
    with the arithmetic of the interpreter: [float(...)] yields a
    binary64 value, [sum] adds as the interpreter's version does, and
    the division rounds. *)
Module PaddleFloat.
Import Py PIL Binary64.
Local Open Scope exc_scope.

(** [float(v)].  A float object holds a binary64 value: [VFloat q] is
    the one nearest to [q], which is [q] itself when binary64 has it. *)
Definition py_float (b : Builtins) (v : value) : exc float :=
  match v with
  | VFloat q => Ok (round q)
  | VInt z => of_int z
  | VBool t => Ok (Finite (if t then 1 else 0))
  | VStr s => x <-! of_option (float_of_text b s); Ok (round x)
  | VObj _ _ f _ => x <-! of_option f; Ok (round x)
  | VNone | VList _ | VTuple _ | VDict _ => Raised
  end.

(** The two accumulators of the parser, [text_lines] and [confidences]. *)
Definition acc : Type := (list str * list float)%type.

Definition acc_empty : acc := ([], []).

Definition acc_push (a : acc) (text : str) (conf : float) : acc :=
  (fst a ++ [text], snd a ++ [conf]).

(** Keyed-mapping shape, one element of the list under the key
    (lines 158-164). *)
Definition dict_item (b : Builtins) (a : acc) (item : value) : exc acc :=
  match item with
  | VStr s => Ok (acc_push a s (Finite 1))
  | VList l | VTuple l =>
      if (2 <=? length l)%nat then
        let text := py_str b (nth 0 l VNone) in
        conf <-! py_float b (nth 1 l VNone);
        Ok (acc_push a text conf)
      else Ok a
  | _ => Ok a
  end.

Fixpoint dict_items (b : Builtins) (a : acc) (data : list value) : exc acc :=
  match data with
  | [] => Ok a
  | item :: rest => a' <-! dict_item b a item; dict_items b a' rest
  end.

(** Keyed-mapping shape: the first known key present decides
    (lines 152-168). *)
Fixpoint parse_dict (b : Builtins) (keys : list str) (d : list (str * value))
  : exc acc :=
  match keys with
  | [] => Ok acc_empty
  | possible_key :: keys' =>
      match dict_get possible_key d with
      | Some data =>
          match data with
          | VList items => dict_items b acc_empty items
          | VStr s => Ok (acc_push acc_empty s (Finite 1))
          | _ => Ok acc_empty
          end
      | None => parse_dict b keys' d
      end
  end.

(** List shape, the body of the [try] for one line (lines 178-202). *)
Definition parse_line (b : Builtins) (line : value)
  : exc (option (str * float)) :=
  t <-! truthy line;
  if negb t then Ok None
  else
    match line with
    | VList l | VTuple l =>
        if (2 <=? length l)%nat then
          match nth 1 l VNone with
          | VList td | VTuple td =>
              if (2 <=? length td)%nat then
                let text := py_str b (nth 0 td VNone) in
                conf <-! py_float b (nth 1 td VNone);
                Ok (if Paddle.accepted text then Some (text, conf) else None)
              else Ok None
          | VStr text =>
              Ok (if Paddle.accepted text then Some (text, Finite 1) else None)
          | _ => Ok None
          end
        else Ok None
    | _ => Ok None
    end.

(** List shape, the loop (lines 174-206): a line whose body raises is
    logged and skipped. *)
Fixpoint parse_lines (b : Builtins) (a : acc) (lines : list value) : acc :=
  match lines with
  | [] => a
  | line :: rest =>
      match catch (parse_line b line) None with
      | Some (text, conf) => parse_lines b (acc_push a text conf) rest
      | None => parse_lines b a rest
      end
  end.

(** Lines 212-223; line 217 is
    [sum(confidences) / len(confidences) if confidences else 0.0]. *)
Definition finish (alg : Summation) (a : acc) : exc (str * float) :=
  let (text_lines, confidences) := a in
  match text_lines with
  | [] => Ok ([], Finite 0)
  | _ :: _ =>
      let full_text := join newline text_lines in
      avg_conf <-! match confidences with
                   | [] => Ok (Finite 0)
                   | _ :: _ =>
                       n <-! of_int (Z.of_nat (length confidences));
                       truediv (py_sum alg confidences) n
                   end;
      Ok (full_text, avg_conf)
  end.

(** The normaliser: lines 132-223 of [run_paddle_ocr]. *)
Definition parse_result (alg : Summation) (b : Builtins) (result : value)
  : exc (str * float) :=
  t <-! truthy result;
  if negb t then Ok ([], Finite 0)
  else
    first_item <-! getitem0 result;
    t0 <-! truthy first_item;
    if negb t0 then Ok ([], Finite 0)
    else
      match first_item with
      | VDict d => a <-! parse_dict b Paddle.possible_keys d; finish alg a
      | VList lines | VTuple lines => finish alg (parse_lines b acc_empty lines)
      | _ => Ok ([], Finite 0)
      end.

(** The normaliser with the enclosing [except Exception] (line 225). *)
Definition normalize (alg : Summation) (b : Builtins) (result : value)
  : str * float :=
  catch (parse_result alg b result) ([], Finite 0).

Local Open Scope traced_scope.

(** [run_paddle_ocr(pil_image, lang)] *)
Definition run_paddle_ocr (alg : Summation) (e : Paddle.Engine)
           (pil_image : option Image) (lang : str)
  : traced str (str * float) :=
  match pil_image with
  | None => ret ([], Finite 0)
  | Some img =>
      let key := Paddle.instance_key lang in
      past <- history ;;
      emit key ;;
      ret (catch (result <-! Paddle.ocr_call e past key img;
                  parse_result alg (Paddle.builtins e) result)%exc
                 ([], Finite 0))
  end.

End PaddleFloat.

(* ===================================================================== *)
(** ** ocr_engine.py: the recognition dispatcher *)
(* ===================================================================== *)

Module OcrEngine.
Import Py PIL Paddle.
Local Open Scope traced_scope.

Definition lang_map : list (str * str) :=
  [ (lit "eng", lit "en");
    (lit "en", lit "en");
    (lit "hin", lit "hindi");
    (lit "hindi", lit "hindi");
    (lit "hi", lit "hindi");
    (lit "eng+hin", lit "multilingual");
    (lit "hin+eng", lit "multilingual");
    (lit "bilingual", lit "multilingual");
    (lit "multilingual", lit "multilingual") ].

(** [lang_map.get(key, default)] *)
Fixpoint map_get (key : str) (m : list (str * str)) (default : str) : str :=
  match m with
  | [] => default
  | (k, v) :: rest => if str_eqb key k then v else map_get key rest default
  end.

(** [paddle_lang], line 63. *)
Definition paddle_lang (langs : str) : str :=
  map_get (lower langs) lang_map (lit "multilingual").

(** [if not text or not text.strip()] *)
Definition is_blank (text : str) : bool :=
  negb (str_truthy text) || negb (str_truthy (strip text)).

(** [run_ocr(pil_image, langs)]; the remaining parameters are unused. *)
Definition run_ocr (e : Engine) (pil_image : option Image) (langs : str)
  : traced str (str * Q) :=
  match pil_image with
  | None => ret ([], 0)
  | Some _ =>
      let lang := paddle_lang langs in
      r <- run_paddle_ocr e pil_image lang ;;
      if is_blank (fst r) then
        if str_eqb lang (lit "multilingual")
        then run_paddle_ocr_multi_lang e pil_image None
        else ret r
      else ret r
  end.

(** [run_ocr_auto(pil_image)] *)
Definition run_ocr_auto (e : Engine) (pil_image : option Image)
  : traced str (str * Q) :=
  match pil_image with
  | None => ret ([], 0)
  | Some _ => run_paddle_ocr_multi_lang e pil_image None
  end.

End OcrEngine.

(* ===================================================================== *)
(** ** capture.py: the capture backend chain *)
(* ===================================================================== *)

Module Capture.
Import PIL Qt.
Local Open Scope Z_scope.
Local Open Scope traced_scope.

(** An MSS region or monitor dictionary
    [{"left", "top", "width", "height"}]. *)
Record Region : Type := {
  left : Z;
  top : Z;
  width : Z;
  height : Z
}.

(** An MSS screenshot: [size] and [rgb]. *)
Record ScreenShot : Type := {
  shot_size : Z * Z;
  shot_rgb : list Z
}.

(** What [sct.grab(region)] does: raise, return a false value, or return
    a screenshot. *)
Inductive Grab : Type :=
| GrabRaised
| GrabNothing
| GrabShot (s : ScreenShot).

Inductive Backend : Type := MSS | DXCAM | QT.

(** The observable steps of a capture: a backend function is entered, or
    one of the two grab calls modelled in detail is issued. *)
Inductive Event : Type :=
| Attempt (b : Backend)
| MssGrab (r : Region)
| QtGrabWindow (x y w h : Z).

(** The display system.
    - [screen_at x y]: [QGuiApplication.screenAt] with the index of the
      screen in [QGuiApplication.screens()];
    - [mss_installed]: whether [import mss] succeeds;
    - [mss_monitors]: [sct.monitors], entry 0 being the whole desktop
      ([None] when opening the session raises);
    - [mss_grab]: [sct.grab];
    - [dxcam_capture]: the outcome of [_try_dxcam_capture_debug], a
      backend that is opaque here ([None] for each of its failures);
    - [qt_grab_window]: [screen.grabWindow] and the conversion to a PIL
      image ([None] for a null pixmap or an exception). *)
Record Env : Type := {
  screen_at : Z -> Z -> option (nat * QScreen);
  mss_installed : bool;
  mss_monitors : option (list Region);
  mss_grab : list Event -> Region -> Grab;
  dxcam_capture : list Event -> Z -> Z -> Z -> Z -> nat -> Q -> option Image;
  qt_grab_window : list Event -> QScreen -> Z -> Z -> Z -> Z -> option Image
}.

(** [int(round(v))] of an integer. *)
Definition int_round (v : Z) : Z := v.

(** Lines 151-158: the region of the global grab. *)
Definition global_region (x y w h : Z) : Region :=
  let x_i := int_round x in
  let y_i := int_round y in
  let w_i := Z.max 1 (int_round w) in
  let h_i := Z.max 1 (int_round h) in
  {| left := x_i; top := y_i; width := w_i; height := h_i |}.

(** Lines 180-187: the first monitor after entry 0 that contains the
    point. *)
Fixpoint find_monitor (i : nat) (monitors : list Region) (x_i y_i : Z)
  : option nat :=
  match monitors with
  | [] => None
  | mon :: rest =>
      if Nat.eqb i 0 then find_monitor (S i) rest x_i y_i
      else if (left mon <=? x_i) && (x_i <? left mon + width mon)
              && (top mon <=? y_i) && (y_i <? top mon + height mon)
           then Some i
           else find_monitor (S i) rest x_i y_i
  end.

(** Lines 189-191. *)
Definition chosen_idx (monitors : list Region) (x_i y_i : Z) : nat :=
  match find_monitor 0 monitors x_i y_i with
  | Some i => i
  | None => if Nat.ltb 1 (length monitors) then 1%nat else 0%nat
  end.

(** Lines 197-205: the region of the per-monitor fallback. *)
Definition fallback_region (mon : Region) (x y w h : Z) : Region :=
  let x_i := int_round x in
  let y_i := int_round y in
  let w_i := Z.max 1 (int_round w) in
  let h_i := Z.max 1 (int_round h) in
  let rel_x := x_i - left mon in
  let rel_y := y_i - top mon in
  {| left := left mon + rel_x;
     top := top mon + rel_y;
     width := w_i;
     height := h_i |}.

(** [Image.frombytes("RGB", sct_img.size, sct_img.rgb)]; the pixel data
    of a screenshot always fits its size, so the conversion succeeds. *)
Definition image_of_shot (s : ScreenShot) : Image :=
  frombytes (shot_size s) (shot_rgb s).

(** Lines 175-231: the per-monitor fallback. *)
Definition mss_fallback (env : Env) (monitors : list Region) (x y w h : Z)
  : traced Event (option Image) :=
  match nth_error monitors (chosen_idx monitors (int_round x) (int_round y)) with
  | None => ret None
  | Some mon =>
      let capture_region := fallback_region mon x y w h in
      past <- history ;;
      emit (MssGrab capture_region) ;;
      match mss_grab env past capture_region with
      | GrabShot s => ret (Some (image_of_shot s))
      | GrabNothing => ret None
      | GrabRaised => ret None
      end
  end.

(** [_try_mss_capture_debug(x, y, w, h, monitor_idx, screen_geo, dpr)];
    the last three arguments are unused. *)
Definition _try_mss_capture_debug (env : Env) (x y w h : Z)
  : traced Event (option Image) :=
  emit (Attempt MSS) ;;
  if negb (mss_installed env) then ret None
  else
    match mss_monitors env with
    | None => ret None
    | Some monitors =>
        let region := global_region x y w h in
        past <- history ;;
        emit (MssGrab region) ;;
        match mss_grab env past region with
        | GrabShot sct_img =>
            if (fst (shot_size sct_img) =? width region)
               && (snd (shot_size sct_img) =? height region)
            then ret (Some (image_of_shot sct_img))
            else ret (Some (image_of_shot sct_img))
        | GrabNothing => mss_fallback env monitors x y w h
        | GrabRaised => mss_fallback env monitors x y w h
        end
    end.

(** [_try_dxcam_capture_debug(x, y, w, h, monitor_idx, dpr)] *)
Definition _try_dxcam_capture_debug (env : Env) (x y w h : Z)
           (monitor_idx : nat) (dpr : Q) : traced Event (option Image) :=
  emit (Attempt DXCAM) ;;
  past <- history ;;
  ret (dxcam_capture env past x y w h monitor_idx dpr).

(** [_try_qt_capture_debug(x, y, w, h, screen, screen_geo)] *)
Definition _try_qt_capture_debug (env : Env) (x y w h : Z)
           (screen : QScreen) (screen_geo : QRect)
  : traced Event (option Image) :=
  emit (Attempt QT) ;;
  let local_x := x - rect_x screen_geo in
  let local_y := y - rect_y screen_geo in
  let (local_x, w) :=
    if local_x <? 0 then (0, Z.max 0 (w - (- local_x))) else (local_x, w) in
  let (local_y, h) :=
    if local_y <? 0 then (0, Z.max 0 (h - (- local_y))) else (local_y, h) in
  let w := Z.min w (rect_width screen_geo - local_x) in
  let h := Z.min h (rect_height screen_geo - local_y) in
  if (w <=? 0) || (h <=? 0) then ret None
  else
    past <- history ;;
    emit (QtGrabWindow local_x local_y w h) ;;
    ret (qt_grab_window env past screen local_x local_y w h).

(** [capture_region(x, y, w, h)].  [test_point_detection] is the lookup
    [screen_at]; the geometry of a screen that was found is not null, so
    the test of line 97 is on the screen alone.  A PIL image is a true
    value, so [if img] asks whether the backend returned one. *)
Definition capture_region (env : Env) (x y w h : Z)
  : traced Event (option Image) :=
  if (w <=? 0) || (h <=? 0) then ret None
  else
    match screen_at env x y with
    | None => ret None
    | Some (idx, screen) =>
        let screen_geo := geometry screen in
        let dpr := devicePixelRatio screen in
        img <- _try_mss_capture_debug env x y w h ;;
        match img with
        | Some i => ret (Some i)
        | None =>
            img <- _try_dxcam_capture_debug env x y w h idx dpr ;;
            img <- _try_qt_capture_debug env x y w h screen screen_geo ;;
            match img with
            | Some i => ret (Some i)
            | None => ret None
            end
        end
    end.

(** The backends entered during a run, in order. *)
Fixpoint attempts (t : list Event) : list Backend :=
  match t with
  | [] => []
  | Attempt b :: rest => b :: attempts rest
  | _ :: rest => attempts rest
  end.

(** The regions handed to [sct.grab] during a run, in order. *)
Fixpoint mss_grabs (t : list Event) : list Region :=
  match t with
  | [] => []
  | MssGrab r :: rest => r :: mss_grabs rest
  | _ :: rest => mss_grabs rest
  end.

End Capture.

(* ===================================================================== *)
(** ** overlay.py and popup.py: from the drag selection to the capture *)
(* ===================================================================== *)

Module Overlay.
Import PIL Qt.
Local Open Scope Z_scope.
Local Open Scope traced_scope.

Inductive MouseButton : Type := LeftButton | RightButton | MiddleButton.

(** The fields of [SelectionOverlay] the mouse handlers use;
    [has_parent] is the truth value of [parent_window]. *)
Record State : Type := {
  start_global : QPoint;
  end_global : QPoint;
  dragging : bool;
  has_parent : bool
}.

(** A callback queued with [QTimer.singleShot]. *)
Inductive Callback : Type :=
| OnSelectionMade (rect : QRect).

(** What a handler asks of the toolkit. *)
Inductive Effect : Type :=
| Update
| Hide
| SingleShot (msec : Z) (cb : Callback).

Definition is_left (b : MouseButton) : bool :=
  match b with LeftButton => true | _ => false end.

Definition stop_dragging (st : State) : State :=
  {| start_global := start_global st;
     end_global := end_global st;
     dragging := false;
     has_parent := has_parent st |}.

(** [SelectionOverlay.mouseReleaseEvent] *)
Definition mouseReleaseEvent (st : State) (button : MouseButton)
  : State * list Effect :=
  if negb (dragging st) || negb (is_left button) then (st, [])
  else
    let st' := stop_dragging st in
    let rect := normalized (rect_of_points (start_global st) (end_global st)) in
    if (rect_width rect <? 10) || (rect_height rect <? 10)
    then (st', [Update])
    else (st', Hide :: (if has_parent st
                        then [SingleShot 120 (OnSelectionMade rect)]
                        else [])).

(** [on_selection_made(rect)] of the main window: the arguments it
    queues [_do_capture_and_ocr] with, or an exception when no screen
    holds the centre of the rectangle. *)
Definition on_selection_made (env : Capture.Env) (rect : QRect)
  : exc (Z * Z * Z * Z) :=
  let c := center rect in
  match Capture.screen_at env (px c) (py c) with
  | None => Raised
  | Some (_, screen) =>
      let dpr := devicePixelRatio screen in
      Ok (py_int (inject_Z (rect_x rect) * dpr),
          py_int (inject_Z (rect_y rect) * dpr),
          py_int (inject_Z (rect_width rect) * dpr),
          py_int (inject_Z (rect_height rect) * dpr))
  end.

(** A queued callback fires: the selection reaches
    [_do_capture_and_ocr], whose first step is [capture_region]. *)
Definition fire (env : Capture.Env) (cb : Callback)
  : traced Capture.Event (option Image) :=
  match cb with
  | OnSelectionMade rect =>
      match on_selection_made env rect with
      | Ok (x, y, w, h) => Capture.capture_region env x y w h
      | Raised => ret None
      end
  end.

(** The event loop delivers the timers a handler queued. *)
Fixpoint run_timers (env : Capture.Env) (effects : list Effect)
  : traced Capture.Event unit :=
  match effects with
  | [] => ret tt
  | SingleShot _ cb :: rest => fire env cb ;; run_timers env rest
  | _ :: rest => run_timers env rest
  end.

(** Everything the capture chain does as a consequence of one mouse
    release. *)
Definition release_trace (env : Capture.Env) (st : State)
           (button : MouseButton) : list Capture.Event :=
  snd (run (run_timers env (snd (mouseReleaseEvent st button)))).

End Overlay.

(* ===================================================================== *)
(** ** Vocabulary of the specification *)
(* ===================================================================== *)

Module Spec.
Import Py PIL Paddle.

(** A text is whitespace-only when every code point is a space; the empty
    text is the degenerate case. *)
Definition whitespace_only (text : str) : bool := forallb is_space text.

(** One line of a list-shaped result, [(bbox, (text, score))]. *)
Definition entry : Type := (value * str * Q)%type.

Definition entry_text (e : entry) : str := snd (fst e).
Definition entry_score (e : entry) : Q := snd e.

Definition to_line (e : entry) : value :=
  VList [fst (fst e); VTuple [VStr (entry_text e); VFloat (entry_score e)]].

(** The lines that are not skipped. *)
Definition kept (entries : list entry) : list entry :=
  filter (fun e => negb (whitespace_only (entry_text e))) entries.

(** The arithmetic mean of the per-line confidences, 0 when no line was
    accepted. *)
Definition mean_confidence (scores : list Q) : Q :=
  match scores with
  | [] => 0
  | _ :: _ => fold_right Qplus 0 scores / inject_Z (Z.of_nat (length scores))
  end.


(** The mean of the per-line confidences as float arithmetic gives it:
    the floats summed the way [sum] adds them, the sum divided by their
    number; 0.0 when no line was accepted. *)
Definition float_mean (alg : Binary64.Summation) (scores : list Binary64.float)
  : Binary64.float :=
  match scores with
  | [] => Binary64.Finite 0
  | _ :: _ =>
      Binary64.div (Binary64.py_sum alg scores)
        (Binary64.Finite (inject_Z (Z.of_nat (length scores))))
  end.

(** No operation of the float mean rounds: the scores, the sum of the
    first [k] of them for every [k], and their mean are binary64
    values. *)
Definition mean_is_exact (scores : list Q) : Prop :=
  Forall Binary64.is_float scores
  /\ (forall k, Binary64.is_float (fold_right Qplus 0 (firstn k scores)))
  /\ Binary64.is_float (mean_confidence scores).

(** The outcomes of the attempts of the multi-language fallback, one per
    profile, in order. *)
Fixpoint attempt_results (e : Engine) (pil_image : option Image)
         (langs : list str) : traced str (list (str * Q)) :=
  match langs with
  | [] => ret []
  | lang :: rest =>
      bind (run_paddle_ocr e pil_image lang) (fun r =>
      bind (attempt_results e pil_image rest) (fun rs =>
      ret (r :: rs)))
  end.

(** One round of the fallback loop on an attempt's outcome. *)
Definition better (best r : str * Q) : str * Q :=
  if Qgtb (snd r) (snd best) && str_truthy (strip (fst r)) then r else best.

(** [res] is a member of [pool] of highest confidence. *)
Definition highest_confidence (pool : list (str * Q)) (res : str * Q) : Prop :=
  In res pool /\ forall r, In r pool -> snd r <= snd res.

(** The attempts whose text is not empty after stripping. *)
Definition nonblank (rs : list (str * Q)) : list (str * Q) :=
  filter (fun r => negb (whitespace_only (fst r))) rs.

(** The attempts that can become the best one: text not empty after
    stripping and confidence above the initial 0. *)
Definition candidates (rs : list (str * Q)) : list (str * Q) :=
  filter (fun r => negb (whitespace_only (fst r)) && Qgtb (snd r) 0) rs.

(** The fallback as the specification words it: the result is a
    highest-confidence member of the non-blank attempts, and the empty
    outcome when there is none. *)
Definition best_nonblank_outcome (rs : list (str * Q)) (res : str * Q) : Prop :=
  match nonblank rs with
  | [] => res = ([], 0)
  | _ :: _ => highest_confidence (nonblank rs) res
  end.

(** The empty-primary retry as the specification words it: after the
    primary attempt the fallback profiles are tried in order. *)
Definition retries_with_fallback (e : Engine) (img : Image) (langs : str) : Prop :=
  snd (run (OcrEngine.run_ocr e (Some img) langs))
  = instance_key (OcrEngine.paddle_lang langs) :: map instance_key default_langs.

Definition primary_is_blank (e : Engine) (img : Image) (langs : str) : Prop :=
  OcrEngine.is_blank
    (fst (fst (run (run_paddle_ocr e (Some img) (OcrEngine.paddle_lang langs)))))
  = true.

(** The invariant of a recognition outcome. *)
Definition outcome_invariant (r : str * Q) : Prop :=
  fst r = [] -> snd r == 0.

Import Qt Capture.
Local Open Scope traced_scope.

(** The backend chain as the specification words it: each backend in
    priority order, the first success is the result and ends the chain. *)
Definition first_success_chain (env : Env) (x y w h : Z) (idx : nat)
           (screen : QScreen) : traced Event (option Image) :=
  img <- _try_mss_capture_debug env x y w h ;;
  match img with
  | Some i => ret (Some i)
  | None =>
      img <- _try_dxcam_capture_debug env x y w h idx (devicePixelRatio screen) ;;
      match img with
      | Some i => ret (Some i)
      | None => _try_qt_capture_debug env x y w h screen (geometry screen)
      end
  end.

End Spec.

(* ===================================================================== *)
(** ** Concrete inputs *)
(* ===================================================================== *)

Module Samples.
Import Py PIL Qt Paddle.

Definition plain_builtins : Builtins :=
  {| str_of := fun _ => lit "?"; float_of_text := fun _ => None |}.

Definition tiny_image : Image := frombytes (2, 1)%Z [0; 0; 0; 255; 255; 255]%Z.

(** An engine that answers every call with the same raw result. *)
Definition constant_engine (result : value) : Engine :=
  {| builtins := plain_builtins; ocr_call := fun _ _ _ => Ok result |}.

(** [[{"text": ["a", "b"]}]] *)
Definition keyed_a_b : value :=
  VDict [(lit "text", VList [VStr (lit "a"); VStr (lit "b")])].

(** [[{"text": [""]}]] *)
Definition keyed_empty_string : value :=
  VDict [(lit "text", VList [VStr []])].

(** Three lines, the middle one whitespace-only. *)
Definition three_lines : list Spec.entry :=
  [ (VNone, lit "Hello", 9 # 10);
    (VNone, lit "   ", 1 # 2);
    (VNone, lit "World", 7 # 10) ].

(** The floats written [0.1] and [0.2]. *)
Definition tenth : Q := 3602879701896397 # 36028797018963968.




(** One line with text and score 0. *)
Definition zero_score_result : value :=
  VList [VList [Spec.to_line (VNone, lit "abc", 0)]].

(** No text found. *)
Definition empty_result : value := VList [VList []].

(** An engine whose answer depends on the profile: a weak reading for
    Hindi, a good one for the multilingual profile, and for English a
    keyed mapping holding two spaces. *)
Definition per_profile_engine : Engine :=
  {| builtins := plain_builtins;
     ocr_call := fun _ key _ =>
       if str_eqb key (lit "hindi")
       then Ok (VList [VList [Spec.to_line (VNone, lit "x", 1 # 2)]])
       else if str_eqb key (lit "multilingual")
       then Ok (VList [VList [Spec.to_line (VNone, lit "y", 9 # 10)]])
       else Ok (VList [VDict [(lit "text", VList [VStr (lit "  ")])]]) |}.

Import Capture.
Local Open Scope Z_scope.

Definition primary_screen : QScreen :=
  {| geometry := rect_of_size 0 0 1920 1080; devicePixelRatio := 1 |}.

Definition desktop : list Region :=
  [ {| left := 0; top := 0; width := 1920; height := 1080 |};
    {| left := 0; top := 0; width := 1920; height := 1080 |} ].

Definition shot (w h : Z) : ScreenShot :=
  {| shot_size := (w, h); shot_rgb := [] |}.

Definition gpu_frame : Image := frombytes (180, 90) [].

(** MSS is not installed, the GPU backend delivers a frame, the toolkit
    grab yields a null pixmap. *)
Definition gpu_only_env : Env :=
  {| screen_at := fun _ _ => Some (0%nat, primary_screen);
     mss_installed := false;
     mss_monitors := None;
     mss_grab := fun _ _ => GrabRaised;
     dxcam_capture := fun _ _ _ _ _ _ _ => Some gpu_frame;
     qt_grab_window := fun _ _ _ _ _ _ => None |}.

(** A scaled display: MSS returns twice the requested size. *)
Definition scaled_env : Env :=
  {| screen_at := fun _ _ => Some (0%nat, primary_screen);
     mss_installed := true;
     mss_monitors := Some desktop;
     mss_grab := fun _ r => GrabShot (shot (2 * width r) (2 * height r));
     dxcam_capture := fun _ _ _ _ _ _ _ => None;
     qt_grab_window := fun _ _ _ _ _ _ => None |}.

(** The first grab of a run raises, the second one succeeds. *)
Definition flaky_env : Env :=
  {| screen_at := fun _ _ => Some (0%nat, primary_screen);
     mss_installed := true;
     mss_monitors := Some desktop;
     mss_grab := fun past r =>
                   match mss_grabs past with
                   | [] => GrabRaised
                   | _ :: _ => GrabShot (shot (width r) (height r))
                   end;
     dxcam_capture := fun _ _ _ _ _ _ _ => None;
     qt_grab_window := fun _ _ _ _ _ _ => None |}.

(** A drag of 6 by 201 units. *)
Definition thin_drag : Overlay.State :=
  {| Overlay.start_global := {| px := 100; py := 100 |};
     Overlay.end_global := {| px := 105; py := 300 |};
     Overlay.dragging := true;
     Overlay.has_parent := true |}.

End Samples.

(** Pairs of floats on which the arithmetic of [Binary64] is compared
    with that of the machine: confidences, ties, the subnormal range,
    overflow. *)
Module MachineSamples.
Import PrimFloat.

Definition machine_samples : list (PrimFloat.float * PrimFloat.float) :=
  [
    (0x1.999999999999ap-4, 0x1.999999999999ap-3);
    (0x1.999999999999ap-4, 0x1.999999999999ap-4);
    (0x1.3333333333334p-2, 0x1.999999999999ap-4);
    (0x1.ccccccccccccdp-1, 0x1.6666666666666p-1);
    (0x1.e666666666666p-1, 0x1.b333333333333p-1);
    (0x1.0000000000000p+0, 0x1.8000000000000p+1);
    (0x1.0000000000000p+1, 0x1.8000000000000p+1);
    (0x1.1c37937e08000p+53, 0x1.0000000000000p+0);
    (0x1.0000000000000p+53, 0x1.0000000000000p+0);
    (0x1.0000000000001p+53, 0x1.8000000000000p+1);
    (0x0.0000000000001p-1022, 0x0.0000000000001p-1022);
    (0x0.0000000000001p-1022, 0x1.0000000000000p+1);
    (0x0.0000000000003p-1022, 0x1.0000000000000p+1);
    (0x1.fffffffffffffp+1023, 0x1.fffffffffffffp+1023);
    (0x1.fffffffffffffp+1023, 0x1.0000000000000p-1);
    (-0x1.999999999999ap-4, 0x1.3333333333333p-2);
    (0x1.0000000000000p-1022, 0x1.8000000000000p+1);
    (0x0.012688b70e62bp-1022, 0x1.c000000000000p+2);
    (0x1.d6f3454800000p+26, 0x1.0624dd2f1a9fcp-10);
    (-0x1.e000000000000p+2, 0x1.2000000000000p+1);
    (0x1.fae147ae147aep-1, 0x1.f5c28f5c28f5cp-1);
    (0x1.3333333333333p-1, 0x1.6666666666666p-1);
    (0x1.0000000000000p+0, 0x1.4000000000000p+3);
    (0x1.1666666666666p+2, 0x1.9000000000000p+6)
  ]%float.

End MachineSamples.

(* ===================================================================== *)
(** ** capture.py: auxiliary notions for the backends *)
(* ===================================================================== *)

Module CaptureAux.
Import PIL Qt Capture.
Local Open Scope Z_scope.

(** The monitor test of lines 184-185. *)
Definition covers (mon : Region) (x_i y_i : Z) : bool :=
  (left mon <=? x_i) && (x_i <? left mon + width mon)
  && (top mon <=? y_i) && (y_i <? top mon + height mon).

(** The same display system with another GPU backend. *)
Definition with_dxcam (env : Env)
           (f : list Event -> Z -> Z -> Z -> Z -> nat -> Q -> option Image) : Env :=
  {| screen_at := screen_at env;
     mss_installed := mss_installed env;
     mss_monitors := mss_monitors env;
     mss_grab := mss_grab env;
     dxcam_capture := f;
     qt_grab_window := qt_grab_window env |}.

(** The part of the request [(x, y, w, h)] that lies on the screen, as
    left, top, right and bottom edge in coordinates local to the screen. *)
Definition visible_part (x y w h : Z) (screen_geo : QRect) : Z * Z * Z * Z :=
  (Z.max 0 (x - rect_x screen_geo),
   Z.max 0 (y - rect_y screen_geo),
   Z.min (x - rect_x screen_geo + w) (rect_width screen_geo),
   Z.min (y - rect_y screen_geo + h) (rect_height screen_geo)).

End CaptureAux.

(* ===================================================================== *)
(** ** paddle_client.py: the instance cache of the client *)
(* ===================================================================== *)

Module Client.
Import Py Paddle.

(** A [PaddleOCR] object: the [lang] it was constructed with and its
    identity, the number of constructor calls made before its own. *)
Record Instance : Type := {
  model : str;
  ident : nat
}.

(** The class state: the dictionary [_lang_instances] in insertion order,
    and the [lang] arguments of the constructor calls made so far. *)
Record State : Type := {
  lang_instances : list (str * Instance);
  constructor_calls : list str
}.

Definition initial : State :=
  {| lang_instances := []; constructor_calls := [] |}.

(** [lang in cls._lang_instances] and [cls._lang_instances[lang]] *)
Fixpoint cache_get (key : str) (c : list (str * Instance)) : option Instance :=
  match c with
  | [] => None
  | (k, i) :: rest => if str_eqb key k then Some i else cache_get key rest
  end.

(** Lines 55-64: the model behind a cache key. *)
Definition model_for (key : str) : str :=
  if str_eqb key (lit "multilingual") then lit "hi"
  else if str_eqb key (lit "hindi") then lit "hi"
  else lit "en".

(** [PaddleOCRClient.get_instance(lang)].  [construct past m] tells
    whether the constructor call [PaddleOCR(lang=m, ...)] succeeds after
    the calls [past]; when it raises, the exception is logged and raised
    again. *)
Definition get_instance (construct : list str -> str -> bool)
           (st : State) (lang : str) : exc Instance * State :=
  let key := instance_key lang in
  match cache_get key (lang_instances st) with
  | Some ocr => (Ok ocr, st)
  | None =>
      let m := model_for key in
      if construct (constructor_calls st) m then
        let ocr := {| model := m; ident := length (constructor_calls st) |} in
        (Ok ocr,
         {| lang_instances := lang_instances st ++ [(key, ocr)];
            constructor_calls := constructor_calls st ++ [m] |})
      else
        (Raised,
         {| lang_instances := lang_instances st;
            constructor_calls := constructor_calls st ++ [m] |})
  end.

(** A series of [get_instance] calls, whatever their outcomes. *)
Fixpoint get_instances (construct : list str -> str -> bool)
         (st : State) (langs : list str) : State :=
  match langs with
  | [] => st
  | lang :: rest =>
      get_instances construct (snd (get_instance construct st lang)) rest
  end.

End Client.

(* ===================================================================== *)
(** ** ocr_translate.py: text extraction *)
(* ===================================================================== *)

Module Translate.
Import Py PIL Paddle.
Local Open Scope traced_scope.

(** [extract_text(image, lang)]; [run_ocr_imported] tells whether the
    import of [run_ocr] at the top of the module succeeded. *)
Definition extract_text (run_ocr_imported : bool) (e : Engine)
           (image : option Image) (lang : str) : traced str str :=
  match image with
  | None => ret []
  | Some _ =>
      if negb run_ocr_imported then ret []
      else
        r <- OcrEngine.run_ocr e image lang ;;
        if negb (str_truthy (fst r)) then ret []
        else ret (strip (fst r))
  end.

End Translate.

(* ===================================================================== *)
(** ** overlay.py: the other event handlers and whole gestures *)
(* ===================================================================== *)

Module OverlayEvents.
Import Qt Overlay.
Local Open Scope Z_scope.

(** [SelectionOverlay.mousePressEvent]; [pos] is
    [event.globalPosition().toPoint()]. *)
Definition mousePressEvent (st : State) (button : MouseButton) (pos : QPoint)
  : State * list Effect :=
  if is_left button
  then ({| start_global := pos;
           end_global := pos;
           dragging := true;
           has_parent := has_parent st |}, [Update])
  else (st, []).

(** [SelectionOverlay.mouseMoveEvent] *)
Definition mouseMoveEvent (st : State) (pos : QPoint) : State * list Effect :=
  if dragging st
  then ({| start_global := start_global st;
           end_global := pos;
           dragging := true;
           has_parent := has_parent st |}, [Update])
  else (st, []).

Inductive Key : Type := Key_Escape | Key_Other.

(** What [keyPressEvent] asks of the toolkit. *)
Inductive KeyEffect : Type :=
| SetInvisible
| Close
| RestoreParent
| AcceptEvent
| SuperKeyPress.

(** [SelectionOverlay.keyPressEvent] *)
Definition keyPressEvent (st : State) (key : Key) : State * list KeyEffect :=
  match key with
  | Key_Escape =>
      (stop_dragging st,
       [SetInvisible; Close]
       ++ (if has_parent st then [RestoreParent] else [])
       ++ [AcceptEvent])
  | Key_Other => (st, [SuperKeyPress])
  end.

(** The events the overlay receives. *)
Inductive Input : Type :=
| Press (button : MouseButton) (pos : QPoint)
| Move (pos : QPoint)
| Release (button : MouseButton)
| KeyPress (key : Key).

(** One event handled: the new state and what the mouse handlers asked
    for. *)
Definition handle (st : State) (i : Input) : State * list Effect :=
  match i with
  | Press button pos => mousePressEvent st button pos
  | Move pos => mouseMoveEvent st pos
  | Release button => mouseReleaseEvent st button
  | KeyPress key => (fst (keyPressEvent st key), [])
  end.

(** A series of events handled in order. *)
Fixpoint play (st : State) (inputs : list Input) : State * list Effect :=
  match inputs with
  | [] => (st, [])
  | i :: rest =>
      let (st', effects) := handle st i in
      let (st'', effects') := play st' rest in
      (st'', effects ++ effects')
  end.

(** The rectangles queued for [on_selection_made]. *)
Fixpoint selections (effects : list Effect) : list QRect :=
  match effects with
  | [] => []
  | SingleShot _ (OnSelectionMade rect) :: rest => rect :: selections rest
  | _ :: rest => selections rest
  end.

(** The left-button presses among the events. *)
Fixpoint left_presses (inputs : list Input) : nat :=
  match inputs with
  | [] => 0%nat
  | Press LeftButton _ :: rest => S (left_presses rest)
  | _ :: rest => left_presses rest
  end.

End OverlayEvents.

(* ===================================================================== *)
(** ** Further concrete inputs *)
(* ===================================================================== *)

Module Inputs.
Import Py PIL Qt Capture.
Local Open Scope Z_scope.

(** One screen of 1920 by 1080 logical units with device pixel ratio 2;
    a point is on it when it lies inside its logical geometry. *)
Definition hidpi_screen : QScreen :=
  {| geometry := rect_of_size 0 0 1920 1080; devicePixelRatio := 2 |}.

Definition hidpi_env : Env :=
  {| screen_at := fun x y =>
                    if (0 <=? x) && (x <? 1920) && (0 <=? y) && (y <? 1080)
                    then Some (0%nat, hidpi_screen) else None;
     mss_installed := true;
     mss_monitors := Some Samples.desktop;
     mss_grab := fun _ r => GrabShot (Samples.shot (width r) (height r));
     dxcam_capture := fun _ _ _ _ _ _ _ => None;
     qt_grab_window := fun _ _ _ _ _ _ => None |}.

(** A selection of 100 by 100 units in the lower right of that screen. *)
Definition lower_right_rect : QRect := rect_of_size 1500 800 100 100.

(** A drag of 201 by 201 units, with the parent window present. *)
Definition wide_drag : Overlay.State :=
  {| Overlay.start_global := {| px := 100; py := 100 |};
     Overlay.end_global := {| px := 300; py := 300 |};
     Overlay.dragging := true;
     Overlay.has_parent := true |}.

(** The overlay before any event. *)
Definition idle : Overlay.State :=
  {| Overlay.start_global := {| px := 0; py := 0 |};
     Overlay.end_global := {| px := 0; py := 0 |};
     Overlay.dragging := false;
     Overlay.has_parent := true |}.

End Inputs.

(* ===================================================================== *)
(** ** optimized_worker.py: one recognition job *)
(* ===================================================================== *)

Module Worker.
Import Py PIL Paddle.
Local Open Scope traced_scope.

(** [image_path]: a path, an image object (anything with a [mode]), or
    something else. *)
Inductive Source : Type :=
| FromPath (path : str)
| FromImage (img : Image)
| Unusable.

(** The text of a [failed] signal: the fixed message of a failed load, or
    [str(e)] of the exception caught, which is left open. *)
Inductive Message : Type := LoadFailed | ExceptionText.

Inductive Signal : Type :=
| Progress (n : Z)
| Finished (text translated : str)
| Failed (m : Message).

(** What a job does to the outside: a signal is emitted, the recogniser
    is called, a temporary file is created, [os.remove] is called on a
    file, the translator is called.  [Remove f] records the call
    [os.remove(f)], not its success: the source passes over a removal
    that raises (lines 180-183), so nothing in a run depends on it and
    the file can still be there afterwards. *)
Inductive Event : Type :=
| Emit (s : Signal)
| OcrCall (key : str)
| TempFile (path : str)
| Remove (path : str)
| Translation (text dest : str).

(** The surroundings of a job.
    - [interruption]: [self.thread().isInterruptionRequested() or
      self.stop_requested], as read at the moment of a check;
    - [open_image], [convert_rgb]: [Image.open] and the conversion of
      [_load_image_fast] (the image itself when its mode is RGB or L);
    - [path_exists]: [os.path.exists];
    - [new_temp]: the name of a new [NamedTemporaryFile];
    - [save_jpeg]: [self.image.save(tmp_file, ...)] and [tmp.close()];
    - [engine]: the recogniser behind [run_ocr];
    - the three clean-up functions of [postprocess.py], taken as given
      functions that may raise;
    - [has_googletrans], [google_translate]: whether the translator could
      be imported, and [GoogleTranslator().translate(text, dest).text]. *)
Record Host : Type := {
  interruption : list Event -> bool;
  open_image : str -> exc Image;
  convert_rgb : Image -> exc Image;
  path_exists : list Event -> str -> bool;
  new_temp : list Event -> exc str;
  save_jpeg : list Event -> Image -> str -> exc unit;
  engine : Engine;
  clean_table_mode_output : str -> exc str;
  process_ocr_text_with_math : str -> exc str;
  clean_text_mode_output : str -> exc str;
  has_googletrans : bool;
  google_translate : list Event -> str -> str -> exc str
}.

(** The fields of the worker that [run] reads. *)
Record Job : Type := {
  image_path : Source;
  langs : str;
  layout_type : str;
  do_translate : bool;
  dest_lang : str
}.

(** [_load_image_fast]: the image, or [None] for the result [False]. *)
Definition _load_image_fast (host : Host) (job : Job) : option Image :=
  match (img <-! match image_path job with
                 | FromPath path => open_image host path
                 | FromImage img => Ok img
                 | Unusable => Raised
                 end;
         convert_rgb host img)%exc with
  | Ok img => Some img
  | Raised => None
  end.

(** The recogniser calls recorded so far. *)
Fixpoint ocr_keys (t : list Event) : list str :=
  match t with
  | [] => []
  | OcrCall key :: rest => key :: ocr_keys rest
  | _ :: rest => ocr_keys rest
  end.

(** A recognition run inside a job: the recogniser sees the calls made
    so far, and its new calls are recorded. *)
Definition with_recogniser {A} (c : traced str A) : traced Event A :=
  fun t =>
    let (a, keys) := c (ocr_keys t) in
    (a, t ++ map OcrCall (skipn (length (ocr_keys t)) keys)).

(** Lines 102-108: the file given is used when it exists, otherwise the
    image is saved to a temporary file.  The result is the outcome and
    the value of [tmp_file] at that moment. *)
Definition prepare_tmp (host : Host) (job : Job) (image : Image)
  : traced Event (exc unit * option str) :=
  let create : traced Event (exc unit * option str) :=
    past <- history ;;
    match new_temp host past with
    | Raised => ret (Raised, None)
    | Ok name =>
        emit (TempFile name) ;;
        past <- history ;;
        match save_jpeg host past image name with
        | Raised => ret (Raised, Some name)
        | Ok _ => ret (Ok tt, Some name)
        end
    end in
  match image_path job with
  | FromPath path =>
      past <- history ;;
      if path_exists host past path then ret (Ok tt, Some path) else create
  | _ => create
  end.

(** [tmp_file != self.image_path] *)
Definition differs_from_image_path (job : Job) (tmp_file : str) : bool :=
  match image_path job with
  | FromPath path => negb (str_eqb tmp_file path)
  | _ => true
  end.

(** The [finally] clause, lines 178-183; a failing [os.remove] is
    passed over. *)
Definition cleanup (host : Host) (job : Job) (tmp_file : option str)
  : traced Event unit :=
  match tmp_file with
  | None => ret tt
  | Some f =>
      if str_truthy f && differs_from_image_path job f then
        past <- history ;;
        if path_exists host past f then emit (Remove f) else ret tt
      else ret tt
  end.

(** Lines 141-148: the clean-up of the text by layout type; an exception
    leaves the text as it was when it was raised. *)
Definition postprocess (host : Host) (job : Job) (text : str) : str :=
  if str_eqb (layout_type job) (lit "table")
  then catch (clean_table_mode_output host text) text
  else match process_ocr_text_with_math host text with
       | Raised => text
       | Ok with_math => catch (clean_text_mode_output host with_math) with_math
       end.

(** [translate_text(text, dest_lang)] of [ocr_translate.py]; the
    translation mode it reads is only logged. *)
Definition translate_text (host : Host) (text dest : str) : traced Event str :=
  if negb (str_truthy text) then ret []
  else if negb (has_googletrans host) then ret []
  else
    past <- history ;;
    emit (Translation text dest) ;;
    ret (catch (google_translate host past text dest) []).

Definition progress (n : Z) : traced Event unit := emit (Emit (Progress n)).

(** Lines 152-158: the translation, when it is asked for and there is
    text. *)
Definition translation_stage (host : Host) (job : Job) (text : str)
  : traced Event str :=
  if do_translate job && str_truthy (dest_lang job) && str_truthy (strip text)
  then progress 90 ;; translate_text host text (dest_lang job)
  else ret [].

(** [OptimizedOCRWorker.run] *)
Definition run (host : Host) (job : Job) : traced Event unit :=
  past <- history ;;
  if interruption host past then ret tt
  else
    progress 5 ;;
    match _load_image_fast host job with
    | None => emit (Emit (Failed LoadFailed))
    | Some image =>
        past <- history ;;
        if interruption host past then ret tt
        else
          progress 10 ;;
          tmp <- prepare_tmp host job image ;;
          match fst tmp with
          | Raised =>
              emit (Emit (Failed ExceptionText)) ;;
              cleanup host job (snd tmp)
          | Ok _ =>
              progress 15 ;;
              progress 20 ;;
              r <- with_recogniser
                     (OcrEngine.run_ocr (engine host) (Some image) (langs job)) ;;
              past <- history ;;
              if interruption host past then cleanup host job (snd tmp)
              else
                progress 70 ;;
                let text := if OcrEngine.is_blank (fst r) then [] else fst r in
                progress 75 ;;
                let text := postprocess host job text in
                progress 85 ;;
                translated <- translation_stage host job text ;;
                progress 95 ;;
                progress 100 ;;
                past <- history ;;
                if interruption host past then cleanup host job (snd tmp)
                else
                  emit (Emit (Finished text translated)) ;;
                  cleanup host job (snd tmp)
          end
    end.

(** The values of the progress signals of a trace, in order. *)
Fixpoint progress_values (t : list Event) : list Z :=
  match t with
  | [] => []
  | Emit (Progress n) :: rest => n :: progress_values rest
  | _ :: rest => progress_values rest
  end.

(** The [finished] and [failed] signals of a trace, in order. *)
Fixpoint terminal_signals (t : list Event) : list Signal :=
  match t with
  | [] => []
  | Emit (Finished text translated) :: rest =>
      Finished text translated :: terminal_signals rest
  | Emit (Failed m) :: rest => Failed m :: terminal_signals rest
  | _ :: rest => terminal_signals rest
  end.

(** The files [os.remove] was called on, the temporary files created
    and the translator calls of a trace. *)
Fixpoint remove_calls (t : list Event) : list str :=
  match t with
  | [] => []
  | Remove f :: rest => f :: remove_calls rest
  | _ :: rest => remove_calls rest
  end.

Fixpoint temp_files (t : list Event) : list str :=
  match t with
  | [] => []
  | TempFile f :: rest => f :: temp_files rest
  | _ :: rest => temp_files rest
  end.

Fixpoint translations (t : list Event) : list (str * str) :=
  match t with
  | [] => []
  | Translation text dest :: rest => (text, dest) :: translations rest
  | _ :: rest => translations rest
  end.

End Worker.

Module Jobs.
Import Py PIL Paddle Worker.

(** A host on which everything works and nobody interrupts: the
    recogniser reads "y" under the multilingual profile, the clean-up
    functions return their argument, the translator answers "ja". *)
Definition calm_host : Host :=
  {| interruption := fun _ => false;
     open_image := fun _ => Ok Samples.tiny_image;
     convert_rgb := fun img => Ok img;
     path_exists := fun _ _ => true;
     new_temp := fun _ => Ok (lit "tmp0.jpg");
     save_jpeg := fun _ _ _ => Ok tt;
     engine := Samples.per_profile_engine;
     clean_table_mode_output := fun t => Ok t;
     process_ocr_text_with_math := fun t => Ok t;
     clean_text_mode_output := fun t => Ok t;
     has_googletrans := true;
     google_translate := fun _ _ _ => Ok (lit "ja") |}.

(** The calm host with an interruption requested while the recogniser
    runs: every check after progress 20 finds it. *)
Definition stop_during_ocr_host : Host :=
  {| interruption := fun past =>
                       existsb (fun ev => match ev with
                                          | Emit (Progress n) => Z.eqb n 20
                                          | _ => false
                                          end) past;
     open_image := open_image calm_host;
     convert_rgb := convert_rgb calm_host;
     path_exists := path_exists calm_host;
     new_temp := new_temp calm_host;
     save_jpeg := save_jpeg calm_host;
     engine := engine calm_host;
     clean_table_mode_output := clean_table_mode_output calm_host;
     process_ocr_text_with_math := process_ocr_text_with_math calm_host;
     clean_text_mode_output := clean_text_mode_output calm_host;
     has_googletrans := has_googletrans calm_host;
     google_translate := google_translate calm_host |}.

(** A captured image handed to the worker, to be read and translated. *)
Definition capture_job : Job :=
  {| image_path := FromImage Samples.tiny_image;
     langs := lit "eng+hin";
     layout_type := lit "text";
     do_translate := true;
     dest_lang := lit "en" |}.

End Jobs.

(* ===================================================================== *)
(** ** optimized_worker.py: the ways a job can end *)
(* ===================================================================== *)

Module WorkerTrace.
Import Py Worker.

(** What the choice of [tmp_file] adds to the trace: nothing, when the
    file given is used or no temporary file could be made, or the new
    temporary file. *)
Definition tmp_step (job : Job) (new : list Event) (tmp_file : option str)
  : Prop :=
  (new = []
   /\ (tmp_file = None
       \/ exists path, tmp_file = Some path /\ image_path job = FromPath path))
  \/ exists name, new = [TempFile name] /\ tmp_file = Some name.

(** What the [finally] clause adds after the events [before]: the removal
    of [tmp_file], or nothing when there is nothing to remove. *)
Definition cleanup_step (host : Host) (job : Job) (tmp_file : option str)
           (before new : list Event) : Prop :=
  (new = []
   /\ forall f, tmp_file = Some f -> str_truthy f = true ->
                differs_from_image_path job f = true ->
                path_exists host before f = false)
  \/ exists f, new = [Remove f] /\ tmp_file = Some f
               /\ differs_from_image_path job f = true.

(** What the translation stage adds for the text [text]. *)
Definition translate_step (job : Job) (text : str) (new : list Event) : Prop :=
  new = []
  \/ (do_translate job = true /\ str_truthy (strip text) = true
      /\ (new = [Emit (Progress 90)]
          \/ new = [Emit (Progress 90); Translation text (dest_lang job)])).

Definition before_ocr (new : list Event) : list Event :=
  [Emit (Progress 5); Emit (Progress 10)] ++ new.

Definition after_ocr (new : list Event) (keys : list str) : list Event :=
  before_ocr new
  ++ [Emit (Progress 15); Emit (Progress 20)] ++ map OcrCall keys.

Definition after_translation (new : list Event) (keys : list str)
           (tr : list Event) : list Event :=
  after_ocr new keys
  ++ [Emit (Progress 70); Emit (Progress 75); Emit (Progress 85)]
  ++ tr ++ [Emit (Progress 95); Emit (Progress 100)].

(** The traces of a job, by the place where [run] leaves. *)
Inductive exit_path (host : Host) (job : Job) : list Event -> Prop :=
| stopped_at_start :
    interruption host [] = true ->
    exit_path host job []
| load_failed :
    interruption host [] = false ->
    exit_path host job [Emit (Progress 5); Emit (Failed LoadFailed)]
| stopped_after_load :
    interruption host [] = false ->
    interruption host [Emit (Progress 5)] = true ->
    exit_path host job [Emit (Progress 5)]
| save_failed : forall new tmp_file cl,
    interruption host [] = false ->
    interruption host [Emit (Progress 5)] = false ->
    tmp_step job new tmp_file ->
    cleanup_step host job tmp_file
      (before_ocr new ++ [Emit (Failed ExceptionText)]) cl ->
    exit_path host job (before_ocr new ++ [Emit (Failed ExceptionText)] ++ cl)
| stopped_after_ocr : forall new tmp_file keys cl,
    interruption host [] = false ->
    interruption host [Emit (Progress 5)] = false ->
    tmp_step job new tmp_file ->
    interruption host (after_ocr new keys) = true ->
    cleanup_step host job tmp_file (after_ocr new keys) cl ->
    exit_path host job (after_ocr new keys ++ cl)
| stopped_at_end : forall new tmp_file keys text tr cl,
    interruption host [] = false ->
    interruption host [Emit (Progress 5)] = false ->
    interruption host (after_ocr new keys) = false ->
    tmp_step job new tmp_file ->
    translate_step job text tr ->
    interruption host (after_translation new keys tr) = true ->
    cleanup_step host job tmp_file (after_translation new keys tr) cl ->
    exit_path host job (after_translation new keys tr ++ cl)
| completed : forall new tmp_file keys text translated tr cl,
    interruption host [] = false ->
    interruption host [Emit (Progress 5)] = false ->
    interruption host (after_ocr new keys) = false ->
    tmp_step job new tmp_file ->
    translate_step job text tr ->
    (tr = [] \/ tr = [Emit (Progress 90)] -> translated = []) ->
    interruption host (after_translation new keys tr) = false ->
    cleanup_step host job tmp_file
      (after_translation new keys tr ++ [Emit (Finished text translated)]) cl ->
    exit_path host job
      (after_translation new keys tr ++ [Emit (Finished text translated)] ++ cl).

End WorkerTrace.

(* ===================================================================== *)
(** ** Properties: strings *)
(* ===================================================================== *)

Unset Implicit Arguments.
Import Py PIL Qt.

Lemma str_eqb_eq : forall a b, str_eqb a b = true <-> a = b.
Proof.
  induction a as [|x a IH]; destruct b as [|y b]; simpl; split;
    try congruence; try reflexivity.
  - rewrite andb_true_iff, N.eqb_eq, IH. intros [-> ->]. reflexivity.
  - intros H. injection H as -> ->. rewrite N.eqb_refl.
    apply IH. reflexivity.
Qed.

Lemma str_eqb_refl : forall a, str_eqb a a = true.
Proof. intros a. apply str_eqb_eq. reflexivity. Qed.

Lemma lstrip_all_space : forall s, forallb is_space s = true -> lstrip s = [].
Proof.
  induction s as [|c s IH]; simpl; [reflexivity|].
  rewrite andb_true_iff. intros [Hc Hs]. rewrite Hc. auto.
Qed.

Lemma lstrip_some_text : forall s,
  forallb is_space s = false ->
  exists c r, lstrip s = c :: r /\ is_space c = false.
Proof.
  induction s as [|c s IH]; simpl; [discriminate|].
  destruct (is_space c) eqn:Hc; simpl.
  - exact IH.
  - intros _. exists c, s. split; [reflexivity | exact Hc].
Qed.

Lemma forallb_snoc_false : forall (f : char -> bool) l c,
  f c = false -> forallb f (l ++ [c]) = false.
Proof.
  intros f l c Hc. rewrite forallb_app. simpl. rewrite Hc.
  rewrite andb_false_r. reflexivity.
Qed.

(** Stripping leaves something exactly when the text has a code point that
    is not a space. *)
Lemma strip_truthy : forall s,
  str_truthy (strip s) = negb (forallb is_space s).
Proof.
  intros s. unfold strip, rstrip.
  destruct (forallb is_space s) eqn:Hs.
  - rewrite (lstrip_all_space s Hs). reflexivity.
  - destruct (lstrip_some_text s Hs) as (c & r & -> & Hc).
    simpl rev.
    destruct (lstrip_some_text (rev r ++ [c]) (forallb_snoc_false _ _ _ Hc))
      as (c' & r' & -> & _).
    simpl. destruct (rev r'); reflexivity.
Qed.

Lemma accepted_spec : forall text,
  Paddle.accepted text = negb (Spec.whitespace_only text).
Proof.
  intros text. unfold Paddle.accepted, Spec.whitespace_only.
  rewrite strip_truthy. destruct text; reflexivity.
Qed.

Lemma is_blank_spec : forall text,
  OcrEngine.is_blank text = Spec.whitespace_only text.
Proof.
  intros text. unfold OcrEngine.is_blank, Spec.whitespace_only.
  rewrite strip_truthy, negb_involutive. destruct text; reflexivity.
Qed.

Lemma join_cons_cons : forall sep p q rest,
  join sep (p :: q :: rest) = p ++ sep ++ join sep (q :: rest).
Proof. reflexivity. Qed.

(** Joining non-empty pieces gives a non-empty text. *)
Lemma join_nonempty : forall sep p rest,
  p <> [] -> join sep (p :: rest) <> [].
Proof.
  intros sep p rest Hp. destruct rest as [|q rest].
  - exact Hp.
  - rewrite join_cons_cons. destruct p; [congruence | discriminate].
Qed.

(* ===================================================================== *)
(** ** Properties: the result normaliser *)
(* ===================================================================== *)

Import Paddle.

Lemma py_sum_from : forall l a, fold_left Qplus l a == a + fold_right Qplus 0 l.
Proof.
  induction l as [|q l IH]; intros a; simpl.
  - ring.
  - rewrite IH. ring.
Qed.

Lemma py_sum_fold_right : forall l, py_sum l == fold_right Qplus 0 l.
Proof. intros l. unfold py_sum. rewrite py_sum_from. ring. Qed.

(** What [finish] computes is the newline-joined text with the mean
    confidence. *)
Lemma finish_mean : forall (texts : list str) (scores : list Q),
  length texts = length scores ->
  exists conf,
    finish (texts, scores) = (join newline texts, conf)
    /\ conf == Spec.mean_confidence scores.
Proof.
  intros texts scores Hlen. unfold finish.
  destruct texts as [|t texts]; destruct scores as [|s scores];
    try discriminate Hlen.
  - exists 0. split; reflexivity.
  - eexists. split; [reflexivity|].
    unfold Spec.mean_confidence. rewrite py_sum_fold_right. reflexivity.
Qed.

(** A well-formed line is appended exactly when its text is accepted. *)
Lemma parse_line_entry : forall b (e : Spec.entry),
  parse_line b (Spec.to_line e)
  = Ok (if accepted (Spec.entry_text e)
        then Some (Spec.entry_text e, Spec.entry_score e) else None).
Proof. intros b [[bbox text] score]. reflexivity. Qed.

Lemma parse_lines_entries : forall b entries a,
  parse_lines b a (map Spec.to_line entries)
  = (fst a ++ map Spec.entry_text (Spec.kept entries),
     snd a ++ map Spec.entry_score (Spec.kept entries)).
Proof.
  intros b. induction entries as [|e entries IH]; intros [texts scores].
  - simpl. rewrite !app_nil_r. reflexivity.
  - cbn [map parse_lines]. rewrite parse_line_entry. cbn [catch].
    unfold Spec.kept. cbn [filter]. fold (Spec.kept entries).
    rewrite <- accepted_spec.
    destruct (accepted (Spec.entry_text e)).
    + rewrite IH. unfold acc_push. cbn [fst snd map].
      rewrite <- !app_assoc. reflexivity.
    + rewrite IH. reflexivity.
Qed.

Lemma parse_result_list_shape : forall b entries rest,
  exists conf,
    parse_result b (VList (VList (map Spec.to_line entries) :: rest))
    = Ok (join newline (map Spec.entry_text (Spec.kept entries)), conf)
    /\ conf == Spec.mean_confidence (map Spec.entry_score (Spec.kept entries)).
Proof.
  intros b entries rest.
  destruct entries as [|e entries].
  - exists 0. split; reflexivity.
  - destruct (finish_mean (map Spec.entry_text (Spec.kept (e :: entries)))
                (map Spec.entry_score (Spec.kept (e :: entries))))
      as (conf & Hfin & Hconf).
    { rewrite !length_map. reflexivity. }
    exists conf. split; [|exact Hconf].
    unfold parse_result. cbn [truthy length Nat.eqb negb exc_bind getitem0 nth_error of_option map].
    change (Spec.to_line e :: map Spec.to_line entries)
      with (map Spec.to_line (e :: entries)).
    rewrite parse_lines_entries. cbn [acc_empty fst snd app].
    rewrite Hfin. reflexivity.
Qed.

(** *** The normaliser in binary64 *)

Lemma Qred_int : forall z, Qred (inject_Z z) = inject_Z z.
Proof.
  intros z.
  pose proof (Qred_correct (inject_Z z)) as Heq.
  pose proof (gcd_Qred (inject_Z z)) as Hgcd.
  destruct (Qred (inject_Z z)) as [a b].
  unfold Qeq in Heq. cbn [Qnum Qden inject_Z] in Heq, Hgcd.
  assert (Ha : a = (z * Zpos b)%Z) by lia.
  rewrite Ha, Z.mul_comm, Z.gcd_comm, Z.gcd_mul_diag_l in Hgcd by lia.
  unfold inject_Z. f_equal; [nia | lia].
Qed.

Section Rounding.
Import Binary64.

Lemma round_compat : forall p q, p == q -> round p = round q.
Proof. intros p q H. unfold round. rewrite (Qred_complete p q H). reflexivity. Qed.

Lemma pow2_Qpower : forall e, pow2 e == 2 ^ e.
Proof.
  intros e. unfold pow2. destruct (0 <=? e)%Z eqn:He.
  - apply Z.leb_le in He. apply Zpower_Qpower. exact He.
  - apply Z.leb_gt in He.
    assert (Hp : (0 < 2 ^ (- e))%Z) by (apply Z.pow_pos_nonneg; lia).
    rewrite <- (Z.opp_involutive e) at 2. rewrite Qpower_opp.
    assert (H2 : 2 ^ (- e) == inject_Z (2 ^ (- e)))
      by (symmetry; apply Zpower_Qpower; lia).
    rewrite H2.
    destruct (2 ^ (- e))%Z as [|p|p] eqn:Hpow; try lia.
    reflexivity.
Qed.

Lemma pow2_pos : forall e, 0 < pow2 e.
Proof. intros e. rewrite pow2_Qpower. apply Qpower_0_lt. reflexivity. Qed.

Lemma pow2_add : forall a b, pow2 (a + b) == pow2 a * pow2 b.
Proof.
  intros a b. rewrite !pow2_Qpower. apply Qpower_plus. discriminate.
Qed.

Lemma pow2_nonneg : forall e, (0 <= e)%Z -> pow2 e = inject_Z (2 ^ e).
Proof.
  intros e He. unfold pow2.
  replace (0 <=? e)%Z with true by (symmetry; apply Z.leb_le; exact He).
  reflexivity.
Qed.

(** The scaled quotient of [round_pos] is [n / d] divided by the quantum. *)
Lemma scaled_quotient : forall n d g,
  (0 < d)%Z ->
  inject_Z (n * 2 ^ Z.max 0 (- g))
  == inject_Z n / inject_Z d * pow2 (- g) * inject_Z (d * 2 ^ Z.max 0 g).
Proof.
  intros n d g Hd.
  rewrite !inject_Z_mult.
  rewrite <- (pow2_nonneg (Z.max 0 (- g)) ltac:(lia)).
  rewrite <- (pow2_nonneg (Z.max 0 g) ltac:(lia)).
  assert (Hsplit : pow2 (Z.max 0 (- g)) == pow2 (- g) * pow2 (Z.max 0 g)).
  { rewrite <- pow2_add. replace (- g + Z.max 0 g)%Z with (Z.max 0 (- g)) by lia.
    reflexivity. }
  rewrite Hsplit. field.
  change 0 with (inject_Z 0). rewrite inject_Z_injective. lia.
Qed.

Lemma nearest_even_exact : forall k d, (0 < d)%Z -> nearest_even (k * d) d = k.
Proof.
  intros k d Hd. unfold nearest_even.
  rewrite Z.mod_mul, Z.div_mul by lia.
  change (2 * 0)%Z with 0%Z.
  assert (Hlt : (0 ?= d)%Z = Lt) by (apply Z.compare_lt_iff; exact Hd).
  rewrite Hlt. reflexivity.
Qed.

Lemma floor_log2_lower : forall n d,
  pow2 (floor_log2 n d) <= Zpos n # d.
Proof.
  intros n d.
  assert (Hn := Z.log2_spec (Zpos n) ltac:(lia)).
  assert (Hd := Z.log2_spec (Zpos d) ltac:(lia)).
  assert (Ha := Z.log2_nonneg (Zpos n)).
  assert (Hb := Z.log2_nonneg (Zpos d)).
  unfold floor_log2.
  set (a := Z.log2 (Zpos n)) in *. set (b := Z.log2 (Zpos d)) in *.
  assert (Hle : forall k, (if (0 <=? k)%Z then (Zpos d * 2 ^ k <=? Zpos n)%Z
                           else (Zpos d <=? Zpos n * 2 ^ (- k))%Z) = true ->
                     pow2 k <= Zpos n # d).
  { intros k Hk. unfold pow2. destruct (0 <=? k)%Z eqn:Hs.
    - apply Z.leb_le in Hk. unfold Qle, inject_Z. cbn [Qnum Qden]. lia.
    - apply Z.leb_le in Hk. apply Z.leb_gt in Hs.
      assert (Hp : (0 < 2 ^ (- k))%Z) by (apply Z.pow_pos_nonneg; lia).
      unfold Qle. cbn [Qnum Qden]. rewrite Z2Pos.id by exact Hp. lia. }
  destruct (if (0 <=? a - b)%Z then (Zpos d * 2 ^ (a - b) <=? Zpos n)%Z
            else (Zpos d <=? Zpos n * 2 ^ (- (a - b)))%Z) eqn:Htest.
  - apply Hle. exact Htest.
  - apply Hle. clear Hle Htest.
    destruct (0 <=? a - b - 1)%Z eqn:Hs.
    + apply Z.leb_le in Hs. apply Z.leb_le.
      replace (Z.succ b) with (b + 1)%Z in Hd by lia.
      assert (Hpow : (2 ^ (b + 1) * 2 ^ (a - b - 1) = 2 ^ a)%Z).
      { rewrite <- Z.pow_add_r by lia. f_equal. lia. }
      assert (0 < 2 ^ (a - b - 1))%Z by (apply Z.pow_pos_nonneg; lia).
      nia.
    + apply Z.leb_gt in Hs. apply Z.leb_le.
      replace (Z.succ b) with (b + 1)%Z in Hd by lia.
      assert (Hpow : (2 ^ a * 2 ^ (- (a - b - 1)) = 2 ^ (b + 1))%Z).
      { rewrite <- Z.pow_add_r by lia. f_equal. lia. }
      assert (0 < 2 ^ (- (a - b - 1)))%Z by (apply Z.pow_pos_nonneg; lia).
      nia.
Qed.

Lemma round_zero : forall q, q == 0 -> round q = Finite 0.
Proof. intros q H. rewrite (round_compat q 0 H). reflexivity. Qed.

Lemma Qopp_opp_eq : forall q : Q, - - q = q.
Proof.
  intros [a b]. unfold Qopp. cbn [Qnum Qden]. rewrite Z.opp_involutive.
  reflexivity.
Qed.

Lemma round_opp : forall q, round (- q) = opp (round q).
Proof.
  intros q. unfold round. rewrite Qred_opp.
  destruct (Qred q) as [[|n|n] d]; cbn [Qopp Qnum Qden Z.opp].
  - reflexivity.
  - destruct (overflows (round_pos n d)); reflexivity.
  - destruct (overflows (round_pos n d)); cbn [opp negb]; [reflexivity|].
    rewrite Qopp_opp_eq. reflexivity.
Qed.

Lemma Qred_Qred : forall q, Qred (Qred q) = Qred q.
Proof. intros q. apply Qred_complete. apply Qred_correct. Qed.

Lemma pow2_lt_inv : forall a b, pow2 a < pow2 b -> (a < b)%Z.
Proof.
  intros a b H. rewrite !pow2_Qpower in H.
  apply (Qpower_lt_compat_l_inv 2); [exact H | reflexivity].
Qed.

(** Below [2^53] quanta nothing is lost: the quantum of [m * 2^e] is at
    most [e]. *)
Lemma quantum_le : forall n d m e,
  (0 < m < 2 ^ 53)%Z -> (-1074 <= e)%Z ->
  Zpos n # d == inject_Z m * pow2 e ->
  (quantum n d <= e)%Z.
Proof.
  intros n d m e Hm He Heq. unfold quantum.
  assert (Hfl : (floor_log2 n d < 53 + e)%Z).
  { apply pow2_lt_inv.
    apply Qle_lt_trans with (Zpos n # d); [apply floor_log2_lower|].
    rewrite Heq, pow2_add.
    apply Qmult_lt_compat_r; [apply pow2_pos|].
    rewrite pow2_nonneg by lia. rewrite <- Zlt_Qlt. lia. }
  lia.
Qed.

Lemma round_pos_exact : forall n d m e,
  (0 < m < 2 ^ 53)%Z -> (-1074 <= e)%Z ->
  Zpos n # d == inject_Z m * pow2 e ->
  round_pos n d = Qred (Zpos n # d).
Proof.
  intros n d m e Hm He Heq.
  pose proof (quantum_le n d m e Hm He Heq) as Hg.
  unfold round_pos. set (g := quantum n d) in *.
  assert (Hexact :
            (Zpos n * 2 ^ Z.max 0 (- g) = m * 2 ^ (e - g) * (Zpos d * 2 ^ Z.max 0 g))%Z).
  { apply inject_Z_injective.
    rewrite (scaled_quotient (Zpos n) (Zpos d) g) by lia.
    rewrite (inject_Z_mult (m * 2 ^ (e - g))), (inject_Z_mult m).
    rewrite <- (pow2_nonneg (e - g)) by lia.
    replace (e - g)%Z with (e + - g)%Z by lia. rewrite pow2_add.
    rewrite <- Qmake_Qdiv, Heq. ring. }
  rewrite Hexact, nearest_even_exact.
  - apply Qred_complete. rewrite Heq, inject_Z_mult.
    rewrite <- (pow2_nonneg (e - g)) by lia.
    replace e with ((e - g) + g)%Z at 2 by lia. rewrite (pow2_add (e - g) g).
    ring.
  - assert (0 < 2 ^ Z.max 0 g)%Z by (apply Z.pow_pos_nonneg; lia). nia.
Qed.

Lemma round_representable_pos : forall q m e,
  (0 < m < 2 ^ 53)%Z -> (-1074 <= e <= 971)%Z ->
  q == inject_Z m * pow2 e ->
  round q = Finite (Qred q).
Proof.
  intros q m e Hm He Heq.
  assert (Hred : Qred q == inject_Z m * pow2 e) by (rewrite Qred_correct; exact Heq).
  assert (Hpos : 0 < Qred q).
  { rewrite Hred. apply Qmult_lt_0_compat; [|apply pow2_pos].
    change 0 with (inject_Z 0). rewrite <- Zlt_Qlt. lia. }
  assert (Hlt : Qred q < inject_Z (2 ^ 1024)).
  { rewrite Hred. rewrite <- (pow2_nonneg 1024) by lia.
    change 1024%Z with (53 + 971)%Z. rewrite pow2_add.
    apply Qlt_le_trans with (pow2 53 * pow2 e).
    - apply Qmult_lt_compat_r; [apply pow2_pos|].
      rewrite pow2_nonneg by lia. rewrite <- Zlt_Qlt. lia.
    - apply Qmult_le_l; [apply pow2_pos|].
      rewrite !pow2_Qpower. apply Qpower_le_compat_l; [lia | discriminate]. }
  pose proof (Qred_Qred q) as Hcanon.
  unfold round.
  destruct (Qred q) as [[|n|n] d] eqn:Hq.
  - exfalso. revert Hpos. unfold Qlt. cbn. lia.
  - rewrite (round_pos_exact n d m e Hm (proj1 He) Hred), Hcanon.
    unfold overflows.
    replace (Qle_bool (inject_Z (2 ^ 1024)) (Zpos n # d)) with false;
      [reflexivity|].
    symmetry. apply not_true_is_false. intros H. apply Qle_bool_iff in H.
    apply (Qlt_irrefl (Zpos n # d)).
    apply Qlt_le_trans with (inject_Z (2 ^ 1024)); assumption.
  - exfalso. revert Hpos. unfold Qlt. cbn. lia.
Qed.

Lemma is_float_compat : forall p q, p == q -> is_float p -> is_float q.
Proof.
  intros p q Heq (m & e & Hm & He & Hp). exists m, e.
  split; [exact Hm|]. split; [exact He|]. rewrite <- Heq. exact Hp.
Qed.

(** [round] leaves the binary64 values as they are. *)
Lemma round_float : forall q, is_float q -> round q = Finite (Qred q).
Proof.
  intros q (m & e & Hm & He & Heq).
  destruct (Z.lt_trichotomy m 0) as [Hneg | [-> | Hpos]].
  - assert (Hopp : - q == inject_Z (- m) * pow2 e).
    { rewrite Heq, inject_Z_opp. ring. }
    rewrite <- (Qopp_opp_eq q), round_opp.
    rewrite (round_representable_pos (- q) (- m) e) by (try exact Hopp; lia).
    cbn [opp]. rewrite Qred_opp, !Qopp_opp_eq. reflexivity.
  - assert (H0 : q == 0) by (rewrite Heq; ring).
    rewrite (round_zero q H0), (Qred_complete q 0 H0). reflexivity.
  - apply (round_representable_pos q m e); [lia | exact He | exact Heq].
Qed.

Lemma add_exact : forall x s,
  is_float s -> is_float (x + s) ->
  add (Finite x) (round s) = Finite (Qred (x + s)).
Proof.
  intros x s Hs Hsum. rewrite (round_float s Hs). cbn [add].
  rewrite (round_compat (x + Qred s) (x + s)) by (rewrite Qred_correct; reflexivity).
  apply round_float. exact Hsum.
Qed.

Lemma prefix_step : forall x s (l : list Q) k,
  Qred (x + s) + fold_right Qplus 0 (firstn k l)
  == x + fold_right Qplus 0 (firstn (S k) (s :: l)).
Proof.
  intros x s l k. cbn [firstn fold_right]. rewrite Qred_correct. ring.
Qed.

(** Summing from the left, when no addition rounds. *)
Lemma sum_left_exact : forall l x,
  Forall is_float l ->
  (forall k, is_float (x + fold_right Qplus 0 (firstn k l))) ->
  exists y, fold_left add (map round l) (Finite x) = Finite y
            /\ y == x + fold_right Qplus 0 l.
Proof.
  induction l as [|s l IH]; intros x Hall Hpre.
  - exists x. split; [reflexivity | cbn; ring].
  - inversion Hall as [|? ? Hs Hl]; subst.
    assert (Hxs : is_float (x + s)).
    { apply (is_float_compat (x + fold_right Qplus 0 (firstn 1 (s :: l))));
        [cbn; ring | apply Hpre]. }
    cbn [map fold_left]. rewrite (add_exact x s Hs Hxs).
    destruct (IH (Qred (x + s)) Hl) as (y & Hy & Heq).
    { intros k. apply (is_float_compat _ _ (Qeq_sym _ _ (prefix_step x s l k))).
      apply Hpre. }
    exists y. split; [exact Hy|]. rewrite Heq, Qred_correct. cbn [fold_right]. ring.
Qed.

Lemma sub_exact : forall x y z,
  is_float z -> x - y == - z ->
  sub (Finite x) (Finite y) = Finite (- Qred z).
Proof.
  intros x y z Hz Heq. unfold sub. cbn [opp add].
  rewrite (round_compat (x + - y) (- z)) by exact Heq.
  rewrite round_opp, (round_float z Hz). reflexivity.
Qed.

Lemma cancel_exact : forall z w, w == z -> add (Finite (- Qred z)) (Finite w) = Finite 0.
Proof.
  intros z w Heq. cbn [add]. apply round_zero. rewrite Qred_correct, Heq. ring.
Qed.

(** One step of the compensated loop, when the addition does not round:
    the compensation stays zero. *)
Lemma cs_add_exact : forall x s,
  is_float x -> is_float s -> is_float (x + s) ->
  cs_add (Finite x, Finite 0) (round s) = (Finite (Qred (x + s)), Finite 0).
Proof.
  intros x s Hx Hs Hsum. unfold cs_add.
  rewrite (add_exact x s Hs Hsum). rewrite (round_float s Hs).
  f_equal.
  destruct (fabs_ge (Finite x) (Finite (Qred s))).
  - rewrite (sub_exact x (Qred (x + s)) s Hs) by (rewrite Qred_correct; ring).
    rewrite (cancel_exact s (Qred s)) by apply Qred_correct. reflexivity.
  - rewrite (sub_exact (Qred s) (Qred (x + s)) x Hx) by (rewrite !Qred_correct; ring).
    rewrite (cancel_exact x x) by reflexivity. reflexivity.
Qed.

Lemma sum_compensated_exact : forall l x,
  Forall is_float l ->
  (forall k, is_float (x + fold_right Qplus 0 (firstn k l))) ->
  exists y, fold_left cs_add (map round l) (Finite x, Finite 0)
            = (Finite y, Finite 0)
            /\ y == x + fold_right Qplus 0 l.
Proof.
  induction l as [|s l IH]; intros x Hall Hpre.
  - exists x. split; [reflexivity | cbn; ring].
  - inversion Hall as [|? ? Hs Hl]; subst.
    assert (Hx : is_float x).
    { apply (is_float_compat (x + fold_right Qplus 0 (firstn 0 (s :: l))));
        [cbn; ring | apply Hpre]. }
    assert (Hxs : is_float (x + s)).
    { apply (is_float_compat (x + fold_right Qplus 0 (firstn 1 (s :: l))));
        [cbn; ring | apply Hpre]. }
    cbn [map fold_left]. rewrite (cs_add_exact x s Hx Hs Hxs).
    destruct (IH (Qred (x + s)) Hl) as (y & Hy & Heq).
    { intros k. apply (is_float_compat _ _ (Qeq_sym _ _ (prefix_step x s l k))).
      apply Hpre. }
    exists y. split; [exact Hy|]. rewrite Heq, Qred_correct. cbn [fold_right]. ring.
Qed.

(** The sum of the interpreter is the sum, when no addition rounds. *)
Lemma py_sum_exact : forall alg scores,
  Forall is_float scores ->
  (forall k, is_float (fold_right Qplus 0 (firstn k scores))) ->
  exists y, py_sum alg (map round scores) = Finite y
            /\ y == fold_right Qplus 0 scores.
Proof.
  intros alg scores Hall Hpre.
  assert (Hpre0 : forall k, is_float (0 + fold_right Qplus 0 (firstn k scores))).
  { intros k. apply (is_float_compat (fold_right Qplus 0 (firstn k scores)));
      [ring | apply Hpre]. }
  destruct alg; unfold py_sum.
  - destruct (sum_left_exact scores 0 Hall Hpre0) as (y & Hy & Heq).
    exists y. split; [exact Hy|]. rewrite Heq. ring.
  - destruct scores as [|s rest]; [exists 0; split; reflexivity|].
    inversion Hall as [|? ? Hs Hrest]; subst. cbn [map].
    assert (H0s : is_float (0 + s)).
    { apply (is_float_compat (0 + fold_right Qplus 0 (firstn 1 (s :: rest))));
        [cbn; ring | apply Hpre0]. }
    rewrite (add_exact 0 s Hs H0s).
    destruct (sum_compensated_exact rest (Qred (0 + s)) Hrest) as (y & Hy & Heq).
    { intros k. apply (is_float_compat _ _ (Qeq_sym _ _ (prefix_step 0 s rest k))).
      apply Hpre0. }
    exists y. rewrite Hy. split; [reflexivity|].
    rewrite Heq, Qred_correct. cbn [fold_right]. ring.
Qed.

End Rounding.

(** An integer below [2^53] is a float: rounding leaves it as it is. *)
Lemma round_int : forall z, (0 < z < 2 ^ 53)%Z ->
  Binary64.round (inject_Z z) = Binary64.Finite (inject_Z z).
Proof.
  intros z Hz.
  transitivity (Binary64.Finite (Qred (inject_Z z)));
    [|rewrite Qred_int; reflexivity].
  apply round_float. exists z, 0%Z. split; [lia|]. split; [lia|].
  change (Binary64.pow2 0) with 1. ring.
Qed.

(** On the sample pairs, rounding leaves a machine float as it is, and
    the sum, the difference and the quotient of [Binary64] are those of
    the machine. *)
Lemma arithmetic_agrees_with_machine :
  map (fun p => Binary64.round
                  match Binary64.of_machine (fst p) with
                  | Binary64.Finite q => q
                  | _ => 0
                  end)
      MachineSamples.machine_samples
  = map (fun p => Binary64.of_machine (fst p)) MachineSamples.machine_samples
  /\ map (fun p => Binary64.add (Binary64.of_machine (fst p))
                                (Binary64.of_machine (snd p)))
         MachineSamples.machine_samples
     = map (fun p => Binary64.of_machine (PrimFloat.add (fst p) (snd p)))
         MachineSamples.machine_samples
  /\ map (fun p => Binary64.sub (Binary64.of_machine (fst p))
                                (Binary64.of_machine (snd p)))
         MachineSamples.machine_samples
     = map (fun p => Binary64.of_machine (PrimFloat.sub (fst p) (snd p)))
         MachineSamples.machine_samples
  /\ map (fun p => Binary64.div (Binary64.of_machine (fst p))
                                (Binary64.of_machine (snd p)))
         MachineSamples.machine_samples
     = map (fun p => Binary64.of_machine (PrimFloat.div (fst p) (snd p)))
         MachineSamples.machine_samples.
Proof. split; [|split; [|split]]; vm_compute; reflexivity. Qed.

(** The two ways of summing differ.  Ten times the float 0.1 adds up to
    0.9999999999999999 from the left and to 1.0 with the compensation,
    as [sum([0.1] * 10)] does before and from CPython 3.12; and the sum
    from the left is that of the machine. *)
Lemma sum_of_ten_tenths :
  Binary64.py_sum Binary64.LeftToRight
    (repeat (Binary64.Finite Samples.tenth) 10)
  = Binary64.Finite (9007199254740991 # 9007199254740992)
  /\ Binary64.py_sum Binary64.Compensated
       (repeat (Binary64.Finite Samples.tenth) 10)
     = Binary64.Finite 1
  /\ Binary64.py_sum Binary64.LeftToRight
       (map (fun p => Binary64.of_machine (fst p))
            (firstn 10 MachineSamples.machine_samples))
     = Binary64.of_machine
         (fold_left PrimFloat.add
            (map fst (firstn 10 MachineSamples.machine_samples))
            PrimFloat.zero).
Proof. split; [|split]; vm_compute; reflexivity. Qed.



(** Lines 212-223 on accumulators of equal length: the joined text and
    the float mean, and nothing is raised. *)
Lemma float_finish_mean : forall alg (texts : list str) scores,
  length texts = length scores ->
  (Z.of_nat (length scores) < 2 ^ 53)%Z ->
  PaddleFloat.finish alg (texts, scores)
  = Ok (join newline texts, Spec.float_mean alg scores).
Proof.
  intros alg texts scores Hlen Hbound. unfold PaddleFloat.finish.
  destruct texts as [|t texts]; destruct scores as [|s scores];
    try discriminate Hlen; [reflexivity|].
  unfold Binary64.of_int. rewrite round_int by (cbn [length] in *; lia).
  cbn [exc_bind]. unfold Binary64.truediv, Binary64.is_zero.
  replace (Qeq_bool (inject_Z (Z.of_nat (length (s :: scores)))) 0) with false;
    [reflexivity|].
  symmetry. apply not_true_is_false. intros H. apply Qeq_bool_iff in H.
  unfold Qeq in H. cbn [Qnum Qden inject_Z length] in H. lia.
Qed.


(** The float mean is the mean, when no operation rounds. *)
Lemma float_mean_exact : forall alg scores,
  Spec.mean_is_exact scores ->
  Spec.float_mean alg (map Binary64.round scores)
  = Binary64.Finite (Qred (Spec.mean_confidence scores)).
Proof.
  intros alg scores (Hall & Hpre & Hmean).
  destruct scores as [|s rest]; [reflexivity|].
  destruct (py_sum_exact alg (s :: rest) Hall Hpre) as (y & Hy & Heq).
  unfold Spec.float_mean. cbn [map]. cbn [map] in Hy. rewrite Hy.
  cbn [Binary64.div].
  replace (Qeq_bool (inject_Z (Z.of_nat (length (Binary64.round s :: map Binary64.round rest)))) 0)
    with false.
  - rewrite <- (round_float _ Hmean). apply round_compat.
    unfold Spec.mean_confidence. rewrite Heq.
    cbn [length]. rewrite length_map. reflexivity.
  - symmetry. apply not_true_is_false. intros H. apply Qeq_bool_iff in H.
    unfold Qeq in H. cbn [Qnum Qden inject_Z length] in H. lia.
Qed.




(** C9. For the keyed-mapping result [{"text": ["a", "b"]}] the normaliser
    returns, without raising, the text "a", newline, "b" with confidence
    1: each bare string counts with confidence 1. *)
Theorem keyed_mapping_a_b : forall b rest,
  let outcome := normalize b (VList (Samples.keyed_a_b :: rest)) in
  parse_result b (VList (Samples.keyed_a_b :: rest)) = Ok outcome
  /\ fst outcome = lit "a" ++ newline ++ lit "b"
  /\ snd outcome == 1.
Proof. intros b rest. repeat split. Qed.

(** C7. When the first element of the recogniser's result is neither a
    dict nor a list or tuple, the normaliser returns empty text with
    confidence 0, and so does [run_paddle_ocr] for every engine that
    produces such a result: nothing is raised. *)
Theorem unknown_shape_degrades : forall b result first,
  getitem0 result = Ok first ->
  is_dict first = false ->
  is_seq first = false ->
  normalize b result = ([], 0)
  /\ forall e img lang past,
       ocr_call e past (instance_key lang) img = Ok result ->
       run_paddle_ocr e (Some img) lang past
       = (([], 0), past ++ [instance_key lang]).
Proof.
  intros b result first Hfirst Hdict Hseq.
  assert (Hany : forall b', catch (parse_result b' result) ([], 0) = ([], 0)).
  { intros b'. unfold parse_result.
    destruct (truthy result) as [[|]|]; try reflexivity.
    cbn [exc_bind negb]. rewrite Hfirst. cbn [exc_bind].
    destruct (truthy first) as [[|]|]; try reflexivity.
    destruct first; try discriminate; reflexivity. }
  split.
  - apply Hany.
  - intros e img lang past Hcall.
    unfold run_paddle_ocr, bind, history, emit, ret.
    rewrite Hcall. cbn [exc_bind]. rewrite Hany. reflexivity.
Qed.

(** A result object of an unknown kind as first element. *)
Lemma unknown_shape_degrades_witness :
  normalize Samples.plain_builtins (VList [VInt 7]) = ([], 0).
Proof.
  apply (unknown_shape_degrades Samples.plain_builtins (VList [VInt 7]) (VInt 7));
    reflexivity.
Defined.

(** C3, the code at the input that breaks the invariant: for the
    keyed-mapping result [{"text": [""]}] the single empty string is
    appended with confidence 1, so the text is empty and the confidence
    is 1; [run_ocr] hands the pair on for an English-only request. *)
Theorem keyed_empty_string_confidence : forall b rest,
  normalize b (VList (Samples.keyed_empty_string :: rest)) = ([], 1)
  /\ ~ Spec.outcome_invariant
         (normalize b (VList (Samples.keyed_empty_string :: rest)))
  /\ run (OcrEngine.run_ocr
            (Samples.constant_engine (VList [Samples.keyed_empty_string]))
            (Some Samples.tiny_image) (lit "eng"))
     = (([], 1), [lit "en"]).
Proof.
  intros b rest. split; [reflexivity|]. split; [|reflexivity].
  unfold Spec.outcome_invariant. intros H.
  specialize (H eq_refl). discriminate H.
Qed.

(** The list shape keeps the invariant: its lines are appended only when
    their text is not blank. *)
Lemma parse_line_accepted : forall b line text conf,
  catch (parse_line b line) None = Some (text, conf) ->
  accepted text = true.
Proof.
  intros b line text conf H.
  destruct (parse_line b line) as [found|] eqn:E; [|discriminate H].
  cbn [catch] in H. subst found. unfold parse_line, exc_bind in E.
  repeat match type of E with
         | context [match ?x with _ => _ end] =>
             destruct x eqn:?; try discriminate E
         end.
  all: injection E as <- <-; assumption.
Qed.

Lemma parse_lines_nonempty : forall b lines a,
  Forall (fun t => t <> []) (fst a) ->
  Forall (fun t => t <> []) (fst (parse_lines b a lines)).
Proof.
  intros b. induction lines as [|line lines IH]; intros a Ha; [exact Ha|].
  cbn [parse_lines].
  destruct (catch (parse_line b line) None) as [[text conf]|] eqn:Hline;
    [|apply IH; exact Ha].
  apply IH. unfold acc_push. cbn [fst].
  apply Forall_app. split; [exact Ha|]. constructor; [|constructor].
  apply parse_line_accepted in Hline.
  unfold accepted in Hline. destruct text; [discriminate | congruence].
Qed.

Lemma list_shape_keeps_invariant : forall b lines,
  Spec.outcome_invariant (finish (parse_lines b acc_empty lines)).
Proof.
  intros b lines. unfold Spec.outcome_invariant.
  pose proof (parse_lines_nonempty b lines acc_empty (Forall_nil _)) as Hne.
  destruct (parse_lines b acc_empty lines) as [texts scores].
  cbn [fst] in Hne. unfold finish.
  destruct texts as [|t texts]; [reflexivity|].
  cbn [fst snd]. intros Hjoin. exfalso.
  inversion Hne as [|? ? Ht _]; subst.
  exact (join_nonempty newline t texts Ht Hjoin).
Qed.

(* ===================================================================== *)
(** ** Properties: the recognition dispatcher *)
(* ===================================================================== *)

Lemma Qgtb_lt : forall a b, Qgtb a b = true <-> b < a.
Proof.
  intros a b. unfold Qgtb. rewrite negb_true_iff. split.
  - intros H. apply Qnot_le_lt. intros Hle.
    apply Qle_bool_iff in Hle. congruence.
  - intros H. destruct (Qle_bool a b) eqn:E; [|reflexivity].
    apply Qle_bool_iff in E. exfalso. exact (Qlt_not_le _ _ H E).
Qed.

Lemma Qgtb_le : forall a b, Qgtb a b = false <-> a <= b.
Proof.
  intros a b. unfold Qgtb. rewrite negb_false_iff. apply Qle_bool_iff.
Qed.

Lemma run_paddle_ocr_some : forall e img lang past,
  run_paddle_ocr e (Some img) lang past
  = (catch (exc_bind (ocr_call e past (instance_key lang) img)
                     (parse_result (builtins e))) ([], 0),
     past ++ [instance_key lang]).
Proof. reflexivity. Qed.

(** The loop is a left fold of [better] over the outcomes of the
    attempts, and it makes exactly those attempts. *)
Lemma multi_lang_loop_fold : forall e img langs best past,
  multi_lang_loop e img langs best past
  = (fold_left Spec.better (fst (Spec.attempt_results e img langs past)) best,
     snd (Spec.attempt_results e img langs past)).
Proof.
  intros e img. induction langs as [|lang langs IH]; intros best past.
  - reflexivity.
  - cbn [multi_lang_loop Spec.attempt_results]. unfold bind.
    destruct (run_paddle_ocr e img lang past) as [[text conf] past'].
    rewrite IH.
    destruct (Spec.attempt_results e img langs past') as [rs past''].
    reflexivity.
Qed.

Lemma attempt_results_trace : forall e img langs past,
  snd (Spec.attempt_results e (Some img) langs past)
  = past ++ map instance_key langs.
Proof.
  intros e img. induction langs as [|lang langs IH]; intros past.
  - simpl. rewrite app_nil_r. reflexivity.
  - cbn [Spec.attempt_results]. unfold bind.
    rewrite run_paddle_ocr_some.
    specialize (IH (past ++ [instance_key lang])).
    destruct (Spec.attempt_results e (Some img) langs (past ++ [instance_key lang]))
      as [rs past'].
    cbn [snd ret] in *. rewrite IH, <- app_assoc. reflexivity.
Qed.

(** The invariant of the fold: the result is the start value or an
    accepted attempt above it, it is never below the start value, and no
    non-blank attempt is above it. *)
Lemma fold_better_spec : forall rs best,
  let res := fold_left Spec.better rs best in
  (res = best
   \/ (In res rs /\ Spec.whitespace_only (fst res) = false /\ snd best < snd res))
  /\ snd best <= snd res
  /\ (forall r, In r rs -> Spec.whitespace_only (fst r) = false -> snd r <= snd res).
Proof.
  induction rs as [|r rs IH]; intros best; cbn zeta.
  - split; [left; reflexivity|]. split; [apply Qle_refl|]. intros r [].
  - cbn [fold_left].
    destruct (IH (Spec.better best r)) as (Hor & Hle & Hall). clear IH.
    unfold Spec.better in *. rewrite strip_truthy in *.
    fold (Spec.whitespace_only (fst r)) in *.
    destruct (Qgtb (snd r) (snd best)) eqn:Hgt;
      destruct (Spec.whitespace_only (fst r)) eqn:Hws; cbn [andb negb] in *.
    + (* above, but blank *)
      split; [|split; [exact Hle|]].
      * destruct Hor as [->|(Hin & Hnb & Hlt)]; [left; reflexivity|].
        right. split; [right; exact Hin|]. split; assumption.
      * intros r' [<-|Hin] Hnb; [congruence | apply Hall; assumption].
    + (* above and accepted: the attempt becomes the best *)
      apply Qgtb_lt in Hgt.
      split; [|split].
      * right. destruct Hor as [->|(Hin & Hnb & Hlt)].
        -- split; [left; reflexivity|]. split; assumption.
        -- split; [right; exact Hin|]. split; [exact Hnb|].
           eapply Qlt_trans; eassumption.
      * apply Qlt_le_weak. eapply Qlt_le_trans; eassumption.
      * intros r' [<-|Hin] Hnb; [exact Hle | apply Hall; assumption].
    + split; [|split; [exact Hle|]].
      * destruct Hor as [->|(Hin & Hnb & Hlt)]; [left; reflexivity|].
        right. split; [right; exact Hin|]. split; assumption.
      * intros r' [<-|Hin] Hnb; [congruence | apply Hall; assumption].
    + (* accepted, but not above *)
      apply Qgtb_le in Hgt.
      split; [|split; [exact Hle|]].
      * destruct Hor as [->|(Hin & Hnb & Hlt)]; [left; reflexivity|].
        right. split; [right; exact Hin|]. split; assumption.
      * intros r' [<-|Hin] Hnb; [|apply Hall; assumption].
        eapply Qle_trans; eassumption.
Qed.

Lemma candidates_In : forall rs r,
  In r (Spec.candidates rs)
  <-> In r rs /\ Spec.whitespace_only (fst r) = false /\ 0 < snd r.
Proof.
  intros rs r. unfold Spec.candidates. rewrite filter_In, andb_true_iff.
  rewrite negb_true_iff, Qgtb_lt. tauto.
Qed.

Lemma fold_better_candidates : forall rs,
  let res := fold_left Spec.better rs ([], 0) in
  match Spec.candidates rs with
  | [] => res = ([], 0)
  | _ :: _ => Spec.highest_confidence (Spec.candidates rs) res
  end.
Proof.
  intros rs res.
  destruct (fold_better_spec rs ([], 0)) as (Hor & Hle & Hall).
  fold res in Hor, Hle, Hall. cbn [snd] in *.
  destruct (Spec.candidates rs) as [|c cs] eqn:Hc.
  - destruct Hor as [H|(Hin & Hnb & Hlt)]; [exact H|].
    assert (Hmem : In res (Spec.candidates rs)) by (apply candidates_In; auto).
    rewrite Hc in Hmem. destruct Hmem.
  - rewrite <- Hc.
    assert (Hcin : In c (Spec.candidates rs)) by (rewrite Hc; left; reflexivity).
    apply candidates_In in Hcin. destruct Hcin as (Hcin & Hcnb & Hcpos).
    assert (Hpos : 0 < snd res).
    { eapply Qlt_le_trans; [exact Hcpos | apply Hall; assumption]. }
    split.
    + apply candidates_In. destruct Hor as [H|(Hin & Hnb & Hlt)].
      * rewrite H in Hpos. cbn in Hpos. exfalso. exact (Qlt_irrefl _ Hpos).
      * auto.
    + intros r Hr. apply candidates_In in Hr. destruct Hr as (Hin & Hnb & _).
      apply Hall; assumption.
Qed.

(** C4, as the code has it.  For every image and every ordered list of
    profiles, the multi-language fallback returns a highest-confidence
    attempt among the attempts whose text is not empty after stripping
    and whose confidence is above 0; when there is no such attempt, in
    particular when every attempt yields blank text, it returns empty
    text with confidence 0.  The function is total: it never raises. *)
Theorem multi_lang_best_candidate : forall e img langs past,
  let rs := fst (Spec.attempt_results e img langs past) in
  let res := fst (run_paddle_ocr_multi_lang e img (Some langs) past) in
  match Spec.candidates rs with
  | [] => res = ([], 0)
  | _ :: _ => Spec.highest_confidence (Spec.candidates rs) res
  end
  /\ match Spec.nonblank rs with
     | [] => res = ([], 0)
     | _ :: _ => True
     end.
Proof.
  intros e img langs past rs res.
  assert (Hres : res = fold_left Spec.better rs ([], 0)).
  { unfold res, run_paddle_ocr_multi_lang. rewrite multi_lang_loop_fold.
    reflexivity. }
  pose proof (fold_better_candidates rs) as Hbest. cbn zeta in Hbest.
  rewrite <- Hres in Hbest. split; [exact Hbest|].
  destruct (Spec.nonblank rs) as [|n ns] eqn:Hnb; [|exact I].
  destruct (Spec.candidates rs) as [|c cs] eqn:Hc; [exact Hbest|].
  exfalso.
  assert (Hin : In c (Spec.candidates rs)) by (rewrite Hc; left; reflexivity).
  apply candidates_In in Hin. destruct Hin as (Hin & Hcnb & _).
  assert (Hmem : In c (Spec.nonblank rs)).
  { unfold Spec.nonblank. apply filter_In. rewrite Hcnb. auto. }
  rewrite Hnb in Hmem. destruct Hmem.
Qed.

(** Three profiles, three different outcomes: the blank text of the
    English attempt has the highest confidence and is passed over. *)
Lemma multi_lang_per_profile :
  fst (run (Spec.attempt_results Samples.per_profile_engine
              (Some Samples.tiny_image) default_langs))
  = [(lit "x", 1 # 2); (lit "y", 9 # 10); (lit "  ", 1)]
  /\ run (run_paddle_ocr_multi_lang Samples.per_profile_engine
            (Some Samples.tiny_image) None)
     = ((lit "y", 9 # 10), [lit "hindi"; lit "multilingual"; lit "en"]).
Proof. split; reflexivity. Qed.

(** C4 as stated fails: when the only non-blank attempts have confidence
    0, the fallback returns empty text and not one of them. *)
Lemma multi_lang_misses_zero_score :
  ~ Spec.best_nonblank_outcome
      (fst (run (Spec.attempt_results
                   (Samples.constant_engine Samples.zero_score_result)
                   (Some Samples.tiny_image) default_langs)))
      (fst (run (run_paddle_ocr_multi_lang
                   (Samples.constant_engine Samples.zero_score_result)
                   (Some Samples.tiny_image) None))).
Proof.
  unfold Spec.best_nonblank_outcome, Spec.highest_confidence.
  vm_compute. intros [Hin _].
  repeat (destruct Hin as [Hin|Hin]; [discriminate Hin|]).
  exact Hin.
Qed.

(** The profile that [run_ocr] resolves is one of the three. *)
Lemma paddle_lang_cases : forall langs,
  OcrEngine.paddle_lang langs = lit "en"
  \/ OcrEngine.paddle_lang langs = lit "hindi"
  \/ OcrEngine.paddle_lang langs = lit "multilingual".
Proof.
  intros langs. unfold OcrEngine.paddle_lang, OcrEngine.lang_map.
  cbn [OcrEngine.map_get].
  repeat match goal with
         | |- context [if ?c then _ else _] => destruct c
         end; auto.
Qed.

Lemma paddle_lang_profiles :
  OcrEngine.paddle_lang (lit "eng") = lit "en"
  /\ OcrEngine.paddle_lang (lit "hin") = lit "hindi"
  /\ OcrEngine.paddle_lang (lit "eng+hin") = lit "multilingual".
Proof. repeat split. Qed.

(** C2, as the code has it.  When the primary attempt returns empty or
    whitespace-only text, [run_ocr] retries with the ordered fallback
    list (hindi, multilingual, en) only if the primary profile is the
    multilingual one, and then returns the fallback's outcome; for the
    English-only and the Hindi-only profile it returns the primary
    outcome after that single attempt. *)
Theorem run_ocr_blank_primary : forall e img langs past,
  let lang := OcrEngine.paddle_lang langs in
  let primary := run_paddle_ocr e (Some img) lang past in
  OcrEngine.is_blank (fst (fst primary)) = true ->
  if str_eqb lang (lit "multilingual")
  then OcrEngine.run_ocr e (Some img) langs past
       = run_paddle_ocr_multi_lang e (Some img) None (snd primary)
       /\ snd (OcrEngine.run_ocr e (Some img) langs past)
          = past ++ [lit "multilingual"; lit "hindi"; lit "multilingual"; lit "en"]
  else OcrEngine.run_ocr e (Some img) langs past = primary
       /\ snd (OcrEngine.run_ocr e (Some img) langs past)
          = past ++ [instance_key lang].
Proof.
  intros e img langs past lang primary Hblank.
  unfold OcrEngine.run_ocr, bind. fold lang. fold primary.
  destruct primary as [r past'] eqn:Hprimary. cbn [fst snd] in *.
  rewrite Hblank.
  assert (Hpast : past' = past ++ [instance_key lang]).
  { unfold primary in Hprimary. rewrite run_paddle_ocr_some in Hprimary.
    congruence. }
  destruct (str_eqb lang (lit "multilingual")) eqn:Hlang.
  - split; [reflexivity|].
    unfold run_paddle_ocr_multi_lang. rewrite multi_lang_loop_fold. cbn [snd].
    rewrite attempt_results_trace, Hpast.
    apply str_eqb_eq in Hlang. rewrite Hlang, <- app_assoc. reflexivity.
  - split; [reflexivity | exact Hpast].
Qed.

(** Nothing is recognised under the bilingual profile: four attempts. *)
Lemma run_ocr_blank_primary_witness :
  snd (OcrEngine.run_ocr (Samples.constant_engine Samples.empty_result)
         (Some Samples.tiny_image) (lit "eng+hin") [])
  = [lit "multilingual"; lit "hindi"; lit "multilingual"; lit "en"].
Proof.
  apply (run_ocr_blank_primary (Samples.constant_engine Samples.empty_result)
           Samples.tiny_image (lit "eng+hin") []).
  reflexivity.
Defined.

(** C2 as stated fails for the English-only profile: the primary attempt
    is blank and no fallback attempt follows. *)
Lemma run_ocr_english_no_retry :
  Spec.primary_is_blank (Samples.constant_engine Samples.empty_result)
    Samples.tiny_image (lit "eng")
  /\ ~ Spec.retries_with_fallback (Samples.constant_engine Samples.empty_result)
         Samples.tiny_image (lit "eng")
  /\ run (OcrEngine.run_ocr (Samples.constant_engine Samples.empty_result)
            (Some Samples.tiny_image) (lit "eng"))
     = (([], 0), [lit "en"]).
Proof.
  split; [reflexivity|]. split; [|reflexivity].
  unfold Spec.retries_with_fallback. vm_compute. discriminate.
Qed.

(* ===================================================================== *)
(** ** Properties: the capture backend chain *)
(* ===================================================================== *)

Import Capture.
Local Open Scope Z_scope.

Lemma attempts_app : forall a b, attempts (a ++ b) = attempts a ++ attempts b.
Proof.
  induction a as [|ev a IH]; intros b; [reflexivity|].
  destruct ev; simpl; rewrite IH; reflexivity.
Qed.

Lemma mss_grabs_app : forall a b, mss_grabs (a ++ b) = mss_grabs a ++ mss_grabs b.
Proof.
  induction a as [|ev a IH]; intros b; [reflexivity|].
  destruct ev; simpl; rewrite IH; reflexivity.
Qed.

(** The per-monitor translation is the identity. *)
Lemma fallback_region_global : forall mon x y w h,
  fallback_region mon x y w h = global_region x y w h.
Proof.
  intros mon x y w h. unfold fallback_region, global_region. cbn zeta.
  f_equal; lia.
Qed.

Lemma global_region_valid : forall x y w h,
  0 < w -> 0 < h ->
  global_region x y w h = {| left := x; top := y; width := w; height := h |}.
Proof.
  intros x y w h Hw Hh. unfold global_region, int_round. cbn zeta.
  f_equal; lia.
Qed.

Ltac traced_cases :=
  unfold bind, history, emit, ret;
  repeat match goal with
         | |- context [match ?c with _ => _ end] => destruct c eqn:?
         end.

(** A run of the MSS backend adds its own entry and up to two grabs, each
    one of the global region. *)
Lemma try_mss_trace : forall env x y w h past,
  exists grabs,
    snd (_try_mss_capture_debug env x y w h past)
    = past ++ Attempt MSS :: map MssGrab grabs
    /\ Forall (fun r => r = global_region x y w h) grabs.
Proof.
  intros env x y w h past.
  unfold _try_mss_capture_debug, mss_fallback.
  traced_cases; cbn [snd];
    try rewrite fallback_region_global; rewrite <- ?app_assoc; cbn [app];
    first [ exists []; split; [reflexivity | constructor]
          | exists [global_region x y w h]; split;
            [reflexivity | repeat constructor]
          | exists [global_region x y w h; global_region x y w h]; split;
            [reflexivity | repeat constructor] ].
Qed.

Lemma attempts_map_grab : forall grabs, attempts (map MssGrab grabs) = [].
Proof. induction grabs; simpl; auto. Qed.

Lemma mss_grabs_map_grab : forall grabs, mss_grabs (map MssGrab grabs) = grabs.
Proof. induction grabs; simpl; congruence. Qed.

Lemma try_mss_attempts : forall env x y w h past,
  attempts (snd (_try_mss_capture_debug env x y w h past))
  = attempts past ++ [MSS].
Proof.
  intros env x y w h past.
  destruct (try_mss_trace env x y w h past) as (grabs & -> & _).
  rewrite attempts_app. cbn [attempts]. rewrite attempts_map_grab. reflexivity.
Qed.

Lemma try_dxcam_attempts : forall env x y w h idx dpr past,
  attempts (snd (_try_dxcam_capture_debug env x y w h idx dpr past))
  = attempts past ++ [DXCAM].
Proof.
  intros. unfold _try_dxcam_capture_debug, bind, history, emit, ret. cbn [snd].
  rewrite attempts_app. reflexivity.
Qed.

Lemma try_qt_attempts : forall env x y w h screen geo past,
  attempts (snd (_try_qt_capture_debug env x y w h screen geo past))
  = attempts past ++ [QT].
Proof.
  intros. unfold _try_qt_capture_debug.
  traced_cases; cbn [snd]; rewrite <- ?app_assoc; rewrite attempts_app;
    reflexivity.
Qed.

(** A request that passes validation runs the chain: MSS, and only when
    MSS fails dxcam, whose outcome is dropped, and then Qt. *)
Lemma capture_region_valid : forall env x y w h idx screen past,
  0 < w -> 0 < h -> screen_at env x y = Some (idx, screen) ->
  capture_region env x y w h past
  = let m := _try_mss_capture_debug env x y w h past in
    match fst m with
    | Some i => (Some i, snd m)
    | None =>
        _try_qt_capture_debug env x y w h screen (geometry screen)
          (snd (_try_dxcam_capture_debug env x y w h idx
                  (devicePixelRatio screen) (snd m)))
    end.
Proof.
  intros env x y w h idx screen past Hw Hh Hscreen.
  unfold capture_region.
  replace (w <=? 0) with false by (symmetry; apply Z.leb_gt; exact Hw).
  replace (h <=? 0) with false by (symmetry; apply Z.leb_gt; exact Hh).
  cbn [orb]. rewrite Hscreen. unfold bind at 1. cbn zeta.
  destruct (_try_mss_capture_debug env x y w h past) as [[i|] t1]; cbn [fst snd].
  - reflexivity.
  - unfold bind at 1.
    destruct (_try_dxcam_capture_debug env x y w h idx (devicePixelRatio screen) t1)
      as [d t2]. cbn [snd].
    unfold bind at 1.
    destruct (_try_qt_capture_debug env x y w h screen (geometry screen) t2)
      as [[i|] t3]; reflexivity.
Qed.

Lemma capture_region_rejected : forall env x y w h past,
  w <= 0 \/ h <= 0 \/ screen_at env x y = None ->
  capture_region env x y w h past = (None, past).
Proof.
  intros env x y w h past H. unfold capture_region.
  destruct (w <=? 0) eqn:Hw; [reflexivity|].
  destruct (h <=? 0) eqn:Hh; [reflexivity|].
  apply Z.leb_gt in Hw, Hh. cbn [orb].
  destruct H as [H|[H|H]]; [lia | lia |]. rewrite H. reflexivity.
Qed.

(** C1, as the code has it.  A request that passes validation (positive
    width and height, a screen at the point) enters the MSS backend
    first.  When MSS succeeds its image is returned at once and no other
    backend is entered.  When MSS fails, dxcam is entered second and Qt
    third, whatever dxcam delivered, and the outcome of the Qt grab is
    the result: the dxcam outcome is never the result.  So [None] comes
    back exactly when MSS and Qt have both failed.  Whenever MSS succeeds
    or dxcam fails, [capture_region] does what the first-success chain of
    the specification does.  A request that fails validation returns
    [None] with no backend entered. *)
Theorem capture_region_chain :
  (forall env x y w h idx screen,
      0 < w -> 0 < h -> screen_at env x y = Some (idx, screen) ->
      let m := run (_try_mss_capture_debug env x y w h) in
      let d := _try_dxcam_capture_debug env x y w h idx
                 (devicePixelRatio screen) (snd m) in
      let q := _try_qt_capture_debug env x y w h screen (geometry screen)
                 (snd d) in
      let r := run (capture_region env x y w h) in
      match fst m with
      | Some i => r = (Some i, snd m) /\ attempts (snd r) = [MSS]
      | None => r = q /\ attempts (snd r) = [MSS; DXCAM; QT]
      end
      /\ (fst r = None <-> fst m = None /\ fst q = None)
      /\ (fst m <> None \/ fst d = None ->
          r = run (Spec.first_success_chain env x y w h idx screen)))
  /\ (forall env x y w h,
         w <= 0 \/ h <= 0 \/ screen_at env x y = None ->
         run (capture_region env x y w h) = (None, [])).
Proof.
  split.
  - intros env x y w h idx screen Hw Hh Hscreen m d q r.
    assert (Hr : r = match fst m with
                     | Some i => (Some i, snd m)
                     | None => q
                     end).
    { unfold r, run.
      rewrite (capture_region_valid env x y w h idx screen [] Hw Hh Hscreen).
      reflexivity. }
    assert (Hm : attempts (snd m) = [MSS]).
    { unfold m, run. rewrite try_mss_attempts. reflexivity. }
    assert (Hq : attempts (snd q) = [MSS; DXCAM; QT]).
    { unfold q, d. rewrite try_qt_attempts, try_dxcam_attempts, Hm. reflexivity. }
    assert (Hspec : run (Spec.first_success_chain env x y w h idx screen)
                    = match fst m with
                      | Some i => (Some i, snd m)
                      | None => match fst d with
                                | Some i => (Some i, snd d)
                                | None => q
                                end
                      end).
    { unfold Spec.first_success_chain, run, bind at 1. fold (run (_try_mss_capture_debug env x y w h)).
      fold m. destruct m as [[i|] t1]; cbn [fst snd]; [reflexivity|].
      unfold bind at 1. cbn [snd] in d. fold d.
      destruct d as [[i|] t2]; reflexivity. }
    rewrite Hspec, Hr.
    destruct (fst m) as [i|] eqn:Hfst.
    + cbn [fst snd]. split; [split; [reflexivity | exact Hm]|].
      split; [split; [discriminate | intros [H _]; discriminate]|].
      reflexivity.
    + split; [split; [reflexivity | exact Hq]|].
      split; [split; [intro H; split; [reflexivity | exact H] | intros [_ H]; exact H]|].
      intros [H | H]; [contradiction H; reflexivity|].
      rewrite H. reflexivity.
  - intros env x y w h H. unfold run. apply capture_region_rejected. exact H.
Qed.

(** On the scaled display the MSS image is returned and nothing else is
    entered; with MSS missing all three backends are entered in order,
    although dxcam delivers a frame; a request of width 0 is turned
    away. *)
Lemma capture_region_chain_witness :
  attempts (snd (run (capture_region Samples.scaled_env 10 20 300 40))) = [MSS]
  /\ attempts (snd (run (capture_region Samples.gpu_only_env 10 20 300 40)))
     = [MSS; DXCAM; QT]
  /\ run (capture_region Samples.scaled_env 10 20 0 40) = (None, []).
Proof.
  split; [|split].
  - apply (proj1 capture_region_chain Samples.scaled_env 10 20 300 40
             0%nat Samples.primary_screen); [lia | lia | reflexivity].
  - apply (proj1 capture_region_chain Samples.gpu_only_env 10 20 300 40
             0%nat Samples.primary_screen); [lia | lia | reflexivity].
  - apply (proj2 capture_region_chain Samples.scaled_env 10 20 0 40).
    left. lia.
Defined.

(** C1 as stated fails: with MSS missing, a dxcam frame delivered and the
    Qt grab failing, the chain of the specification returns the dxcam
    frame, while [capture_region] still enters Qt and returns [None]; and
    a request of width 0 gets [None] although no backend has failed, the
    chain of the specification returning an image for it. *)
Lemma capture_region_drops_dxcam :
  run (Spec.first_success_chain Samples.gpu_only_env 10 20 300 40 0
         Samples.primary_screen)
  = (Some Samples.gpu_frame, [Attempt MSS; Attempt DXCAM])
  /\ run (capture_region Samples.gpu_only_env 10 20 300 40)
     = (None, [Attempt MSS; Attempt DXCAM; Attempt QT; QtGrabWindow 10 20 300 40])
  /\ run (capture_region Samples.gpu_only_env 10 20 300 40)
     <> run (Spec.first_success_chain Samples.gpu_only_env 10 20 300 40 0
               Samples.primary_screen)
  /\ run (capture_region Samples.scaled_env 10 20 0 40) = (None, [])
  /\ fst (run (Spec.first_success_chain Samples.scaled_env 10 20 0 40 0
                 Samples.primary_screen))
     = Some (frombytes (2, 80) []).
Proof.
  split; [reflexivity|]. split; [reflexivity|].
  split; [vm_compute; discriminate|]. split; reflexivity.
Qed.

(** C6. When the global MSS grab returns a screenshot whose size differs
    from the requested one, the MSS backend converts and returns it as it
    is: [capture_region] returns that image, of the screenshot's own size,
    after the single grab, and enters no other backend. *)
Theorem mss_size_mismatch_accepted : forall env x y w h idx screen monitors sct_img,
  0 < w -> 0 < h -> screen_at env x y = Some (idx, screen) ->
  mss_installed env = true ->
  mss_monitors env = Some monitors ->
  mss_grab env [Attempt MSS] (global_region x y w h) = GrabShot sct_img ->
  shot_size sct_img <> (w, h) ->
  run (capture_region env x y w h)
  = (Some (image_of_shot sct_img),
     [Attempt MSS; MssGrab (global_region x y w h)])
  /\ img_size (image_of_shot sct_img) = shot_size sct_img
  /\ img_rgb (image_of_shot sct_img) = shot_rgb sct_img
  /\ attempts (snd (run (capture_region env x y w h))) = [MSS].
Proof.
  intros env x y w h idx screen monitors sct_img Hw Hh Hscreen Hinst Hmons Hgrab _.
  assert (Hrun : run (capture_region env x y w h)
                 = (Some (image_of_shot sct_img),
                    [Attempt MSS; MssGrab (global_region x y w h)])).
  { unfold run. rewrite (capture_region_valid env x y w h idx screen [] Hw Hh Hscreen).
    unfold _try_mss_capture_debug, bind, history, emit, ret.
    rewrite Hinst, Hmons. cbn [negb app]. rewrite Hgrab.
    destruct ((fst (shot_size sct_img) =? width (global_region x y w h))
              && (snd (shot_size sct_img) =? height (global_region x y w h)));
      reflexivity. }
  rewrite Hrun. repeat split.
Qed.

(** A request of 300 by 40 answered with 600 by 80 pixels. *)
Lemma mss_size_mismatch_accepted_witness :
  run (capture_region Samples.scaled_env 10 20 300 40)
  = (Some (frombytes (600, 80) []),
     [Attempt MSS;
      MssGrab {| left := 10; top := 20; width := 300; height := 40 |}]).
Proof.
  apply (mss_size_mismatch_accepted Samples.scaled_env 10 20 300 40 0%nat
           Samples.primary_screen Samples.desktop (Samples.shot 600 80));
    try reflexivity; try lia.
  discriminate.
Defined.

(** C10. The region of the per-monitor fallback equals the region of the
    global grab whatever the monitor, both being the request itself when
    its width and height are positive; every grab the MSS backend issues,
    the fallback's included, is of that one region. *)
Theorem mss_fallback_same_region : forall env mon x y w h,
  fallback_region mon x y w h = global_region x y w h
  /\ Forall (fun r => r = global_region x y w h)
       (mss_grabs (snd (run (_try_mss_capture_debug env x y w h))))
  /\ (0 < w -> 0 < h ->
      fallback_region mon x y w h
      = {| left := x; top := y; width := w; height := h |}).
Proof.
  intros env mon x y w h. split; [apply fallback_region_global|]. split.
  - unfold run.
    destruct (try_mss_trace env x y w h []) as (grabs & -> & Hall).
    cbn [app mss_grabs]. rewrite mss_grabs_map_grab. exact Hall.
  - intros Hw Hh. rewrite fallback_region_global.
    apply global_region_valid; assumption.
Qed.

(** The global grab raises and the fallback repeats it. *)
Lemma mss_fallback_same_region_witness :
  mss_grabs (snd (run (_try_mss_capture_debug Samples.flaky_env 10 20 300 40)))
  = [ {| left := 10; top := 20; width := 300; height := 40 |};
      {| left := 10; top := 20; width := 300; height := 40 |} ]
  /\ fallback_region {| left := 0; top := 0; width := 1920; height := 1080 |}
       10 20 300 40
     = {| left := 10; top := 20; width := 300; height := 40 |}.
Proof.
  split; [reflexivity|].
  apply (mss_fallback_same_region Samples.flaky_env
           {| left := 0; top := 0; width := 1920; height := 1080 |} 10 20 300 40);
    lia.
Defined.

(* ===================================================================== *)
(** ** Properties: the selection overlay *)
(* ===================================================================== *)

Import Overlay.

(** C8. A completed drag whose normalised rectangle is narrower or lower
    than 10 units is ignored by [mouseReleaseEvent]: the overlay only
    repaints, no call of [on_selection_made] is queued, and the capture
    chain does nothing in consequence, no backend is entered. *)
Theorem small_selection_rejected : forall env st,
  dragging st = true ->
  let rect := normalized (rect_of_points (start_global st) (end_global st)) in
  rect_width rect < 10 \/ rect_height rect < 10 ->
  mouseReleaseEvent st LeftButton = (stop_dragging st, [Update])
  /\ (forall msec r,
        ~ In (SingleShot msec (OnSelectionMade r))
             (snd (mouseReleaseEvent st LeftButton)))
  /\ release_trace env st LeftButton = []
  /\ attempts (release_trace env st LeftButton) = [].
Proof.
  intros env st Hdrag rect Hsmall.
  assert (Hrel : mouseReleaseEvent st LeftButton = (stop_dragging st, [Update])).
  { unfold mouseReleaseEvent. rewrite Hdrag. cbn [negb is_left orb]. fold rect.
    replace ((rect_width rect <? 10) || (rect_height rect <? 10)) with true;
      [reflexivity|].
    symmetry. apply orb_true_iff. rewrite !Z.ltb_lt. exact Hsmall. }
  split; [exact Hrel|]. unfold release_trace. rewrite Hrel. cbn [snd].
  split; [|split; reflexivity].
  intros msec r [H|[]]. discriminate H.
Qed.

(** A drag of 6 by 201 units. *)
Lemma small_selection_rejected_witness :
  release_trace Samples.scaled_env Samples.thin_drag LeftButton = [].
Proof.
  apply (small_selection_rejected Samples.scaled_env Samples.thin_drag);
    [reflexivity | left; vm_compute; reflexivity].
Defined.

(** A drag of 201 by 201 units goes through to the capture chain. *)
Lemma large_selection_captured :
  attempts
    (release_trace Samples.scaled_env
       {| start_global := {| px := 100; py := 100 |};
          end_global := {| px := 300; py := 300 |};
          dragging := true;
          has_parent := true |}
       LeftButton)
  = [MSS].
Proof. reflexivity. Qed.

(* ===================================================================== *)
(** ** Further properties: the capture backends *)
(* ===================================================================== *)

Import CaptureAux.

(** X1. The Qt backend grabs exactly the part of the request that lies on
    the screen, in coordinates local to the screen, and it calls
    [grabWindow] only when that part is not empty; otherwise it fails
    without a grab. *)
Theorem qt_grab_is_visible_part : forall env x y w h screen screen_geo past,
  let '(lx, ly, rx, ry) := visible_part x y w h screen_geo in
  _try_qt_capture_debug env x y w h screen screen_geo past
  = if (lx <? rx) && (ly <? ry)
    then (qt_grab_window env (past ++ [Attempt QT]) screen lx ly (rx - lx) (ry - ly),
          past ++ [Attempt QT; QtGrabWindow lx ly (rx - lx) (ry - ly)])
    else (None, past ++ [Attempt QT]).
Proof.
  intros env x y w h screen screen_geo past.
  unfold visible_part, _try_qt_capture_debug, bind, emit, history, ret.
  set (gx := rect_x screen_geo). set (gy := rect_y screen_geo).
  set (W := rect_width screen_geo). set (H := rect_height screen_geo).
  destruct (Z.ltb_spec (x - gx) 0) as [Hx|Hx];
    destruct (Z.ltb_spec (y - gy) 0) as [Hy|Hy]; cbn zeta iota beta;
    match goal with
    | |- context [(?a <=? 0) || (?b <=? 0)] =>
        destruct (Z.leb_spec a 0) as [Ha|Ha];
        destruct (Z.leb_spec b 0) as [Hb|Hb]
    end; cbn [orb];
    match goal with
    | |- context [(?a <? ?b) && (?c <? ?d)] =>
        destruct (Z.ltb_spec a b) as [Hc|Hc];
        destruct (Z.ltb_spec c d) as [Hd|Hd]
    end; cbn [andb]; try reflexivity; try (exfalso; lia);
    rewrite <- app_assoc; cbn [app];
    repeat (f_equal; try lia).
Qed.

Lemma find_monitor_sound : forall monitors k x_i y_i i,
  find_monitor k monitors x_i y_i = Some i ->
  (k <= i)%nat /\ i <> 0%nat
  /\ exists mon, nth_error monitors (i - k) = Some mon
                 /\ covers mon x_i y_i = true.
Proof.
  induction monitors as [|m monitors IH]; intros k x_i y_i i H; [discriminate|].
  cbn [find_monitor] in H. fold (covers m x_i y_i) in H.
  destruct (Nat.eqb k 0) eqn:Hk.
  - apply IH in H. destruct H as (Hle & Hne & mon & Hnth & Hcov).
    split; [lia|]. split; [exact Hne|]. exists mon. split; [|exact Hcov].
    replace (i - k)%nat with (S (i - S k)) by lia. exact Hnth.
  - apply Nat.eqb_neq in Hk. destruct (covers m x_i y_i) eqn:Hm.
    + injection H as <-. split; [lia|]. split; [exact Hk|].
      exists m. rewrite Nat.sub_diag. split; [reflexivity | exact Hm].
    + apply IH in H. destruct H as (Hle & Hne & mon & Hnth & Hcov).
      split; [lia|]. split; [exact Hne|]. exists mon. split; [|exact Hcov].
      replace (i - k)%nat with (S (i - S k)) by lia. exact Hnth.
Qed.

Lemma find_monitor_none : forall monitors k x_i y_i,
  find_monitor k monitors x_i y_i = None ->
  forall j mon, nth_error monitors j = Some mon -> (k + j)%nat <> 0%nat ->
                covers mon x_i y_i = false.
Proof.
  induction monitors as [|m monitors IH]; intros k x_i y_i H j mon Hnth Hne.
  - destruct j; discriminate Hnth.
  - cbn [find_monitor] in H. fold (covers m x_i y_i) in H.
    destruct j as [|j]; cbn [nth_error] in Hnth.
    + injection Hnth as <-. destruct (Nat.eqb k 0) eqn:Hk.
      * apply Nat.eqb_eq in Hk. lia.
      * destruct (covers m x_i y_i); [discriminate H | reflexivity].
    + destruct (Nat.eqb k 0); [|destruct (covers m x_i y_i); [discriminate H|]];
        apply (IH (S k) x_i y_i H j mon Hnth); lia.
Qed.

(** X2. When MSS reports at least one monitor entry, the per-monitor
    fallback always finds its monitor: the index it computes is inside the
    list (no lookup error), it is never entry 0, the whole desktop, once a
    real monitor exists, and the monitor it names contains the point
    unless no real monitor does. *)
Theorem chosen_monitor_exists : forall monitors x_i y_i,
  monitors <> [] ->
  exists mon,
    nth_error monitors (chosen_idx monitors x_i y_i) = Some mon
    /\ ((1 < length monitors)%nat -> (1 <= chosen_idx monitors x_i y_i)%nat)
    /\ (covers mon x_i y_i = true
        \/ forall j m, (1 <= j)%nat -> nth_error monitors j = Some m ->
                       covers m x_i y_i = false).
Proof.
  intros monitors x_i y_i Hne. unfold chosen_idx.
  destruct (find_monitor 0 monitors x_i y_i) as [i|] eqn:Hfind.
  - destruct (find_monitor_sound _ _ _ _ _ Hfind) as (_ & Hi & mon & Hnth & Hcov).
    rewrite Nat.sub_0_r in Hnth. exists mon.
    split; [exact Hnth|]. split; [lia | left; exact Hcov].
  - destruct monitors as [|m0 [|m1 rest]]; [congruence | |].
    + exists m0. split; [reflexivity|]. split; [cbn; lia|].
      right. intros j m Hj Hnth.
      apply (find_monitor_none _ _ _ _ Hfind j m Hnth). lia.
    + exists m1. split; [reflexivity|]. split; [cbn; lia|].
      right. intros j m Hj Hnth.
      apply (find_monitor_none _ _ _ _ Hfind j m Hnth). lia.
Qed.

(** The point (2500, 100) on the second of two monitors. *)
Lemma chosen_monitor_exists_witness :
  exists mon,
    nth_error
      [ {| left := 0; top := 0; width := 3840; height := 1080 |};
        {| left := 0; top := 0; width := 1920; height := 1080 |};
        {| left := 1920; top := 0; width := 1920; height := 1080 |} ]
      (chosen_idx
         [ {| left := 0; top := 0; width := 3840; height := 1080 |};
           {| left := 0; top := 0; width := 1920; height := 1080 |};
           {| left := 1920; top := 0; width := 1920; height := 1080 |} ]
         2500 100)
    = Some mon.
Proof.
  destruct (chosen_monitor_exists
              [ {| left := 0; top := 0; width := 3840; height := 1080 |};
                {| left := 0; top := 0; width := 1920; height := 1080 |};
                {| left := 1920; top := 0; width := 1920; height := 1080 |} ]
              2500 100) as (mon & Hnth & _).
  - discriminate.
  - exists mon. exact Hnth.
Defined.

(** X3. The retry of the MSS backend recovers from a failed global grab:
    when the first grab raises or returns nothing and the repeated grab
    delivers a screenshot, [capture_region] returns that screenshot's
    image after the two grabs, with no other backend entered. *)
Theorem mss_retry_recovers : forall env x y w h idx screen monitors sct_img,
  0 < w -> 0 < h -> screen_at env x y = Some (idx, screen) ->
  mss_installed env = true ->
  mss_monitors env = Some monitors -> monitors <> [] ->
  mss_grab env [Attempt MSS] (global_region x y w h) = GrabRaised
  \/ mss_grab env [Attempt MSS] (global_region x y w h) = GrabNothing ->
  mss_grab env [Attempt MSS; MssGrab (global_region x y w h)]
    (global_region x y w h) = GrabShot sct_img ->
  run (capture_region env x y w h)
  = (Some (image_of_shot sct_img),
     [Attempt MSS; MssGrab (global_region x y w h);
      MssGrab (global_region x y w h)]).
Proof.
  intros env x y w h idx screen monitors sct_img
         Hw Hh Hscreen Hinst Hmons Hne Hfirst Hsecond.
  unfold run. rewrite (capture_region_valid env x y w h idx screen [] Hw Hh Hscreen).
  destruct (chosen_monitor_exists monitors (int_round x) (int_round y) Hne)
    as (mon & Hnth & _).
  assert (Hfb : mss_fallback env monitors x y w h
                  [Attempt MSS; MssGrab (global_region x y w h)]
                = (Some (image_of_shot sct_img),
                   [Attempt MSS; MssGrab (global_region x y w h);
                    MssGrab (global_region x y w h)])).
  { unfold mss_fallback. rewrite Hnth. unfold bind, history, emit, ret.
    rewrite fallback_region_global, Hsecond. reflexivity. }
  unfold _try_mss_capture_debug, bind, history, emit, ret.
  rewrite Hinst, Hmons. cbn [negb app].
  destruct Hfirst as [-> | ->]; rewrite Hfb; reflexivity.
Qed.

(** The first grab raises, the second succeeds. *)
Lemma mss_retry_recovers_witness :
  run (capture_region Samples.flaky_env 10 20 300 40)
  = (Some (frombytes (300, 40) []),
     [Attempt MSS;
      MssGrab {| left := 10; top := 20; width := 300; height := 40 |};
      MssGrab {| left := 10; top := 20; width := 300; height := 40 |}]).
Proof.
  apply (mss_retry_recovers Samples.flaky_env 10 20 300 40 0%nat
           Samples.primary_screen Samples.desktop (Samples.shot 300 40));
    try reflexivity; try lia.
  - discriminate.
  - left. reflexivity.
Defined.

(** X4. The outcome of the GPU backend has no influence on a capture:
    with any other dxcam behaviour on the same display, [capture_region]
    returns the same image and leaves the same trace. *)
Theorem capture_ignores_dxcam : forall env f x y w h,
  run (capture_region (with_dxcam env f) x y w h)
  = run (capture_region env x y w h).
Proof.
  intros env f x y w h. unfold run, capture_region.
  destruct ((w <=? 0) || (h <=? 0)); [reflexivity|].
  change (screen_at (with_dxcam env f)) with (screen_at env).
  destruct (screen_at env x y) as [[idx screen]|]; [|reflexivity].
  unfold bind at 1 4.
  change (_try_mss_capture_debug (with_dxcam env f) x y w h [])
    with (_try_mss_capture_debug env x y w h []).
  destruct (_try_mss_capture_debug env x y w h []) as [[i|] t1]; reflexivity.
Qed.

(* ===================================================================== *)
(** ** Further properties: the result normaliser *)
(* ===================================================================== *)

Local Open Scope Q_scope.

Lemma dict_items_strings : forall b strings a,
  dict_items b a (map VStr strings)
  = Ok (fst a ++ strings, snd a ++ map (fun _ => 1%Q) strings).
Proof.
  intros b. induction strings as [|s strings IH]; intros [texts scores].
  - simpl. rewrite !app_nil_r. reflexivity.
  - cbn [map dict_items dict_item exc_bind]. rewrite IH.
    unfold acc_push. cbn [fst snd]. rewrite <- !app_assoc. reflexivity.
Qed.

Lemma sum_of_ones : forall (A : Type) (l : list A),
  fold_right Qplus 0 (map (fun _ => 1%Q) l) == inject_Z (Z.of_nat (length l)).
Proof.
  intros A. induction l as [|x l IH].
  - reflexivity.
  - cbn [map fold_right length]. rewrite IH, Nat2Z.inj_succ.
    unfold Z.succ. rewrite inject_Z_plus. ring.
Qed.

Lemma count_positive : forall (A : Type) (x : A) (l : list A),
  0 < inject_Z (Z.of_nat (length (x :: l))).
Proof.
  intros A x l. change 0%Q with (inject_Z 0). rewrite <- Zlt_Qlt.
  cbn [length]. lia.
Qed.

(** The known keys that the mapping does not hold are passed over. *)
Lemma parse_dict_skips_absent : forall b d before keys,
  (forall k, In k before -> dict_get k d = None) ->
  parse_dict b (before ++ keys) d = parse_dict b keys d.
Proof.
  intros b d. induction before as [|k before IH]; intros keys Habsent.
  - reflexivity.
  - cbn [app parse_dict]. rewrite (Habsent k) by (left; reflexivity).
    apply IH. intros k' Hk'. apply Habsent. right. exact Hk'.
Qed.

Lemma float_dict_items_strings : forall b strings a,
  PaddleFloat.dict_items b a (map VStr strings)
  = Ok (fst a ++ strings,
        snd a ++ map (fun _ => Binary64.Finite 1) strings).
Proof.
  intros b. induction strings as [|s strings IH]; intros [texts scores].
  - simpl. rewrite !app_nil_r. reflexivity.
  - cbn [map PaddleFloat.dict_items PaddleFloat.dict_item exc_bind].
    rewrite IH. unfold PaddleFloat.acc_push. cbn [fst snd].
    rewrite <- !app_assoc. reflexivity.
Qed.

Lemma float_parse_dict_skips_absent : forall b d before keys,
  (forall k, In k before -> dict_get k d = None) ->
  PaddleFloat.parse_dict b (before ++ keys) d = PaddleFloat.parse_dict b keys d.
Proof.
  intros b d. induction before as [|k before IH]; intros keys Habsent.
  - reflexivity.
  - cbn [app PaddleFloat.parse_dict]. rewrite (Habsent k) by (left; reflexivity).
    apply IH. intros k' Hk'. apply Habsent. right. exact Hk'.
Qed.

Lemma is_float_int : forall z, (Z.abs z < 2 ^ 53)%Z ->
  Binary64.is_float (inject_Z z).
Proof.
  intros z Hz. exists z, 0%Z. split; [exact Hz|]. split; [lia|].
  change (Binary64.pow2 0) with 1. ring.
Qed.

Lemma mean_of_ones : forall (A : Type) (x : A) (l : list A),
  Spec.mean_confidence (map (fun _ => 1) (x :: l)) == 1.
Proof.
  intros A x l. unfold Spec.mean_confidence. cbn [map].
  rewrite <- (map_cons (fun _ => 1) x l) at 1.
  rewrite sum_of_ones. cbn [length]. rewrite length_map.
  apply Qmult_inv_r. intros H0.
  pose proof (count_positive _ x l) as Hpos. cbn [length] in Hpos.
  rewrite H0 in Hpos. exact (Qlt_irrefl _ Hpos).
Qed.

(** Confidences that are all 1.0 add up and average without rounding. *)
Lemma ones_mean_exact : forall (A : Type) (l : list A),
  (Z.of_nat (length l) < 2 ^ 53)%Z ->
  Spec.mean_is_exact (map (fun _ => 1) l).
Proof.
  intros A l Hbound. split; [|split].
  - apply Forall_forall. intros q Hq. apply in_map_iff in Hq.
    destruct Hq as (x & <- & _). apply (is_float_int 1). reflexivity.
  - intros k. rewrite firstn_map.
    apply (is_float_compat (inject_Z (Z.of_nat (length (firstn k l)))));
      [symmetry; apply sum_of_ones|].
    apply is_float_int. rewrite length_firstn. lia.
  - destruct l as [|x l]; [apply (is_float_int 0); reflexivity|].
    apply (is_float_compat 1); [symmetry; apply mean_of_ones|].
    apply (is_float_int 1). reflexivity.
Qed.

Lemma round_one : Binary64.round 1 = Binary64.Finite 1.
Proof. vm_compute. reflexivity. Qed.

Lemma float_mean_of_ones : forall alg (A : Type) (x : A) (l : list A),
  (Z.of_nat (length (x :: l)) < 2 ^ 53)%Z ->
  Spec.float_mean alg (map (fun _ => Binary64.Finite 1) (x :: l))
  = Binary64.Finite 1.
Proof.
  intros alg A x l Hbound.
  rewrite <- round_one.
  rewrite <- (map_map (fun _ => 1) Binary64.round).
  rewrite (float_mean_exact alg _ (ones_mean_exact A (x :: l) Hbound)).
  rewrite (Qred_complete _ 1 (mean_of_ones A x l)). symmetry. apply round_one.
Qed.

(** X5. In a keyed mapping, the first of the known keys (text, texts,
    rec_text, rec_texts, results, in this order) that the mapping holds
    decides.  When that key holds a non-empty list of bare strings, the
    result is all those strings, blank ones included, joined by newlines
    in their order, with confidence 1, whatever the mapping holds under
    its other keys, known or not.  The confidence is 1 without rounding
    and in binary64 alike, under either way of summing (there for fewer
    than [2^53] strings, the integers a float holds exactly). *)
Theorem keyed_bare_strings : forall b d before key after strings rest,
  possible_keys = before ++ key :: after ->
  (forall k, In k before -> dict_get k d = None) ->
  dict_get key d = Some (VList (map VStr strings)) ->
  strings <> [] ->
  (exists conf,
     parse_result b (VList (VDict d :: rest)) = Ok (join newline strings, conf)
     /\ conf == 1)
  /\ (forall alg,
        (Z.of_nat (length strings) < 2 ^ 53)%Z ->
        PaddleFloat.parse_result alg b (VList (VDict d :: rest))
        = Ok (join newline strings, Binary64.Finite 1)).
Proof.
  intros b d before key after strings rest Hkeys Habsent Hkey Hne.
  destruct strings as [|s strings]; [congruence|].
  assert (Hdict : parse_dict b possible_keys d
                  = Ok (s :: strings, map (fun _ => 1%Q) (s :: strings))).
  { rewrite Hkeys, parse_dict_skips_absent by exact Habsent.
    cbn [parse_dict]. rewrite Hkey. apply dict_items_strings. }
  assert (Hfloat : PaddleFloat.parse_dict b possible_keys d
                   = Ok (s :: strings,
                         map (fun _ => Binary64.Finite 1) (s :: strings))).
  { rewrite Hkeys, float_parse_dict_skips_absent by exact Habsent.
    cbn [PaddleFloat.parse_dict]. rewrite Hkey.
    apply float_dict_items_strings. }
  destruct d as [|entry d]; [discriminate Hkey|].
  split.
  - exists (py_sum (map (fun _ => 1%Q) (s :: strings))
            / inject_Z (Z.of_nat (length (map (fun _ => 1%Q) (s :: strings))))).
    split.
    + unfold parse_result.
      cbn [truthy length Nat.eqb negb exc_bind getitem0 nth_error of_option].
      rewrite Hdict. reflexivity.
    + rewrite py_sum_fold_right, sum_of_ones, length_map.
      apply Qmult_inv_r. intros H0.
      pose proof (count_positive _ s strings) as Hpos. rewrite H0 in Hpos.
      exact (Qlt_irrefl _ Hpos).
  - intros alg Hbound. unfold PaddleFloat.parse_result.
    cbn [truthy length Nat.eqb negb exc_bind getitem0 nth_error of_option].
    rewrite Hfloat. cbn [exc_bind].
    rewrite float_finish_mean
      by (rewrite ?length_map; try reflexivity; exact Hbound).
    rewrite (float_mean_of_ones alg _ s strings Hbound). reflexivity.
Qed.

(** A mapping with an entry under an unknown key, two lines under
    [rec_texts], the second one blank, and an entry under [results],
    which comes later among the known keys. *)
Lemma keyed_bare_strings_witness :
  (exists conf,
     parse_result Samples.plain_builtins
       (VList [VDict [(lit "input_path", VNone);
                      (lit "results", VStr (lit "unused"));
                      (lit "rec_texts", VList [VStr (lit "total"); VStr (lit " ")])]])
     = Ok (lit "total" ++ newline ++ lit " ", conf)
     /\ conf == 1)
  /\ PaddleFloat.parse_result Binary64.Compensated Samples.plain_builtins
       (VList [VDict [(lit "input_path", VNone);
                      (lit "results", VStr (lit "unused"));
                      (lit "rec_texts", VList [VStr (lit "total"); VStr (lit " ")])]])
     = Ok (lit "total" ++ newline ++ lit " ", Binary64.Finite 1).
Proof.
  assert (H := keyed_bare_strings Samples.plain_builtins
           [(lit "input_path", VNone);
            (lit "results", VStr (lit "unused"));
            (lit "rec_texts", VList [VStr (lit "total"); VStr (lit " ")])]
           [lit "text"; lit "texts"; lit "rec_text"] (lit "rec_texts")
           [lit "results"] [lit "total"; lit " "] []
           eq_refl
           ltac:(intros k [<-|[<-|[<-|[]]]]; reflexivity)
           eq_refl
           ltac:(discriminate)).
  split; [exact (proj1 H)|].
  apply (proj2 H Binary64.Compensated). reflexivity.
Defined.

(** An earlier known key that the mapping holds decides even when it
    holds nothing usable: with [None] under [text], the strings under
    [rec_texts] are not read. *)
Lemma keyed_earlier_key_decides :
  parse_result Samples.plain_builtins
    (VList [VDict [(lit "text", VNone);
                   (lit "rec_texts", VList [VStr (lit "x")])]])
  = Ok ([], 0%Q).
Proof. reflexivity. Qed.

Lemma parse_lines_app : forall b l1 l2 a,
  parse_lines b a (l1 ++ l2) = parse_lines b (parse_lines b a l1) l2.
Proof.
  intros b. induction l1 as [|line l1 IH]; intros l2 a; [reflexivity|].
  cbn [app parse_lines].
  destruct (catch (parse_line b line) None) as [[text conf]|]; apply IH.
Qed.

(** X6. The list shape tolerates a bad line: a line whose parsing raises,
    or that has no usable text, is passed over, and the outcome is the
    one of the result without that line. *)
Theorem list_shape_skips_bad_line : forall b before bad after rest,
  catch (parse_line b bad) None = None ->
  normalize b (VList (VList (before ++ bad :: after) :: rest))
  = normalize b (VList (VList (before ++ after) :: rest)).
Proof.
  intros b before bad after rest Hbad.
  assert (Hlines : parse_lines b acc_empty (before ++ bad :: after)
                   = parse_lines b acc_empty (before ++ after)).
  { rewrite !parse_lines_app. cbn [parse_lines]. rewrite Hbad. reflexivity. }
  unfold normalize, parse_result.
  cbn [truthy length Nat.eqb negb exc_bind getitem0 nth_error of_option].
  rewrite Hlines.
  destruct before as [|l before]; [|reflexivity].
  destruct after as [|l after]; [|reflexivity].
  cbn [app] in *. cbn [length Nat.eqb negb exc_bind catch].
  reflexivity.
Qed.

(** A line whose score is [None] between two good lines. *)
Lemma list_shape_skips_bad_line_witness :
  normalize Samples.plain_builtins
    (VList [VList [Spec.to_line (VNone, lit "a", 1 # 2);
                   VList [VNone; VTuple [VStr (lit "x"); VNone]];
                   Spec.to_line (VNone, lit "b", 1 # 2)]])
  = normalize Samples.plain_builtins
      (VList [VList [Spec.to_line (VNone, lit "a", 1 # 2);
                     Spec.to_line (VNone, lit "b", 1 # 2)]]).
Proof.
  apply (list_shape_skips_bad_line Samples.plain_builtins
           [Spec.to_line (VNone, lit "a", 1 # 2)]
           (VList [VNone; VTuple [VStr (lit "x"); VNone]])
           [Spec.to_line (VNone, lit "b", 1 # 2)] []).
  reflexivity.
Defined.

Lemma dict_items_raises : forall b before text bad after a,
  py_float b bad = Raised ->
  dict_items b a (before ++ VTuple [text; bad] :: after) = Raised.
Proof.
  intros b before text bad after a Hbad. revert a.
  induction before as [|item before IH]; intros a.
  - cbn [app dict_items dict_item length Nat.leb nth exc_bind].
    rewrite Hbad. reflexivity.
  - cbn [app dict_items]. destruct (dict_item b a item) as [a'|]; [|reflexivity].
    cbn [exc_bind]. apply IH.
Qed.

(** X7. The keyed-mapping shape does not tolerate a bad entry: when one
    (text, score) pair under the key has a score that cannot be
    converted, the exception ends the parsing and the whole result is
    lost, empty text with confidence 0, whatever the other entries. *)
Theorem keyed_mapping_bad_score_loses_all :
  forall b before text bad after others rest,
    py_float b bad = Raised ->
    normalize b
      (VList (VDict ((lit "text", VList (before ++ VTuple [text; bad] :: after))
                     :: others) :: rest))
    = ([], 0).
Proof.
  intros b before text bad after others rest Hbad.
  unfold normalize, parse_result.
  cbn [truthy length Nat.eqb negb exc_bind getitem0 nth_error of_option].
  unfold possible_keys. cbn [parse_dict dict_get].
  rewrite str_eqb_refl, (dict_items_raises b before text bad after acc_empty Hbad).
  reflexivity.
Qed.

(** Two good strings around a pair whose score is [None]. *)
Lemma keyed_mapping_bad_score_loses_all_witness :
  normalize Samples.plain_builtins
    (VList [VDict [(lit "text",
                    VList [VStr (lit "a");
                           VTuple [VStr (lit "x"); VNone];
                           VStr (lit "b")])]])
  = ([], 0).
Proof.
  apply (keyed_mapping_bad_score_loses_all Samples.plain_builtins
           [VStr (lit "a")] (VStr (lit "x")) VNone [VStr (lit "b")] [] []).
  reflexivity.
Defined.

Lemma parse_lines_accepted : forall b lines a,
  Forall (fun t => accepted t = true) (fst a) ->
  Forall (fun t => accepted t = true) (fst (parse_lines b a lines)).
Proof.
  intros b. induction lines as [|line lines IH]; intros a Ha; [exact Ha|].
  cbn [parse_lines].
  destruct (catch (parse_line b line) None) as [[text conf]|] eqn:Hline;
    [|apply IH; exact Ha].
  apply IH. unfold acc_push. cbn [fst].
  apply Forall_app. split; [exact Ha|]. constructor; [|constructor].
  exact (parse_line_accepted b line text conf Hline).
Qed.

Lemma join_not_blank : forall t texts,
  accepted t = true ->
  Spec.whitespace_only (join newline (t :: texts)) = false.
Proof.
  intros t texts Ht. rewrite accepted_spec, negb_true_iff in Ht.
  unfold Spec.whitespace_only in *.
  destruct texts as [|q texts]; [exact Ht|].
  rewrite join_cons_cons, forallb_app, Ht. reflexivity.
Qed.

(** X8. For a list-shaped result, whatever its lines, the outcome is
    either the empty text with confidence 0 or a text that is not blank:
    the list shape never yields whitespace-only text, and never empty
    text with a positive confidence. *)
Theorem list_shape_text_not_blank : forall b first rest,
  is_seq first = true ->
  normalize b (VList (first :: rest)) = ([], 0)
  \/ Spec.whitespace_only (fst (normalize b (VList (first :: rest)))) = false.
Proof.
  intros b first rest Hseq.
  assert (Hfin : forall lines,
             finish (parse_lines b acc_empty lines) = ([], 0)
             \/ Spec.whitespace_only (fst (finish (parse_lines b acc_empty lines)))
                = false).
  { intros lines.
    pose proof (parse_lines_accepted b lines acc_empty (Forall_nil _)) as Hacc.
    destruct (parse_lines b acc_empty lines) as [texts scores].
    cbn [fst] in Hacc. unfold finish.
    destruct texts as [|t texts]; [left; reflexivity|].
    right. cbn [fst]. apply join_not_blank.
    inversion Hacc; assumption. }
  unfold normalize, parse_result.
  cbn [truthy length Nat.eqb negb exc_bind getitem0 nth_error of_option].
  destruct first as [| | | | |lines|lines| |]; try discriminate Hseq;
    cbn [truthy]; (destruct lines as [|l lines]; [left; reflexivity|]);
    cbn [length Nat.eqb negb exc_bind catch]; apply Hfin.
Qed.

(** A result whose lines come as a tuple. *)
Lemma list_shape_text_not_blank_witness :
  normalize Samples.plain_builtins
    (VList [VTuple (map Spec.to_line Samples.three_lines)]) = ([], 0)
  \/ Spec.whitespace_only
       (fst (normalize Samples.plain_builtins
               (VList [VTuple (map Spec.to_line Samples.three_lines)]))) = false.
Proof.
  apply (list_shape_text_not_blank Samples.plain_builtins
           (VTuple (map Spec.to_line Samples.three_lines)) []).
  reflexivity.
Defined.






(* ===================================================================== *)
(** ** Further properties: the recognition dispatcher *)
(* ===================================================================== *)

Lemma fold_better_first : forall rs best,
  let res := fold_left Spec.better rs best in
  (res = best
   /\ forall r, In r rs -> Spec.whitespace_only (fst r) = false ->
                snd r <= snd best)
  \/ (exists before after,
         rs = before ++ res :: after
         /\ Spec.whitespace_only (fst res) = false
         /\ snd best < snd res
         /\ (forall r, In r before -> Spec.whitespace_only (fst r) = false ->
                       snd r < snd res)
         /\ (forall r, In r after -> Spec.whitespace_only (fst r) = false ->
                       snd r <= snd res)).
Proof.
  induction rs as [|r rs IH]; intros best; cbn zeta.
  - left. split; [reflexivity|]. intros r [].
  - cbn [fold_left].
    assert (Hstep : (Spec.better best r = r
                     /\ Spec.whitespace_only (fst r) = false
                     /\ snd best < snd r)
                    \/ (Spec.better best r = best
                        /\ (Spec.whitespace_only (fst r) = false ->
                            snd r <= snd best))).
    { unfold Spec.better. rewrite strip_truthy.
      fold (Spec.whitespace_only (fst r)).
      destruct (Qgtb (snd r) (snd best)) eqn:Hgt;
        destruct (Spec.whitespace_only (fst r)) eqn:Hws; cbn [andb negb].
      - right. split; [reflexivity | discriminate].
      - left. apply Qgtb_lt in Hgt. auto.
      - right. split; [reflexivity | discriminate].
      - right. apply Qgtb_le in Hgt. auto. }
    specialize (IH (Spec.better best r)). cbn zeta in IH.
    set (res := fold_left Spec.better rs (Spec.better best r)) in *.
    destruct IH
      as [[Hres Hall] | (before & after & Hrs & Hnb & Hlt & Hbefore & Hafter)].
    + destruct Hstep as [(Htake & Hws & Hgt) | (Hkeep & Hle)].
      * right. exists [], rs. rewrite Htake in Hres, Hall. rewrite Hres.
        split; [reflexivity|]. split; [exact Hws|]. split; [exact Hgt|].
        split; [intros r' [] | exact Hall].
      * left. rewrite Hkeep in Hres, Hall. split; [exact Hres|].
        intros r' [<-|Hin] Hnb'; [apply Hle; exact Hnb' | apply Hall; assumption].
    + right. exists (r :: before), after.
      split; [cbn [app]; f_equal; exact Hrs|]. split; [exact Hnb|].
      destruct Hstep as [(Htake & Hws & Hgt) | (Hkeep & Hle)].
      * rewrite Htake in Hlt. split; [exact (Qlt_trans _ _ _ Hgt Hlt)|].
        split; [|exact Hafter].
        intros r' [<-|Hin] Hnb'; [exact Hlt | apply Hbefore; assumption].
      * rewrite Hkeep in Hlt. split; [exact Hlt|]. split; [|exact Hafter].
        intros r' [<-|Hin] Hnb'; [|apply Hbefore; assumption].
        eapply Qle_lt_trans; [apply Hle; exact Hnb' | exact Hlt].
Qed.

(** X10. Among attempts of equal confidence the multi-language fallback
    keeps the earliest: unless it returns the empty outcome, its result
    is an attempt with non-blank text and positive confidence, every
    non-blank attempt before it has a strictly lower confidence and none
    after it has a higher one. *)
Theorem multi_lang_earliest_best : forall e img langs past,
  let rs := fst (Spec.attempt_results e img langs past) in
  let res := fst (run_paddle_ocr_multi_lang e img (Some langs) past) in
  (res = ([], 0) /\ Spec.candidates rs = [])
  \/ (exists before after,
         rs = before ++ res :: after
         /\ Spec.whitespace_only (fst res) = false
         /\ 0 < snd res
         /\ (forall r, In r before -> Spec.whitespace_only (fst r) = false ->
                       snd r < snd res)
         /\ (forall r, In r after -> Spec.whitespace_only (fst r) = false ->
                       snd r <= snd res)).
Proof.
  intros e img langs past rs res.
  assert (Hres : res = fold_left Spec.better rs ([], 0)).
  { unfold res, run_paddle_ocr_multi_lang. rewrite multi_lang_loop_fold.
    reflexivity. }
  destruct (fold_better_first rs ([], 0)) as [[Hbest Hall] | Hfound];
    rewrite <- Hres in *.
  - left. split; [exact Hbest|].
    destruct (Spec.candidates rs) as [|c cs] eqn:Hc; [reflexivity|].
    exfalso.
    assert (Hin : In c (Spec.candidates rs)) by (rewrite Hc; left; reflexivity).
    apply candidates_In in Hin. destruct Hin as (Hin & Hnb & Hpos).
    specialize (Hall c Hin Hnb). cbn [snd] in Hall.
    exact (Qlt_not_le _ _ Hpos Hall).
  - right. exact Hfound.
Qed.

(** X11. The multi-language fallback makes one recogniser call per
    profile, in the order given and whatever the outcomes, a good early
    result does not end it; without an image it makes no call and returns
    the empty outcome. *)
Theorem multi_lang_calls_every_profile : forall e img langs past,
  snd (run_paddle_ocr_multi_lang e (Some img) (Some langs) past)
  = past ++ map instance_key langs
  /\ run_paddle_ocr_multi_lang e None (Some langs) past = (([], 0), past).
Proof.
  intros e img langs past. split.
  - unfold run_paddle_ocr_multi_lang. rewrite multi_lang_loop_fold. cbn [snd].
    apply attempt_results_trace.
  - unfold run_paddle_ocr_multi_lang. generalize past.
    induction langs as [|lang langs IH]; intros past'; [reflexivity|].
    cbn [multi_lang_loop run_paddle_ocr]. unfold bind, ret.
    cbn [snd]. apply IH.
Qed.

Lemma lower_idempotent : forall s, lower (lower s) = lower s.
Proof.
  induction s as [|c s IH]; [reflexivity|].
  cbn [lower map]. f_equal; [|exact IH].
  unfold lower_char.
  destruct ((65 <=? c) && (c <=? 90))%N eqn:Hc; [|rewrite Hc; reflexivity].
  apply andb_true_iff in Hc. destruct Hc as [H1 H2].
  apply N.leb_le in H1, H2.
  replace ((65 <=? c + 32) && (c + 32 <=? 90))%N with false; [reflexivity|].
  symmetry. apply andb_false_iff. right. apply N.leb_gt. lia.
Qed.

Lemma instance_key_idempotent : forall lang,
  instance_key (instance_key lang) = instance_key lang.
Proof.
  intros lang. unfold instance_key at 2 3.
  destruct (existsb (str_eqb lang) [lit "hin"; lit "hindi"; lit "hi"]) eqn:H1;
    [reflexivity|].
  destruct (existsb (str_eqb lang)
              [lit "eng+hin"; lit "hin+eng"; lit "bilingual"; lit "multilingual"])
    eqn:H2; [reflexivity|].
  destruct (existsb (str_eqb lang) [lit "eng"; lit "en"]) eqn:H3; [reflexivity|].
  unfold instance_key. rewrite H1, H2, H3. reflexivity.
Qed.

(** X12. Every language string resolves to one of the three profiles en,
    hindi and multilingual, the last one for every unknown string; the
    case of ASCII letters does not matter; and the client's own
    normalisation leaves the resolved profile as it is, so the profile is
    the key of the cached recogniser. *)
Theorem language_resolution : forall langs,
  (OcrEngine.paddle_lang langs = lit "en"
   \/ OcrEngine.paddle_lang langs = lit "hindi"
   \/ OcrEngine.paddle_lang langs = lit "multilingual")
  /\ OcrEngine.paddle_lang (lower langs) = OcrEngine.paddle_lang langs
  /\ instance_key (OcrEngine.paddle_lang langs) = OcrEngine.paddle_lang langs
  /\ (~ In (lower langs) (map fst OcrEngine.lang_map) ->
      OcrEngine.paddle_lang langs = lit "multilingual").
Proof.
  intros langs. split; [apply paddle_lang_cases|]. split; [|split].
  - unfold OcrEngine.paddle_lang. rewrite lower_idempotent. reflexivity.
  - destruct (paddle_lang_cases langs) as [-> | [-> | ->]]; reflexivity.
  - unfold OcrEngine.paddle_lang. generalize (lower langs). intros key.
    induction OcrEngine.lang_map as [|[k v] m IH]; intros Hnot; [reflexivity|].
    cbn [OcrEngine.map_get]. cbn [map fst In] in Hnot.
    destruct (str_eqb key k) eqn:Hk.
    + apply str_eqb_eq in Hk. exfalso. apply Hnot. left. congruence.
    + apply IH. intros Hin. apply Hnot. right. exact Hin.
Qed.

(** "FR" is no known language. *)
Lemma language_resolution_witness :
  OcrEngine.paddle_lang (lit "FR") = lit "multilingual".
Proof.
  apply (language_resolution (lit "FR")).
  vm_compute. intros H.
  repeat (destruct H as [H|H]; [discriminate H|]). exact H.
Defined.

Lemma multi_lang_outcome : forall e img langs past,
  let res := fst (run_paddle_ocr_multi_lang e img langs past) in
  res = ([], 0) \/ Spec.whitespace_only (fst res) = false.
Proof.
  intros e img langs past res.
  assert (Hres : exists rs, res = fold_left Spec.better rs ([], 0)).
  { unfold res, run_paddle_ocr_multi_lang. rewrite multi_lang_loop_fold.
    eexists. reflexivity. }
  destruct Hres as (rs & ->).
  destruct (fold_better_spec rs ([], 0)) as ([H | (_ & Hnb & _)] & _).
  - left. exact H.
  - right. exact Hnb.
Qed.

(** X13. Under the multilingual profile [run_ocr] never returns blank
    text other than the empty outcome: its result is empty text with
    confidence 0, or text that is not blank. *)
Theorem run_ocr_multilingual_outcome : forall e img langs past,
  OcrEngine.paddle_lang langs = lit "multilingual" ->
  let res := fst (OcrEngine.run_ocr e img langs past) in
  res = ([], 0) \/ Spec.whitespace_only (fst res) = false.
Proof.
  intros e img langs past Hlang res. unfold res, OcrEngine.run_ocr.
  destruct img as [img|]; [|left; reflexivity].
  unfold bind. rewrite Hlang.
  destruct (run_paddle_ocr e (Some img) (lit "multilingual") past)
    as [r past'] eqn:Hprimary.
  rewrite str_eqb_refl.
  destruct (OcrEngine.is_blank (fst r)) eqn:Hblank.
  - apply multi_lang_outcome.
  - right. cbn [fst ret]. rewrite is_blank_spec in Hblank. exact Hblank.
Qed.

(** The keyed mapping with one empty string, read under "eng+hin". *)
Lemma run_ocr_multilingual_outcome_witness :
  fst (OcrEngine.run_ocr
         (Samples.constant_engine (VList [Samples.keyed_empty_string]))
         (Some Samples.tiny_image) (lit "eng+hin") [])
  = ([], 0)
  \/ Spec.whitespace_only
       (fst (fst (OcrEngine.run_ocr
                    (Samples.constant_engine (VList [Samples.keyed_empty_string]))
                    (Some Samples.tiny_image) (lit "eng+hin") [])))
     = false.
Proof.
  apply (run_ocr_multilingual_outcome
           (Samples.constant_engine (VList [Samples.keyed_empty_string]))
           (Some Samples.tiny_image) (lit "eng+hin") []).
  reflexivity.
Defined.

(** X14. [run_ocr] calls the recogniser once, for the resolved profile,
    or four times, when that profile is the multilingual one and the
    fallback follows; a primary text that is not blank is returned as it
    is after the single call; without an image there is no call. *)
Theorem run_ocr_calls : forall e img langs past,
  let lang := OcrEngine.paddle_lang langs in
  let primary := run_paddle_ocr e (Some img) lang past in
  OcrEngine.run_ocr e None langs past = (([], 0), past)
  /\ (OcrEngine.run_ocr e (Some img) langs past = primary
      /\ snd primary = past ++ [lang]
      \/ lang = lit "multilingual"
         /\ OcrEngine.is_blank (fst (fst primary)) = true
         /\ snd (OcrEngine.run_ocr e (Some img) langs past)
            = past ++ [lang; lit "hindi"; lit "multilingual"; lit "en"])
  /\ (OcrEngine.is_blank (fst (fst primary)) = false ->
      OcrEngine.run_ocr e (Some img) langs past = primary).
Proof.
  intros e img langs past lang primary.
  assert (Hkey : instance_key lang = lang).
  { unfold lang. destruct (paddle_lang_cases langs) as [-> | [-> | ->]];
      reflexivity. }
  assert (Htrace : snd primary = past ++ [lang]).
  { unfold primary. rewrite run_paddle_ocr_some, Hkey. reflexivity. }
  split; [reflexivity|].
  unfold OcrEngine.run_ocr, bind. fold lang. fold primary.
  destruct primary as [r past'] eqn:Hprimary. cbn [fst snd] in *.
  destruct (OcrEngine.is_blank (fst r)) eqn:Hblank.
  - split; [|discriminate].
    destruct (str_eqb lang (lit "multilingual")) eqn:Hlang.
    + right. apply str_eqb_eq in Hlang. split; [exact Hlang|].
      split; [reflexivity|].
      unfold run_paddle_ocr_multi_lang. rewrite multi_lang_loop_fold. cbn [snd].
      rewrite attempt_results_trace, Htrace, <- app_assoc. reflexivity.
    + left. split; [reflexivity | exact Htrace].
  - split; [|reflexivity]. left. split; [reflexivity | exact Htrace].
Qed.

(** A reading that is not blank under the Hindi profile: one call. *)
Lemma run_ocr_calls_witness :
  OcrEngine.run_ocr Samples.per_profile_engine (Some Samples.tiny_image)
    (lit "hin") []
  = run_paddle_ocr Samples.per_profile_engine (Some Samples.tiny_image)
      (lit "hindi") [].
Proof.
  apply (run_ocr_calls Samples.per_profile_engine Samples.tiny_image
           (lit "hin") []).
  reflexivity.
Defined.

(* ===================================================================== *)
(** ** Further properties: the instance cache of the client *)
(* ===================================================================== *)

Lemma cache_get_absent : forall key c,
  Client.cache_get key c = None -> ~ In key (map fst c).
Proof.
  induction c as [|[k i] c IH]; intros Hget; [intros []|].
  cbn [Client.cache_get] in Hget. destruct (str_eqb key k) eqn:Hk; [discriminate|].
  cbn [map fst In]. intros [Heq | Hin].
  - subst k. rewrite str_eqb_refl in Hk. discriminate.
  - exact (IH Hget Hin).
Qed.

Lemma cache_get_snoc : forall key i c,
  Client.cache_get key c = None ->
  Client.cache_get key (c ++ [(key, i)]) = Some i.
Proof.
  induction c as [|[k j] c IH]; intros Hget.
  - cbn. rewrite str_eqb_refl. reflexivity.
  - cbn [Client.cache_get app] in *.
    destruct (str_eqb key k); [discriminate | exact (IH Hget)].
Qed.

Lemma cache_get_app : forall key i c more,
  Client.cache_get key c = Some i ->
  Client.cache_get key (c ++ more) = Some i.
Proof.
  induction c as [|[k j] c IH]; intros more Hget; [discriminate|].
  cbn [Client.cache_get app] in *.
  destruct (str_eqb key k); [exact Hget | exact (IH more Hget)].
Qed.

(** A call answered from the cache returns the cached instance and
    leaves the class as it is. *)
Lemma get_instance_cached : forall construct st lang ocr,
  Client.cache_get (instance_key lang) (Client.lang_instances st) = Some ocr ->
  Client.get_instance construct st lang = (Ok ocr, st).
Proof.
  intros construct st lang ocr Hget. unfold Client.get_instance.
  rewrite Hget. reflexivity.
Qed.

(** What a call returns is in the cache afterwards. *)
Lemma get_instance_caches : forall construct st lang ocr st',
  Client.get_instance construct st lang = (Ok ocr, st') ->
  Client.cache_get (instance_key lang) (Client.lang_instances st') = Some ocr.
Proof.
  intros construct st lang ocr st' Hcall. unfold Client.get_instance in Hcall.
  destruct (Client.cache_get (instance_key lang) (Client.lang_instances st))
    as [cached|] eqn:Hget.
  - injection Hcall as <- <-. exact Hget.
  - destruct (construct (Client.constructor_calls st)
                (Client.model_for (instance_key lang))); [|discriminate].
    injection Hcall as <- <-. cbn [Client.lang_instances].
    apply cache_get_snoc. exact Hget.
Qed.

(** No call removes or replaces an entry of the cache. *)
Lemma get_instance_keeps : forall construct st lang key i,
  Client.cache_get key (Client.lang_instances st) = Some i ->
  Client.cache_get key
    (Client.lang_instances (snd (Client.get_instance construct st lang)))
  = Some i.
Proof.
  intros construct st lang key i Hget. unfold Client.get_instance.
  destruct (Client.cache_get (instance_key lang) (Client.lang_instances st));
    [exact Hget|].
  destruct (construct (Client.constructor_calls st)
              (Client.model_for (instance_key lang)));
    cbn [snd Client.lang_instances]; [|exact Hget].
  apply cache_get_app. exact Hget.
Qed.

Lemma get_instances_keeps : forall construct langs st key i,
  Client.cache_get key (Client.lang_instances st) = Some i ->
  Client.cache_get key
    (Client.lang_instances (Client.get_instances construct st langs))
  = Some i.
Proof.
  intros construct. induction langs as [|lang langs IH]; intros st key i Hget.
  - exact Hget.
  - cbn [Client.get_instances]. apply IH. apply get_instance_keeps. exact Hget.
Qed.

(** X15. Aliases of a language share one recogniser for good: once
    [get_instance] has returned an instance for a language, every later
    call for a language with the same cache key, whatever calls were
    made in between, for whatever languages and whether they succeeded
    or raised, returns that very instance and constructs nothing. *)
Theorem client_cache_hit : forall construct st lang ocr st' between lang',
  Client.get_instance construct st lang = (Ok ocr, st') ->
  instance_key lang' = instance_key lang ->
  let later := Client.get_instances construct st' between in
  Client.get_instance construct later lang' = (Ok ocr, later).
Proof.
  intros construct st lang ocr st' between lang' Hfirst Hkey later.
  apply get_instance_cached. rewrite Hkey. unfold later.
  apply get_instances_keeps.
  exact (get_instance_caches construct st lang ocr st' Hfirst).
Qed.

(** "hin" builds the Hindi recogniser; after a call for English, which
    succeeds, and one for the multilingual profile, which raises, "hi"
    finds that recogniser and the constructor is not called again. *)
Lemma client_cache_hit_witness :
  let construct := fun (past : list str) (m : str) => (length past <? 2)%nat in
  let st' := snd (Client.get_instance construct Client.initial (lit "hin")) in
  let later := Client.get_instances construct st' [lit "en"; lit "bilingual"] in
  Client.constructor_calls later = [lit "hi"; lit "en"; lit "hi"]
  /\ Client.get_instance construct later (lit "hi")
     = (Ok {| Client.model := lit "hi"; Client.ident := 0 |}, later).
Proof.
  intros construct st' later. split; [reflexivity|].
  apply (client_cache_hit construct Client.initial (lit "hin")
           {| Client.model := lit "hi"; Client.ident := 0 |}
           st' [lit "en"; lit "bilingual"] (lit "hi")); reflexivity.
Defined.

Lemma cache_invariant_step : forall construct st lang,
  NoDup (map fst (Client.lang_instances st)) ->
  Forall (fun entry =>
            instance_key (fst entry) = fst entry
            /\ Client.model (snd entry) = Client.model_for (fst entry)
            /\ nth_error (Client.constructor_calls st) (Client.ident (snd entry))
               = Some (Client.model (snd entry)))
         (Client.lang_instances st) ->
  let st' := snd (Client.get_instance construct st lang) in
  NoDup (map fst (Client.lang_instances st'))
  /\ Forall (fun entry =>
               instance_key (fst entry) = fst entry
               /\ Client.model (snd entry) = Client.model_for (fst entry)
               /\ nth_error (Client.constructor_calls st') (Client.ident (snd entry))
                  = Some (Client.model (snd entry)))
            (Client.lang_instances st').
Proof.
  intros construct st lang Hnodup Hall. cbn zeta. unfold Client.get_instance.
  destruct (Client.cache_get (instance_key lang) (Client.lang_instances st))
    as [cached|] eqn:Hget; [split; assumption|].
  assert (Hgrow : Forall (fun entry =>
             instance_key (fst entry) = fst entry
             /\ Client.model (snd entry) = Client.model_for (fst entry)
             /\ nth_error (Client.constructor_calls st
                           ++ [Client.model_for (instance_key lang)])
                          (Client.ident (snd entry))
                = Some (Client.model (snd entry)))
            (Client.lang_instances st)).
  { eapply Forall_impl; [|exact Hall]. intros entry (H1 & H2 & H3).
    split; [exact H1|]. split; [exact H2|].
    rewrite nth_error_app1; [exact H3|].
    apply nth_error_Some. rewrite H3. discriminate. }
  destruct (construct (Client.constructor_calls st)
              (Client.model_for (instance_key lang)));
    cbn [snd Client.lang_instances Client.constructor_calls];
    [|split; assumption].
  split.
  - rewrite map_app. cbn [map fst]. apply NoDup_app.
    + exact Hnodup.
    + constructor; [intros [] | constructor].
    + intros k Hin [<-|[]]. exact (cache_get_absent _ _ Hget Hin).
  - apply Forall_app. split; [exact Hgrow|]. constructor; [|constructor].
    cbn [fst snd Client.model Client.ident].
    split; [apply instance_key_idempotent|]. split; [reflexivity|].
    rewrite nth_error_app2, Nat.sub_diag; [reflexivity | apply Nat.le_refl].
Qed.

(** X16. Whatever series of [get_instance] calls is made from the start
    of the process, and whichever constructor calls fail, the cache holds
    at most one instance per key, every key is a normalised one, and every
    cached instance is the product of its own constructor call, made with
    the model of its key. *)
Theorem client_one_instance_per_key : forall construct langs,
  let st := Client.get_instances construct Client.initial langs in
  NoDup (map fst (Client.lang_instances st))
  /\ Forall (fun entry =>
               instance_key (fst entry) = fst entry
               /\ Client.model (snd entry) = Client.model_for (fst entry)
               /\ nth_error (Client.constructor_calls st) (Client.ident (snd entry))
                  = Some (Client.model (snd entry)))
            (Client.lang_instances st).
Proof.
  intros construct langs.
  assert (Hgen : forall st,
             NoDup (map fst (Client.lang_instances st)) ->
             Forall (fun entry =>
                       instance_key (fst entry) = fst entry
                       /\ Client.model (snd entry) = Client.model_for (fst entry)
                       /\ nth_error (Client.constructor_calls st)
                                    (Client.ident (snd entry))
                          = Some (Client.model (snd entry)))
                    (Client.lang_instances st) ->
             let st' := Client.get_instances construct st langs in
             NoDup (map fst (Client.lang_instances st'))
             /\ Forall (fun entry =>
                          instance_key (fst entry) = fst entry
                          /\ Client.model (snd entry) = Client.model_for (fst entry)
                          /\ nth_error (Client.constructor_calls st')
                                       (Client.ident (snd entry))
                             = Some (Client.model (snd entry)))
                       (Client.lang_instances st')).
  { induction langs as [|lang langs IH]; intros st Hnodup Hall.
    - split; assumption.
    - cbn [Client.get_instances].
      destruct (cache_invariant_step construct st lang Hnodup Hall) as [Hn Ha].
      apply IH; assumption. }
  apply Hgen; constructor.
Qed.

(* ===================================================================== *)
(** ** Further properties: text extraction *)
(* ===================================================================== *)

Lemma lstrip_snoc : forall l c,
  is_space c = false -> lstrip (l ++ [c]) = lstrip l ++ [c].
Proof.
  induction l as [|x l IH]; intros c Hc.
  - cbn. rewrite Hc. reflexivity.
  - cbn [app lstrip]. destruct (is_space x); [apply IH; exact Hc | reflexivity].
Qed.

Lemma lstrip_cases : forall s,
  lstrip s = [] \/ exists c r, lstrip s = c :: r /\ is_space c = false.
Proof.
  intros s. destruct (forallb is_space s) eqn:Hs.
  - left. apply lstrip_all_space. exact Hs.
  - right. apply lstrip_some_text. exact Hs.
Qed.

(** A stripped text is empty or begins and ends with a code point that is
    not a space. *)
Lemma strip_ends : forall s,
  strip s = []
  \/ (exists c r, strip s = c :: r /\ is_space c = false)
     /\ (exists r c, strip s = r ++ [c] /\ is_space c = false).
Proof.
  intros s. unfold strip, rstrip.
  destruct (lstrip_cases s) as [-> | (c & r & -> & Hc)]; [left; reflexivity|].
  right. cbn [rev]. split.
  - rewrite (lstrip_snoc _ _ Hc), rev_app_distr. cbn [rev app].
    exists c, (rev (lstrip (rev r))). split; [reflexivity | exact Hc].
  - destruct (lstrip_cases (rev r ++ [c])) as [Hnil | (c' & r' & Hv & Hc')].
    + rewrite (lstrip_snoc _ _ Hc) in Hnil. destruct (lstrip (rev r)); discriminate.
    + rewrite Hv. cbn [rev]. exists (rev r'), c'. split; [reflexivity | exact Hc'].
Qed.

(** X17. [extract_text] returns the recognised text stripped: the result
    is empty exactly when the text of [run_ocr] is blank, and otherwise it
    begins and ends with a code point that is not whitespace; it makes the
    recogniser calls of [run_ocr] and no other.  Without an image, or when
    [run_ocr] could not be imported, it returns the empty text and the
    recogniser is not called. *)
Theorem extract_text_stripped : forall imported e image lang past,
  let ocr := OcrEngine.run_ocr e image lang past in
  let text := fst (Translate.extract_text imported e image lang past) in
  (image = None \/ imported = false ->
   Translate.extract_text imported e image lang past = ([], past))
  /\ (image <> None -> imported = true ->
      text = strip (fst (fst ocr))
      /\ snd (Translate.extract_text imported e image lang past) = snd ocr
      /\ (text = [] <-> Spec.whitespace_only (fst (fst ocr)) = true))
  /\ (text = []
      \/ (exists c r, text = c :: r /\ is_space c = false)
         /\ (exists r c, text = r ++ [c] /\ is_space c = false)).
Proof.
  intros imported e image lang past ocr text.
  assert (Hcalled : image <> None -> imported = true ->
                    Translate.extract_text imported e image lang past
                    = (strip (fst (fst ocr)), snd ocr)).
  { intros Himg Himp. unfold Translate.extract_text, ocr.
    destruct image as [img|]; [|congruence]. rewrite Himp. cbn [negb].
    unfold bind.
    destruct (OcrEngine.run_ocr e (Some img) lang past) as [[t c] past'].
    cbn [fst snd]. destruct t; reflexivity. }
  assert (Hblank : forall t, strip t = [] <-> Spec.whitespace_only t = true).
  { intros t. pose proof (strip_truthy t) as Ht. unfold Spec.whitespace_only.
    destruct (strip t); destruct (forallb is_space t); cbn in Ht;
      split; congruence. }
  split; [|split].
  - intros [-> | ->]; [reflexivity|]. destruct image; reflexivity.
  - intros Himg Himp. unfold text. rewrite (Hcalled Himg Himp). cbn [fst snd].
    split; [reflexivity|]. split; [reflexivity | apply Hblank].
  - unfold text. destruct image as [img|]; [|left; reflexivity].
    destruct imported; [|left; reflexivity].
    rewrite Hcalled by (discriminate || reflexivity). cbn [fst].
    apply strip_ends.
Qed.

(** The good reading of the multilingual profile, and no image. *)
Lemma extract_text_stripped_witness :
  fst (Translate.extract_text true Samples.per_profile_engine
         (Some Samples.tiny_image) (lit "eng+hin") [])
  = lit "y"
  /\ Translate.extract_text true Samples.per_profile_engine None (lit "eng+hin") []
     = ([], []).
Proof.
  split.
  - apply (extract_text_stripped true Samples.per_profile_engine
             (Some Samples.tiny_image) (lit "eng+hin") []);
      [discriminate | reflexivity].
  - apply (extract_text_stripped true Samples.per_profile_engine None
             (lit "eng+hin") []).
    left. reflexivity.
Defined.

(* ===================================================================== *)
(** ** Further properties: gestures on the overlay *)
(* ===================================================================== *)

Import OverlayEvents.
Local Open Scope Z_scope.

Lemma selections_app : forall a b,
  selections (a ++ b) = selections a ++ selections b.
Proof.
  induction a as [|ef a IH]; intros b; [reflexivity|].
  destruct ef as [| |msec [rect]]; cbn [app selections]; rewrite IH; reflexivity.
Qed.

Lemma release_cases : forall st button,
  mouseReleaseEvent st button = (st, [])
  \/ dragging st = true
     /\ (mouseReleaseEvent st button = (stop_dragging st, [Update])
         \/ mouseReleaseEvent st button = (stop_dragging st, [Hide])
         \/ mouseReleaseEvent st button
            = (stop_dragging st,
               [Hide; SingleShot 120
                        (OnSelectionMade
                           (normalized (rect_of_points (start_global st)
                                                       (end_global st))))])
            /\ 10 <= rect_width (normalized (rect_of_points (start_global st)
                                                            (end_global st)))
            /\ 10 <= rect_height (normalized (rect_of_points (start_global st)
                                                             (end_global st)))).
Proof.
  intros st button. unfold mouseReleaseEvent.
  destruct (dragging st) eqn:Hd; [|left; reflexivity].
  destruct (is_left button); [|left; reflexivity]. cbn [negb orb].
  right. split; [reflexivity|].
  set (rect := normalized (rect_of_points (start_global st) (end_global st))).
  destruct (Z.ltb_spec (rect_width rect) 10) as [Hw|Hw];
    [left; reflexivity|].
  destruct (Z.ltb_spec (rect_height rect) 10) as [Hh|Hh];
    [left; reflexivity|]. cbn [orb].
  destruct (has_parent st); [|right; left; reflexivity].
  right. right. split; [reflexivity|]. split; assumption.
Qed.

Lemma handle_count : forall st i,
  (length (selections (snd (handle st i)))
   + (if dragging (fst (handle st i)) then 1 else 0)
   <= (if dragging st then 1 else 0) + left_presses [i])%nat.
Proof.
  intros st i. destruct i as [button pos|pos|button|key]; cbn [handle].
  - unfold mousePressEvent. destruct button; cbn; destruct (dragging st); lia.
  - unfold mouseMoveEvent. destruct (dragging st) eqn:Hd; cbn; rewrite ?Hd; lia.
  - destruct (release_cases st button) as [-> | (Hd & [-> | [-> | (-> & _)]])];
      cbn; rewrite ?Hd; lia.
  - destruct key; cbn; destruct (dragging st); lia.
Qed.

Lemma play_count : forall inputs st,
  (length (selections (snd (play st inputs)))
   + (if dragging (fst (play st inputs)) then 1 else 0)
   <= (if dragging st then 1 else 0) + left_presses inputs)%nat.
Proof.
  induction inputs as [|i inputs IH]; intros st.
  - cbn. lia.
  - cbn [play]. pose proof (handle_count st i) as Hstep.
    destruct (handle st i) as [st' effects]. cbn [fst snd] in Hstep.
    specialize (IH st'). destruct (play st' inputs) as [st'' effects'].
    cbn [fst snd] in *. rewrite selections_app, length_app.
    assert (Hp : left_presses (i :: inputs)
                 = (left_presses [i] + left_presses inputs)%nat).
    { destruct i as [[| |] pos|pos|button|key]; reflexivity. }
    rewrite Hp. lia.
Qed.

(** X18. Whatever events the overlay receives, it queues at most one
    selection per left-button press (one more if a drag was already under
    way): a release without its own press, a second release or a release
    after Escape queues nothing. *)
Theorem one_selection_per_press : forall st inputs,
  (length (selections (snd (play st inputs)))
   <= (if dragging st then 1 else 0) + left_presses inputs)%nat
  /\ (left_presses inputs = 0%nat ->
      selections (snd (play st (KeyPress Key_Escape :: inputs))) = []).
Proof.
  intros st inputs. split.
  - pose proof (play_count inputs st). lia.
  - intros Hnone.
    pose proof (play_count (KeyPress Key_Escape :: inputs) st) as Hc.
    cbn [play handle keyPressEvent fst] in *.
    pose proof (play_count inputs (stop_dragging st)) as Hc'.
    destruct (play (stop_dragging st) inputs) as [st' effects].
    cbn [fst snd app] in *. rewrite Hnone in Hc'.
    destruct (selections effects); [reflexivity | cbn in Hc'; lia].
Qed.

(** After Escape, moves and a release queue nothing. *)
Lemma one_selection_per_press_witness :
  selections
    (snd (play Inputs.wide_drag
            [KeyPress Key_Escape; Move {| px := 400; py := 400 |};
             Release LeftButton]))
  = [].
Proof.
  apply (one_selection_per_press Inputs.wide_drag
           [Move {| px := 400; py := 400 |}; Release LeftButton]).
  reflexivity.
Defined.

(** X19. Every selection the overlay queues, in any series of events, is
    at least 10 units wide and 10 units high. *)
Theorem queued_selections_large : forall inputs st,
  Forall (fun rect => 10 <= rect_width rect /\ 10 <= rect_height rect)
         (selections (snd (play st inputs))).
Proof.
  induction inputs as [|i inputs IH]; intros st; [constructor|].
  cbn [play].
  assert (Hstep : Forall (fun rect => 10 <= rect_width rect /\ 10 <= rect_height rect)
                         (selections (snd (handle st i)))).
  { destruct i as [button pos|pos|button|key]; cbn [handle].
    - unfold mousePressEvent. destruct (is_left button); constructor.
    - unfold mouseMoveEvent. destruct (dragging st); constructor.
    - destruct (release_cases st button)
        as [-> | (_ & [-> | [-> | (-> & Hw & Hh)]])]; cbn [snd selections];
        repeat constructor; assumption.
    - constructor. }
  destruct (handle st i) as [st' effects]. specialize (IH st').
  destruct (play st' inputs) as [st'' effects']. cbn [snd] in *.
  rewrite selections_app. apply Forall_app. split; assumption.
Qed.

Lemma play_app : forall a b st,
  play st (a ++ b)
  = (fst (play (fst (play st a)) b),
     snd (play st a) ++ snd (play (fst (play st a)) b)).
Proof.
  induction a as [|i a IH]; intros b st.
  - cbn. destruct (play st b); reflexivity.
  - cbn [app play]. destruct (handle st i) as [st' effects].
    rewrite IH. destruct (play st' a) as [st1 e1]. cbn [fst snd].
    destruct (play st1 b) as [st2 e2]. cbn [fst snd].
    rewrite app_assoc. reflexivity.
Qed.

Lemma play_moves : forall moves st,
  dragging st = true ->
  start_global (fst (play st (map Move moves))) = start_global st
  /\ dragging (fst (play st (map Move moves))) = true
  /\ has_parent (fst (play st (map Move moves))) = has_parent st
  /\ selections (snd (play st (map Move moves))) = [].
Proof.
  induction moves as [|pos moves IH]; intros st Hd.
  - cbn. auto.
  - cbn [map play handle]. unfold mouseMoveEvent. rewrite Hd.
    specialize (IH {| start_global := start_global st; end_global := pos;
                      dragging := true; has_parent := has_parent st |} eq_refl).
    destruct (play _ (map Move moves)) as [st' effects].
    cbn [fst snd app selections] in *. exact IH.
Qed.

(** X20. A drag selects the rectangle between the point of the press and
    the point of the last move: after a left press at [p], any moves and
    a last move to [q], the left release queues exactly the normalised
    rectangle of [p] and [q], provided it is at least 10 by 10 units and
    the overlay has its parent window, and the drag is over. *)
Theorem drag_selects_rectangle : forall st p moves q,
  has_parent st = true ->
  let rect := normalized (rect_of_points p q) in
  10 <= rect_width rect -> 10 <= rect_height rect ->
  selections
    (snd (play st (Press LeftButton p :: map Move moves
                   ++ [Move q; Release LeftButton])))
  = [rect]
  /\ dragging
       (fst (play st (Press LeftButton p :: map Move moves
                      ++ [Move q; Release LeftButton])))
     = false.
Proof.
  intros st p moves q Hparent rect Hw Hh.
  cbn [play handle mousePressEvent is_left].
  set (st0 := {| start_global := p; end_global := p; dragging := true;
                 has_parent := has_parent st |}).
  rewrite play_app.
  destruct (play_moves moves st0 eq_refl) as (Hstart & Hdrag & Hpar & Hsel).
  destruct (play st0 (map Move moves)) as [st1 e1]. cbn [fst snd] in *.
  subst st0. cbn [start_global has_parent] in Hstart, Hpar.
  cbn [play handle]. unfold mouseMoveEvent. rewrite Hdrag.
  unfold mouseReleaseEvent.
  cbn [dragging is_left negb orb start_global end_global has_parent].
  rewrite Hstart, Hpar, Hparent. fold rect.
  replace (rect_width rect <? 10) with false by (symmetry; apply Z.ltb_ge; exact Hw).
  replace (rect_height rect <? 10) with false by (symmetry; apply Z.ltb_ge; exact Hh).
  cbn [orb fst snd app selections]. rewrite selections_app, Hsel.
  split; reflexivity.
Qed.

(** A drag from (100, 100) over (150, 120) to (300, 300). *)
Lemma drag_selects_rectangle_witness :
  selections
    (snd (play Inputs.idle
            [Press LeftButton {| px := 100; py := 100 |};
             Move {| px := 150; py := 120 |};
             Move {| px := 300; py := 300 |};
             Release LeftButton]))
  = [ {| x1 := 100; y1 := 100; x2 := 300; y2 := 300 |} ].
Proof.
  apply (drag_selects_rectangle Inputs.idle {| px := 100; py := 100 |}
           [{| px := 150; py := 120 |}] {| px := 300; py := 300 |});
    [reflexivity | vm_compute; discriminate | vm_compute; discriminate].
Defined.

(** X21. A click without a move never leads to a capture: a left press
    followed at once by the release queues no selection. *)
Theorem click_selects_nothing : forall st p,
  selections (snd (play st [Press LeftButton p; Release LeftButton])) = [].
Proof.
  intros st p. cbn [play handle mousePressEvent is_left].
  unfold mouseReleaseEvent.
  cbn [dragging is_left negb orb start_global end_global].
  unfold normalized, rect_of_points, rect_width.
  cbn [x1 x2 y1 y2]. rewrite !Z.ltb_irrefl. cbn [x1 x2].
  replace (px p - px p + 1 <? 10) with true by (symmetry; apply Z.ltb_lt; lia).
  reflexivity.
Qed.

(* ===================================================================== *)
(** ** Further properties: from the selection to the capture request *)
(* ===================================================================== *)


Lemma py_int_scale_one : forall z dpr,
  (dpr == 1)%Q -> py_int (inject_Z z * dpr) = z.
Proof.
  intros z [n d] Hdpr. unfold py_int, Qeq in *. cbn in *.
  replace n with (Zpos d) by lia. apply Z.quot_mul. discriminate.
Qed.



(** X23. An accepted selection on a screen of device pixel ratio 1 is
    captured at its own rectangle: the release of the drag leads to
    exactly the capture run of [capture_region] on the rectangle's
    position and size. *)
Theorem accepted_selection_captured : forall env st idx screen,
  dragging st = true -> has_parent st = true ->
  let rect := normalized (rect_of_points (start_global st) (end_global st)) in
  10 <= rect_width rect -> 10 <= rect_height rect ->
  screen_at env (px (center rect)) (py (center rect)) = Some (idx, screen) ->
  (devicePixelRatio screen == 1)%Q ->
  release_trace env st LeftButton
  = snd (run (capture_region env (rect_x rect) (rect_y rect)
                (rect_width rect) (rect_height rect))).
Proof.
  intros env st idx screen Hdrag Hparent rect Hw Hh Hscreen Hone.
  unfold release_trace, mouseReleaseEvent.
  rewrite Hdrag, Hparent. cbn [negb is_left orb]. fold rect.
  replace (rect_width rect <? 10) with false by (symmetry; apply Z.ltb_ge; exact Hw).
  replace (rect_height rect <? 10) with false by (symmetry; apply Z.ltb_ge; exact Hh).
  cbn [orb snd run_timers fire]. unfold on_selection_made.
  rewrite Hscreen, !(py_int_scale_one _ _ Hone).
  unfold run, bind, ret.
  destruct (capture_region env (rect_x rect) (rect_y rect) (rect_width rect)
              (rect_height rect) []) as [img t].
  reflexivity.
Qed.

(** The drag of 201 by 201 units on the display of ratio 1. *)
Lemma accepted_selection_captured_witness :
  release_trace Samples.scaled_env Inputs.wide_drag LeftButton
  = [Attempt MSS;
     MssGrab {| left := 100; top := 100; width := 201; height := 201 |}].
Proof.
  apply (accepted_selection_captured Samples.scaled_env Inputs.wide_drag 0%nat
           Samples.primary_screen);
    try reflexivity; vm_compute; discriminate.
Defined.

(** X24. A selection is dropped without any backend entered when no
    screen is found at the centre of its rectangle, or when the scaled
    request has no positive size, or when no screen is found at the scaled
    corner of the request, the point [capture_region] looks up. *)
Theorem selection_dropped : forall env rect past,
  on_selection_made env rect = Raised
  \/ (exists x y w h,
         on_selection_made env rect = Ok (x, y, w, h)
         /\ (w <= 0 \/ h <= 0 \/ screen_at env x y = None)) ->
  fire env (OnSelectionMade rect) past = (None, past).
Proof.
  intros env rect past [Hraised | (x & y & w & h & Hreq & Hbad)];
    unfold fire.
  - rewrite Hraised. reflexivity.
  - rewrite Hreq. apply capture_region_rejected. exact Hbad.
Qed.

(** On the screen of ratio 2 the selection in the lower right is scaled
    to the corner (3000, 1600), where no screen is found. *)
Lemma selection_dropped_witness :
  on_selection_made Inputs.hidpi_env Inputs.lower_right_rect
  = Ok (3000, 1600, 200, 200)
  /\ fire Inputs.hidpi_env (OnSelectionMade Inputs.lower_right_rect) []
     = (None, []).
Proof.
  split; [reflexivity|].
  apply (selection_dropped Inputs.hidpi_env Inputs.lower_right_rect []).
  right. exists 3000, 1600, 200, 200. split; [reflexivity|].
  right. right. reflexivity.
Defined.

(* ===================================================================== *)
(** ** Further properties: the recognition job *)
(* ===================================================================== *)

Import WorkerTrace.

Lemma prepare_tmp_shape : forall host job image t,
  exists r tmp_file new,
    Worker.prepare_tmp host job image t = (r, tmp_file, t ++ new)
    /\ tmp_step job new tmp_file
    /\ (r = Raised \/ r = Ok tt).
Proof.
  intros host job image t.
  assert (Hcreate : exists r tmp_file new,
             (let (name_or, t0) := (Worker.new_temp host t, t) in
              match name_or with
              | Raised => (Raised, None, t0)
              | Ok name =>
                  match Worker.save_jpeg host (t0 ++ [Worker.TempFile name]) image name with
                  | Raised => (Raised, Some name, t0 ++ [Worker.TempFile name])
                  | Ok _ => (Ok tt, Some name, t0 ++ [Worker.TempFile name])
                  end
              end) = (r, tmp_file, t ++ new)
             /\ tmp_step job new tmp_file /\ (r = Raised \/ r = Ok tt)).
  { cbn zeta iota beta. destruct (Worker.new_temp host t) as [name|].
    - destruct (Worker.save_jpeg host (t ++ [Worker.TempFile name]) image name);
        do 3 eexists; (split; [reflexivity|]);
        (split; [right; exists name; split; reflexivity | auto]).
    - exists Raised, None, []. rewrite app_nil_r. split; [reflexivity|].
      split; [left; split; [reflexivity | left; reflexivity] | auto]. }
  unfold Worker.prepare_tmp, bind, history, emit, ret.
  destruct (Worker.image_path job) as [path|img|] eqn:Hsrc.
  - destruct (Worker.path_exists host t path).
    + exists (Ok tt), (Some path), []. rewrite app_nil_r. split; [reflexivity|].
      split; [|auto]. left. split; [reflexivity|]. right. exists path. auto.
    + destruct Hcreate as (r & tmp & new & Heq & Hstep & Hr).
      exists r, tmp, new. split; [|split; assumption].
      rewrite <- Heq. cbn zeta iota beta.
      destruct (Worker.new_temp host t); [|reflexivity].
      destruct (Worker.save_jpeg host (t ++ [Worker.TempFile a]) image a); reflexivity.
  - destruct Hcreate as (r & tmp & new & Heq & Hstep & Hr).
    exists r, tmp, new. split; [|split; assumption].
    rewrite <- Heq. cbn zeta iota beta.
    destruct (Worker.new_temp host t); [|reflexivity].
    destruct (Worker.save_jpeg host (t ++ [Worker.TempFile a]) image a); reflexivity.
  - destruct Hcreate as (r & tmp & new & Heq & Hstep & Hr).
    exists r, tmp, new. split; [|split; assumption].
    rewrite <- Heq. cbn zeta iota beta.
    destruct (Worker.new_temp host t); [|reflexivity].
    destruct (Worker.save_jpeg host (t ++ [Worker.TempFile a]) image a); reflexivity.
Qed.

Lemma cleanup_shape : forall host job tmp_file t,
  exists cl,
    Worker.cleanup host job tmp_file t = (tt, t ++ cl)
    /\ cleanup_step host job tmp_file t cl.
Proof.
  intros host job tmp_file t. unfold Worker.cleanup, bind, history, emit, ret.
  destruct tmp_file as [f|].
  - destruct (str_truthy f) eqn:Hf; cbn [andb].
    + destruct (Worker.differs_from_image_path job f) eqn:Hd.
      * destruct (Worker.path_exists host t f) eqn:He.
        -- exists [Worker.Remove f]. split; [reflexivity|].
           right. exists f. auto.
        -- exists []. rewrite app_nil_r. split; [reflexivity|].
           left. split; [reflexivity|]. intros f' Hf'. injection Hf' as <-. auto.
      * exists []. rewrite app_nil_r. split; [reflexivity|].
        left. split; [reflexivity|]. intros f' Hf'. injection Hf' as <-. congruence.
    + exists []. rewrite app_nil_r. split; [reflexivity|].
      left. split; [reflexivity|]. intros f' Hf'. injection Hf' as <-. congruence.
  - exists []. rewrite app_nil_r. split; [reflexivity|].
    left. split; [reflexivity|]. intros f Hf. discriminate Hf.
Qed.

Lemma recogniser_shape : forall (A : Type) (c : traced str A) t,
  exists a keys, Worker.with_recogniser c t = (a, t ++ map Worker.OcrCall keys).
Proof.
  intros A c t. unfold Worker.with_recogniser.
  destruct (c (Worker.ocr_keys t)) as [a keys]. eauto.
Qed.

Lemma translation_shape : forall host job text t,
  exists translated tr,
    Worker.translation_stage host job text t = (translated, t ++ tr)
    /\ translate_step job text tr
    /\ (tr = [] \/ tr = [Worker.Emit (Worker.Progress 90)] -> translated = []).
Proof.
  intros host job text t. unfold Worker.translation_stage.
  destruct (Worker.do_translate job) eqn:Hdo; cbn [andb];
    [|exists [], []; rewrite app_nil_r; split; [reflexivity|];
      split; [left; reflexivity | auto]].
  destruct (str_truthy (Worker.dest_lang job)); cbn [andb];
    [|exists [], []; rewrite app_nil_r; split; [reflexivity|];
      split; [left; reflexivity | auto]].
  destruct (str_truthy (strip text)) eqn:Hstrip;
    [|exists [], []; rewrite app_nil_r; split; [reflexivity|];
      split; [left; reflexivity | auto]].
  unfold Worker.translate_text, Worker.progress, bind, history, emit, ret.
  destruct (str_truthy text); cbn [negb];
    [|exists [], [Worker.Emit (Worker.Progress 90)]; split; [reflexivity|];
      split; [right; auto | auto]].
  destruct (Worker.has_googletrans host); cbn [negb];
    [|exists [], [Worker.Emit (Worker.Progress 90)]; split; [reflexivity|];
      split; [right; auto | auto]].
  eexists. exists [Worker.Emit (Worker.Progress 90);
                   Worker.Translation text (Worker.dest_lang job)].
  rewrite <- app_assoc. split; [reflexivity|]. split; [right; auto|].
  intros [H|H]; discriminate H.
Qed.

Lemma run_exit_path : forall host job,
  exit_path host job (snd (Worker.run host job [])).
Proof.
  intros host job. unfold Worker.run.
  unfold bind at 1. unfold history at 1.
  destruct (Worker.interruption host []) eqn:H0; [apply stopped_at_start; exact H0|].
  unfold bind at 1. unfold Worker.progress at 1. unfold emit at 1. cbn [app].
  destruct (Worker._load_image_fast host job) as [image|];
    [|apply load_failed; exact H0].
  unfold bind at 1. unfold history at 1.
  destruct (Worker.interruption host [Worker.Emit (Worker.Progress 5)]) eqn:H1;
    [apply stopped_after_load; assumption|].
  unfold bind at 1. unfold Worker.progress at 1. unfold emit at 1. cbn [app].
  unfold bind at 1.
  destruct (prepare_tmp_shape host job image
              [Worker.Emit (Worker.Progress 5); Worker.Emit (Worker.Progress 10)])
    as (r & tmp_file & new & -> & Hstep & Hr).
  cbn [fst snd].
  fold (before_ocr new).
  destruct r as [u|].
  - unfold bind at 1. unfold Worker.progress at 1. unfold emit at 1.
    unfold bind at 1. unfold Worker.progress at 1. unfold emit at 1.
    unfold bind at 1.
    destruct (recogniser_shape _
                (OcrEngine.run_ocr (Worker.engine host) (Some image)
                   (Worker.langs job))
                ((before_ocr new ++ [Worker.Emit (Worker.Progress 15)])
                 ++ [Worker.Emit (Worker.Progress 20)]))
      as (r0 & keys & ->).
    assert (Hafter : ((before_ocr new ++ [Worker.Emit (Worker.Progress 15)])
                      ++ [Worker.Emit (Worker.Progress 20)])
                     ++ map Worker.OcrCall keys
                     = after_ocr new keys).
    { unfold after_ocr. rewrite <- !app_assoc. reflexivity. }
    rewrite Hafter.
    unfold bind at 1. unfold history at 1.
    destruct (Worker.interruption host (after_ocr new keys)) eqn:H2.
    + destruct (cleanup_shape host job tmp_file (after_ocr new keys))
        as (cl & -> & Hcl).
      cbn [snd]. eapply stopped_after_ocr; eassumption.
    + unfold bind at 1. unfold Worker.progress at 1. unfold emit at 1.
      unfold bind at 1. unfold Worker.progress at 1. unfold emit at 1.
      unfold bind at 1. unfold Worker.progress at 1. unfold emit at 1.
      unfold bind at 1.
      match goal with
      | |- context [Worker.translation_stage host job ?x] => set (text := x)
      end.
      destruct (translation_shape host job text
                  (((after_ocr new keys ++ [Worker.Emit (Worker.Progress 70)])
                    ++ [Worker.Emit (Worker.Progress 75)])
                   ++ [Worker.Emit (Worker.Progress 85)]))
        as (translated & tr & -> & Htr & Hempty).
      unfold bind at 1. unfold Worker.progress at 1. unfold emit at 1.
      unfold bind at 1. unfold Worker.progress at 1. unfold emit at 1.
      assert (Hend : ((((((after_ocr new keys ++ [Worker.Emit (Worker.Progress 70)])
                          ++ [Worker.Emit (Worker.Progress 75)])
                         ++ [Worker.Emit (Worker.Progress 85)]) ++ tr)
                       ++ [Worker.Emit (Worker.Progress 95)])
                      ++ [Worker.Emit (Worker.Progress 100)])
                     = after_translation new keys tr).
      { unfold after_translation. rewrite <- !app_assoc. reflexivity. }
      rewrite Hend.
      unfold bind at 1. unfold history at 1.
      destruct (Worker.interruption host (after_translation new keys tr)) eqn:H3.
      * destruct (cleanup_shape host job tmp_file (after_translation new keys tr))
          as (cl & -> & Hcl).
        cbn [snd].
        eapply stopped_at_end; eassumption.
      * unfold bind at 1. unfold emit at 1.
        destruct (cleanup_shape host job tmp_file
                    (after_translation new keys tr
                     ++ [Worker.Emit (Worker.Finished text translated)]))
          as (cl & -> & Hcl).
        cbn [snd]. rewrite <- app_assoc.
        eapply completed; eassumption.
  - unfold bind at 1. unfold emit at 1.
    destruct (cleanup_shape host job tmp_file
                (before_ocr new ++ [Worker.Emit (Worker.Failed Worker.ExceptionText)]))
      as (cl & -> & Hcl).
    cbn [snd]. rewrite <- app_assoc.
    eapply save_failed; eassumption.
Qed.

Lemma progress_values_app : forall a b,
  Worker.progress_values (a ++ b)
  = Worker.progress_values a ++ Worker.progress_values b.
Proof.
  induction a as [|ev a IH]; intros b; [reflexivity|].
  destruct ev as [[n|text translated|m]|key|f|f|text dest];
    cbn [app Worker.progress_values]; rewrite IH; reflexivity.
Qed.

Lemma terminal_signals_app : forall a b,
  Worker.terminal_signals (a ++ b)
  = Worker.terminal_signals a ++ Worker.terminal_signals b.
Proof.
  induction a as [|ev a IH]; intros b; [reflexivity|].
  destruct ev as [[n|text translated|m]|key|f|f|text dest];
    cbn [app Worker.terminal_signals]; rewrite IH; reflexivity.
Qed.

Lemma removed_app : forall a b,
  Worker.remove_calls (a ++ b) = Worker.remove_calls a ++ Worker.remove_calls b.
Proof.
  induction a as [|ev a IH]; intros b; [reflexivity|].
  destruct ev; cbn [app Worker.remove_calls]; rewrite IH; reflexivity.
Qed.

Lemma temp_files_app : forall a b,
  Worker.temp_files (a ++ b) = Worker.temp_files a ++ Worker.temp_files b.
Proof.
  induction a as [|ev a IH]; intros b; [reflexivity|].
  destruct ev; cbn [app Worker.temp_files]; rewrite IH; reflexivity.
Qed.

Lemma translations_app : forall a b,
  Worker.translations (a ++ b) = Worker.translations a ++ Worker.translations b.
Proof.
  induction a as [|ev a IH]; intros b; [reflexivity|].
  destruct ev; cbn [app Worker.translations]; rewrite IH; reflexivity.
Qed.

Lemma progress_values_calls : forall keys,
  Worker.progress_values (map Worker.OcrCall keys) = [].
Proof. induction keys; simpl; auto. Qed.

Lemma terminal_signals_calls : forall keys,
  Worker.terminal_signals (map Worker.OcrCall keys) = [].
Proof. induction keys; simpl; auto. Qed.

Lemma removed_calls : forall keys,
  Worker.remove_calls (map Worker.OcrCall keys) = [].
Proof. induction keys; simpl; auto. Qed.

Lemma temp_files_calls : forall keys,
  Worker.temp_files (map Worker.OcrCall keys) = [].
Proof. induction keys; simpl; auto. Qed.

Lemma translations_calls : forall keys,
  Worker.translations (map Worker.OcrCall keys) = [].
Proof. induction keys; simpl; auto. Qed.

(** Reduce the projections of a trace given by its exit path. *)
Ltac project_trace :=
  unfold after_translation, after_ocr, before_ocr;
  rewrite ?progress_values_app, ?terminal_signals_app, ?removed_app,
    ?temp_files_app, ?translations_app;
  rewrite ?progress_values_calls, ?terminal_signals_calls, ?removed_calls,
    ?temp_files_calls, ?translations_calls;
  cbn [Worker.progress_values Worker.terminal_signals Worker.remove_calls
       Worker.temp_files Worker.translations app].

(** Split the steps of an exit path into their cases. *)
Ltac split_steps :=
  repeat match goal with
         | H : tmp_step _ _ _ |- _ =>
             destruct H as [(-> & _) | (? & -> & _)]
         | H : cleanup_step _ _ _ _ _ |- _ =>
             destruct H as [(-> & _) | (? & -> & _)]
         | H : translate_step _ _ _ |- _ =>
             destruct H as [-> | (_ & _ & [-> | ->])]
         end.

(** X25. The progress values a job emits are strictly increasing,
    whatever happens on the way. *)
Theorem worker_progress_increases : forall host job,
  StronglySorted Z.lt (Worker.progress_values (snd (Worker.run host job []))).
Proof.
  intros host job.
  destruct (run_exit_path host job); split_steps; project_trace;
    repeat (constructor; try reflexivity).
Qed.

(** X26. A job emits at most one of the signals [finished] and [failed].
    [finished] comes only after progress 100 and only when the
    interruption check on the events right before it was negative, and
    after it nothing happens but the removal of the temporary file. *)
Theorem worker_one_terminal_signal : forall host job,
  let t := snd (Worker.run host job []) in
  (length (Worker.terminal_signals t) <= 1)%nat
  /\ forall text translated,
       In (Worker.Finished text translated) (Worker.terminal_signals t) ->
       exists before cl,
         t = before ++ Worker.Emit (Worker.Finished text translated) :: cl
         /\ Worker.interruption host before = false
         /\ Worker.terminal_signals before = []
         /\ (exists earlier, Worker.progress_values before = earlier ++ [100%Z])
         /\ (cl = [] \/ exists f, cl = [Worker.Remove f]).
Proof.
  intros host job t. unfold t. clear t.
  destruct (run_exit_path host job)
    as [ | | | new tmp_file cl ? ? Htmp Hcl
         | new tmp_file keys cl ? ? Htmp ? Hcl
         | new tmp_file keys text tr cl ? ? ? Htmp Htr ? Hcl
         | new tmp_file keys text translated tr cl ? ? ? Htmp Htr ? Hint Hcl ].
  1-6: split; [split_steps; project_trace; cbn [length]; lia|];
    intros text' translated' Hin; exfalso; revert Hin;
    split_steps; project_trace; cbn [In]; intuition discriminate.
  split; [split_steps; project_trace; cbn [length]; lia|].
  intros text' translated' Hin.
  assert (Heq : Worker.Finished text' translated' = Worker.Finished text translated).
  { revert Hin. split_steps; project_trace; cbn [In]; intuition congruence. }
  injection Heq as -> ->.
  exists (after_translation new keys tr), cl.
  split; [reflexivity|]. split; [exact Hint|].
  split; [clear Hcl; split_steps; project_trace; reflexivity|].
  split.
  - clear Hcl. split_steps; project_trace;
      [ exists [5; 10; 15; 20; 70; 75; 85; 95]%Z
      | exists [5; 10; 15; 20; 70; 75; 85; 90; 95]%Z
      | exists [5; 10; 15; 20; 70; 75; 85; 90; 95]%Z
      | exists [5; 10; 15; 20; 70; 75; 85; 95]%Z
      | exists [5; 10; 15; 20; 70; 75; 85; 90; 95]%Z
      | exists [5; 10; 15; 20; 70; 75; 85; 90; 95]%Z ]; reflexivity.
  - destruct Hcl as [(-> & _) | (f & -> & _)]; [left; reflexivity|].
    right. exists f. reflexivity.
Qed.

(** The calm job: read, translated, finished, [os.remove] called on the
    temporary file. *)
Lemma worker_one_terminal_signal_witness :
  exists before cl,
    snd (Worker.run Jobs.calm_host Jobs.capture_job [])
    = before ++ Worker.Emit (Worker.Finished (lit "y") (lit "ja")) :: cl
    /\ Worker.interruption Jobs.calm_host before = false.
Proof.
  destruct (proj2 (worker_one_terminal_signal Jobs.calm_host Jobs.capture_job)
              (lit "y") (lit "ja"))
    as (before & cl & Heq & Hint & _).
  - vm_compute. left. reflexivity.
  - exists before, cl. split; assumption.
Defined.

Lemma progress_20_reached : forall new keys,
  In (Worker.Emit (Worker.Progress 20)) (after_ocr new keys).
Proof.
  intros new keys. unfold after_ocr. apply in_or_app. right.
  right. left. reflexivity.
Qed.

(** X27. Cancellation.  A job that finds the interruption requested at
    its start does nothing at all.  When the interruption is requested
    while the recogniser runs, so that every later check finds it, the job
    emits no [finished] signal, calls no translator and reports no
    progress beyond 20. *)
Theorem worker_cancellation : forall host job,
  (Worker.interruption host [] = true -> Worker.run host job [] = (tt, []))
  /\ ((forall h, In (Worker.Emit (Worker.Progress 20)) h ->
                 Worker.interruption host h = true) ->
      let t := snd (Worker.run host job []) in
      (forall text translated,
          ~ In (Worker.Finished text translated) (Worker.terminal_signals t))
      /\ Worker.translations t = []
      /\ Forall (fun n => (n <= 20)%Z) (Worker.progress_values t)).
Proof.
  intros host job. split.
  - intros Hstop. unfold Worker.run, bind, history. rewrite Hstop. reflexivity.
  - intros Hstop t. unfold t. clear t.
    destruct (run_exit_path host job)
      as [ | | | new tmp_file cl ? ? Htmp Hcl
           | new tmp_file keys cl ? ? Htmp ? Hcl
           | new tmp_file keys text tr cl ? ? Hocr Htmp Htr ? Hcl
           | new tmp_file keys text translated tr cl ? ? Hocr Htmp Htr ? Hint Hcl ].
    6-7: rewrite (Hstop _ (progress_20_reached new keys)) in Hocr;
      discriminate Hocr.
    all: split; [intros text' translated'|split];
      split_steps; project_trace; cbn [In];
      try reflexivity; try (intuition discriminate);
      repeat (constructor; try discriminate).
Qed.

(** The interruption arrives while the recogniser runs. *)
Lemma worker_cancellation_witness :
  Worker.translations
    (snd (Worker.run Jobs.stop_during_ocr_host Jobs.capture_job [])) = []
  /\ Worker.remove_calls
       (snd (Worker.run Jobs.stop_during_ocr_host Jobs.capture_job []))
     = [lit "tmp0.jpg"].
Proof.
  split; [|reflexivity].
  apply (proj2 (worker_cancellation Jobs.stop_during_ocr_host Jobs.capture_job)).
  intros h Hin. unfold Jobs.stop_during_ocr_host. cbn [Worker.interruption].
  apply existsb_exists. exists (Worker.Emit (Worker.Progress 20)).
  split; [exact Hin | reflexivity].
Defined.

Lemma differs_spec : forall job f,
  Worker.differs_from_image_path job f = true
  <-> Worker.image_path job <> Worker.FromPath f.
Proof.
  intros job f. unfold Worker.differs_from_image_path.
  destruct (Worker.image_path job) as [path|img|]; [|split; [discriminate | reflexivity]..].
  rewrite negb_true_iff. split.
  - intros Hne Heq. injection Heq as ->. rewrite str_eqb_refl in Hne. discriminate.
  - intros Hne. destruct (str_eqb f path) eqn:Heq; [|reflexivity].
    apply str_eqb_eq in Heq. subst. congruence.
Qed.

Lemma cleanup_sound : forall host job new tmp_file pre cl,
  tmp_step job new tmp_file ->
  cleanup_step host job tmp_file pre cl ->
  Worker.temp_files pre = Worker.temp_files new ->
  Worker.remove_calls pre = Worker.remove_calls new ->
  let t := pre ++ cl in
  (length (Worker.temp_files t) <= 1)%nat
  /\ (length (Worker.remove_calls t) <= 1)%nat
  /\ (forall f, In f (Worker.remove_calls t) ->
                In f (Worker.temp_files t)
                /\ Worker.image_path job <> Worker.FromPath f)
  /\ (forall f, In f (Worker.temp_files t) -> str_truthy f = true ->
                Worker.image_path job <> Worker.FromPath f ->
                In f (Worker.remove_calls t)
                \/ Worker.path_exists host t f = false).
Proof.
  intros host job new tmp_file pre cl Htmp Hcl Htemp Hrem. cbn zeta.
  rewrite temp_files_app, removed_app, Htemp, Hrem. cbn [app].
  destruct Htmp as [(-> & Hfile) | (name & -> & ->)];
    destruct Hcl as [(-> & Hgone) | (f & -> & Hf & Hdiff)];
    cbn [Worker.temp_files Worker.remove_calls app length In];
    rewrite ?app_nil_r.
  - split; [lia|]. split; [lia|]. split; [intros f []| intros f []].
  - exfalso. destruct Hfile as [-> | (path & -> & Hpath)]; [discriminate|].
    injection Hf as <-. apply differs_spec in Hdiff. congruence.
  - split; [lia|]. split; [lia|]. split; [intros f []|].
    intros f [<-|[]] Htruthy Hne. right.
    apply Hgone; [reflexivity | exact Htruthy | apply differs_spec; exact Hne].
  - injection Hf as <-. split; [lia|]. split; [lia|]. split.
    + intros f' [<-|[]]. split; [left; reflexivity | apply differs_spec; exact Hdiff].
    + intros f' [<-|[]] _ _. left. left. reflexivity.
Qed.

(** X28. Temporary files.  A job creates at most one temporary file and
    calls [os.remove] at most once, on no file but the temporary file it
    created and never on the file it was given.  On every way out, a
    failure or a cancellation included, [os.remove] is called on the
    temporary file unless [os.path.exists] reports it gone.  This is
    about the calls: a removal that raises is passed over, so whether
    the file is gone afterwards is up to the operating system. *)
Theorem worker_temp_file_cleanup : forall host job,
  let t := snd (Worker.run host job []) in
  (length (Worker.temp_files t) <= 1)%nat
  /\ (length (Worker.remove_calls t) <= 1)%nat
  /\ (forall f, In f (Worker.remove_calls t) ->
                In f (Worker.temp_files t)
                /\ Worker.image_path job <> Worker.FromPath f)
  /\ (forall f, In f (Worker.temp_files t) -> str_truthy f = true ->
                Worker.image_path job <> Worker.FromPath f ->
                In f (Worker.remove_calls t)
                \/ Worker.path_exists host t f = false).
Proof.
  intros host job t. unfold t. clear t.
  destruct (run_exit_path host job)
    as [ | | | new tmp_file cl ? ? Htmp Hcl
         | new tmp_file keys cl ? ? Htmp ? Hcl
         | new tmp_file keys text tr cl ? ? ? Htmp Htr ? Hcl
         | new tmp_file keys text translated tr cl ? ? ? Htmp Htr ? Hint Hcl ].
  1-3: cbn; split; [lia|]; split; [lia|]; split; intros f [].
  - rewrite app_assoc.
    apply (cleanup_sound host job new tmp_file _ cl Htmp Hcl);
      project_trace; rewrite ?app_nil_r; reflexivity.
  - apply (cleanup_sound host job new tmp_file _ cl Htmp Hcl);
      project_trace; rewrite ?app_nil_r; reflexivity.
  - apply (cleanup_sound host job new tmp_file _ cl Htmp Hcl);
      clear Hcl; split_steps; project_trace; rewrite ?app_nil_r; reflexivity.
  - rewrite app_assoc.
    apply (cleanup_sound host job new tmp_file _ cl Htmp Hcl);
      clear Hcl; split_steps; project_trace; rewrite ?app_nil_r; reflexivity.
Qed.

(** The calm job calls [os.remove] on the temporary file it made, once. *)
Lemma worker_temp_file_cleanup_witness :
  Worker.remove_calls (snd (Worker.run Jobs.calm_host Jobs.capture_job []))
  = [lit "tmp0.jpg"]
  /\ (In (lit "tmp0.jpg")
         (Worker.remove_calls (snd (Worker.run Jobs.calm_host Jobs.capture_job [])))
      \/ Worker.path_exists Jobs.calm_host
           (snd (Worker.run Jobs.calm_host Jobs.capture_job [])) (lit "tmp0.jpg")
         = false).
Proof.
  split; [reflexivity|].
  apply (proj2 (proj2 (proj2
                 (worker_temp_file_cleanup Jobs.calm_host Jobs.capture_job)))
           (lit "tmp0.jpg")).
  - vm_compute. left. reflexivity.
  - reflexivity.
  - discriminate.
Defined.

(** X29. The translator is called at most once in a job, only when a
    translation was asked for, for the destination language of the job,
    and with a text that is not blank: the very text the [finished]
    signal carries, if the job gets that far. *)
Theorem worker_translation : forall host job,
  let t := snd (Worker.run host job []) in
  (length (Worker.translations t) <= 1)%nat
  /\ forall text dest,
       In (text, dest) (Worker.translations t) ->
       Worker.do_translate job = true
       /\ dest = Worker.dest_lang job
       /\ Spec.whitespace_only text = false
       /\ forall text' translated,
            In (Worker.Finished text' translated) (Worker.terminal_signals t) ->
            text' = text.
Proof.
  intros host job t. unfold t. clear t.
  assert (Hnb : forall text, str_truthy (strip text) = true ->
                             Spec.whitespace_only text = false).
  { intros text H. rewrite strip_truthy, negb_true_iff in H. exact H. }
  destruct (run_exit_path host job)
    as [ | | | new tmp_file cl ? ? Htmp Hcl
         | new tmp_file keys cl ? ? Htmp ? Hcl
         | new tmp_file keys text tr cl ? ? ? Htmp Htr ? Hcl
         | new tmp_file keys text translated tr cl ? ? ? Htmp Htr ? Hint Hcl ].
  1-5: split; [split_steps; project_trace; cbn [length]; lia|];
    intros text' dest' Hin; exfalso; revert Hin;
    split_steps; project_trace; cbn [In]; intuition discriminate.
  - destruct Htr as [-> | (Hdo & Hstrip & [-> | ->])].
    1-2: split; [split_steps; project_trace; cbn [length]; lia|];
      intros text' dest' Hin; exfalso; revert Hin;
      split_steps; project_trace; cbn [In]; intuition discriminate.
    split; [split_steps; project_trace; cbn [length]; lia|].
    intros text' dest' Hin.
    assert (Heq : (text', dest') = (text, Worker.dest_lang job)).
    { revert Hin. split_steps; project_trace; cbn [In]; intuition congruence. }
    injection Heq as -> ->.
    split; [exact Hdo|]. split; [reflexivity|]. split; [apply Hnb; exact Hstrip|].
    intros text' translated' Hfin. exfalso. revert Hfin.
    split_steps; project_trace; cbn [In]; intuition discriminate.
  - destruct Htr as [-> | (Hdo & Hstrip & [-> | ->])].
    1-2: split; [split_steps; project_trace; cbn [length]; lia|];
      intros text' dest' Hin; exfalso; revert Hin;
      split_steps; project_trace; cbn [In]; intuition discriminate.
    split; [split_steps; project_trace; cbn [length]; lia|].
    intros text' dest' Hin.
    assert (Heq : (text', dest') = (text, Worker.dest_lang job)).
    { revert Hin. split_steps; project_trace; cbn [In]; intuition congruence. }
    injection Heq as -> ->.
    split; [exact Hdo|]. split; [reflexivity|]. split; [apply Hnb; exact Hstrip|].
    intros text' translated' Hfin.
    assert (Heq : Worker.Finished text' translated' = Worker.Finished text translated).
    { revert Hfin. split_steps; project_trace; cbn [In]; intuition congruence. }
    injection Heq as -> _. reflexivity.
Qed.

(** The calm job translates the text it reports. *)
Lemma worker_translation_witness :
  Worker.do_translate Jobs.capture_job = true
  /\ lit "en" = Worker.dest_lang Jobs.capture_job
  /\ Spec.whitespace_only (lit "y") = false.
Proof.
  destruct (proj2 (worker_translation Jobs.calm_host Jobs.capture_job)
              (lit "y") (lit "en"))
    as (Hdo & Hdest & Hnb & _).
  - vm_compute. left. reflexivity.
  - split; [exact Hdo|]. split; assumption.
Defined.
